(** * max-k-sat: the genetic engine (ea.py) and the weighted particle swarm
      engine (pso.py), embedded as state-passing programs over a store of
      Python list objects. *)

From Stdlib Require Import ZArith QArith Lia Sorted.
From stdpp Require Import base list.

Local Open Scope Z_scope.

(** ** Python run-time model *)

Module Py.

(** Exceptions the two programs can raise. *)
Inductive exn := IndexError | ValueError.

(** Outcome of a call.  [Stuck] is not a Python behaviour: it marks a loop
    that ran out of the unrolling budget of the model or a reference to a
    list that was never allocated. *)
Inductive res (A : Type) :=
  | Ok (a : A)
  | Raise (e : exn)
  | Stuck.
Arguments Ok {A} a.
Arguments Raise {A} e.
Arguments Stuck {A}.

(** Python numbers as the programs use them: the float arithmetic of the
    velocity update and of the comparisons against [random()] is an
    interface; [Z] values enter through [f_of_Z]. *)
Class PyFloat (F : Type) := {
  f_of_Z : Z -> F;
  (** the float a decimal literal of the source denotes *)
  f_lit : Q -> F;
  (** the float returned by [random.random()] for a raw generator output *)
  f_unit : N -> F;
  f_add : F -> F -> F;
  f_sub : F -> F -> F;
  f_mul : F -> F -> F;
  f_ltb : F -> F -> bool
}.

(** Exact rationals: the instance used to evaluate the programs.  [random()]
    is a multiple of 1/2^53 = 1/9007199254740992 below 1. *)
#[export] Instance PyFloat_Q : PyFloat Q := {
  f_of_Z := inject_Z;
  f_lit := fun q => q;
  f_unit := fun k => Qmake (Z.of_N (k mod 9007199254740992)%N) 9007199254740992;
  f_add := Qplus;
  f_sub := Qminus;
  f_mul := Qmult;
  f_ltb := fun x y => negb (Qle_bool y x)
}.

(** References to list objects. *)
Definition loc := nat.

(** The world a method runs in: the store of list objects, the pseudorandom
    source (an arbitrary stream of raw outputs and the position in it) and
    the object [self]. *)
Record World (T : Type) := mkWorld {
  heap : list (list Z);
  tape : N -> N;
  cursor : N;
  self : T
}.
Arguments mkWorld {T}.
Arguments heap {T}.
Arguments tape {T}.
Arguments cursor {T}.
Arguments self {T}.

Definition M (T A : Type) := World T -> res A * World T.

Definition ret {T A} (a : A) : M T A := fun w => (Ok a, w).

Definition bind {T A B} (m : M T A) (k : A -> M T B) : M T B :=
  fun w =>
    match m w with
    | (Ok a, w') => k a w'
    | (Raise e, w') => (Raise e, w')
    | (Stuck, w') => (Stuck, w')
    end.

Definition raise {T A} (e : exn) : M T A := fun w => (Raise e, w).
Definition stuck {T A} : M T A := fun w => (Stuck, w).

Definition get_self {T} : M T T := fun w => (Ok (self w), w).
Definition set_self {T} (t : T) : M T unit :=
  fun w => (Ok tt, mkWorld (heap w) (tape w) (cursor w) t).

(** Pure computations that may raise. *)
Definition lift {T A} (r : res A) : M T A := fun w => (r, w).

Definition rbind {A B} (r : res A) (k : A -> res B) : res B :=
  match r with
  | Ok a => k a
  | Raise e => Raise e
  | Stuck => Stuck
  end.

(** *** Lists *)

(** [l[i]] resolves a possibly negative index as Python does. *)
Definition index_of (n : nat) (i : Z) : option nat :=
  if (0 <=? i) && (i <? Z.of_nat n) then Some (Z.to_nat i)
  else if (- Z.of_nat n <=? i) && (i <? 0) then Some (Z.to_nat (Z.of_nat n + i))
  else None.

Definition getitem {A} (l : list A) (i : Z) : res A :=
  match index_of (length l) i with
  | Some k => match l !! k with Some x => Ok x | None => Raise IndexError end
  | None => Raise IndexError
  end.

Definition setitem {A} (l : list A) (i : Z) (x : A) : res (list A) :=
  match index_of (length l) i with
  | Some k => Ok (<[k := x]> l)
  | None => Raise IndexError
  end.

(** Reading and writing through a reference. *)
Definition deref {T} (r : loc) : M T (list Z) :=
  fun w => match heap w !! r with
           | Some l => (Ok l, w)
           | None => (Stuck, w)
           end.

Definition store {T} (r : loc) (l : list Z) : M T unit :=
  fun w => (Ok tt, mkWorld (<[r := l]> (heap w)) (tape w) (cursor w) (self w)).

(** A new list object. *)
Definition alloc {T} (l : list Z) : M T loc :=
  fun w => (Ok (length (heap w)),
            mkWorld (heap w ++ [l]) (tape w) (cursor w) (self w)).

(** [r[i]] and [r[i] = x] on the object behind [r]. *)
Definition load_item {T} (r : loc) (i : Z) : M T Z :=
  bind (deref r) (fun l => lift (getitem l i)).

Definition store_item {T} (r : loc) (i : Z) (x : Z) : M T unit :=
  bind (deref r) (fun l => bind (lift (setitem l i x)) (store r)).

Definition len {T} (r : loc) : M T Z :=
  bind (deref r) (fun l => ret (Z.of_nat (length l))).

(** *** The module [random] *)

Definition next_raw {T} : M T N :=
  fun w => (Ok (tape w (cursor w)),
            mkWorld (heap w) (tape w) (N.succ (cursor w)) (self w)).

(** [random.random()] *)
Definition random {T} `{PyFloat F} : M T F :=
  bind next_raw (fun k => ret (f_unit k)).

(** [random.randint(a, b)]: empty range raises [ValueError]. *)
Definition randint {T} (a b : Z) : M T Z :=
  if b <? a then raise ValueError
  else bind next_raw (fun k => ret (a + Z.of_N k mod (b - a + 1))).

(** [random.sample(population, 2)]: two distinct positions. *)
Definition sample2 {T A} (population : list A) : M T (A * A) :=
  let n := length population in
  if (n <? 2)%nat then raise ValueError
  else
    bind next_raw (fun k1 =>
    bind next_raw (fun k2 =>
      let i := N.to_nat (k1 mod N.of_nat n) in
      let j0 := N.to_nat (k2 mod N.of_nat (n - 1)) in
      let j := if (j0 <? i)%nat then j0 else S j0 in
      match population !! i, population !! j with
      | Some x, Some y => ret (x, y)
      | _, _ => stuck
      end)).

(** *** Loops *)

(** [for x in xs: body x] *)
Fixpoint for_each {T A} (xs : list A) (body : A -> M T unit) : M T unit :=
  match xs with
  | [] => ret tt
  | x :: xs' => bind (body x) (fun _ => for_each xs' body)
  end.

(** [range(n)] *)
Definition range (n : Z) : list Z := map Z.of_nat (seq 0 (Z.to_nat n)).

(** [[f(x) for x in xs]] *)
Fixpoint comprehension {T A B} (xs : list A) (f : A -> M T B) : M T (list B) :=
  match xs with
  | [] => ret []
  | x :: xs' => bind (f x) (fun y => bind (comprehension xs' f) (fun ys => ret (y :: ys)))
  end.

End Py.

Import Py.

Notation "'let*' x ':=' m 'in' k" := (bind m (fun x => k))
  (at level 10, x name, m at level 100, k at level 200).
Notation "'let*' ' p ':=' m 'in' k" := (bind m (fun x => match x with p => k end))
  (at level 10, p pattern, m at level 100, k at level 200).
Notation "m ;; k" := (bind m (fun _ => k))
  (at level 100, k at level 200, right associativity).

(** ** ea.py *)

Module Chromosome.

(** [class Chromosome]: a reference to the solution list and the fitness
    recorded at creation.  No method assigns to either field. *)
Record t := mk { solution : loc; fitness : Z }.

End Chromosome.

Module EA.

Section WithFloat.
Context {F : Type} `{PyFloat F}.

Record t := mk {
  clauses : list (list Z);
  num_clauses : Z;
  num_literals : Z;
  max_iterations : Z;
  generation_size : Z;
  mutation_rate : F;
  selection_size : Z;
  current_iteration : Z;
  crossover_p : F;
  top_chromosome : option loc
}.

(** [EA.__init__] *)
Definition init (clauses : list (list Z)) (num_literals : Z) : t :=
  {| clauses := clauses;
     num_clauses := Z.of_nat (length clauses);
     num_literals := num_literals;
     max_iterations := 1000;
     generation_size := 100;
     mutation_rate := f_lit (1 # 100);
     selection_size := 10;
     current_iteration := 0;
     crossover_p := f_lit (1 # 2);
     top_chromosome := None |}.

Definition set_top_chromosome (c : loc) (e : t) : t :=
  mk (clauses e) (num_clauses e) (num_literals e) (max_iterations e)
     (generation_size e) (mutation_rate e) (selection_size e)
     (current_iteration e) (crossover_p e) (Some c).

Definition set_current_iteration (n : Z) (e : t) : t :=
  mk (clauses e) (num_clauses e) (num_literals e) (max_iterations e)
     (generation_size e) (mutation_rate e) (selection_size e)
     n (crossover_p e) (top_chromosome e).

(** The value of one literal under a valuation. *)
Definition literal_value (valuation_list : list Z) (literal : Z) : res Z :=
  if literal <? 0
  then rbind (getitem valuation_list (- literal - 1)) (fun x => Ok (1 - x))
  else getitem valuation_list (literal - 1).

(** [EA.is_clause_satisfied], on the contents of the valuation list. *)
Fixpoint is_clause_satisfied (valuation_list : list Z) (clause : list Z) : res bool :=
  match clause with
  | [] => Ok false
  | literal :: rest =>
      rbind (literal_value valuation_list literal) (fun v =>
        if v =? 1 then Ok true else is_clause_satisfied valuation_list rest)
  end.

(** [EA.goal_function] *)
Definition goal_function (fitness : Z) (chromosome : loc) : M t unit :=
  let* e := get_self in
  if fitness =? num_clauses e then set_self (set_top_chromosome chromosome e)
  else ret tt.

(** The loop of [EA.fitness]: [num_true_clauses += is_clause_satisfied(...)]. *)
Fixpoint count_clauses (cs : list (list Z)) (chromosome : loc)
    (num_true_clauses : Z) : M t Z :=
  match cs with
  | [] => ret num_true_clauses
  | c :: cs' =>
      let* valuation_list := deref chromosome in
      let* b := lift (is_clause_satisfied valuation_list c) in
      count_clauses cs' chromosome (num_true_clauses + Z.b2z b)
  end.

(** [EA.fitness] *)
Definition fitness (chromosome : loc) : M t Z :=
  let* e := get_self in
  let* num_true_clauses := count_clauses (clauses e) chromosome 0 in
  goal_function num_true_clauses chromosome ;;
  ret num_true_clauses.

(** [EA.initial_population] *)
Definition initial_population : M t (list Chromosome.t) :=
  let* e := get_self in
  let* solutions :=
    comprehension (range (generation_size e)) (fun _ =>
      let* bits := comprehension (range (num_literals e)) (fun _ => randint 0 1) in
      alloc bits) in
  comprehension solutions (fun solution =>
    let* f := fitness solution in
    ret (Chromosome.mk solution f)).

(** [EA.stop_condition] *)
Definition stop_condition : M t bool :=
  let* e := get_self in
  ret ((max_iterations e <? current_iteration e)
       || match top_chromosome e with Some _ => true | None => false end).

(** [sorted(chromosomes, key = fitness)]: a stable sort. *)
Fixpoint insert_sorted (x : Chromosome.t) (l : list Chromosome.t) : list Chromosome.t :=
  match l with
  | [] => [x]
  | y :: l' =>
      if Chromosome.fitness x <=? Chromosome.fitness y then x :: y :: l'
      else y :: insert_sorted x l'
  end.

Definition sorted (chromosomes : list Chromosome.t) : list Chromosome.t :=
  foldr insert_sorted [] chromosomes.

(** [EA.selection]: the slice is [[:10]], not [[:selection_size]]. *)
Definition selection (chromosomes : list Chromosome.t) : list Chromosome.t :=
  take 10 (sorted chromosomes).

(** [EA.crossover]: [ab] and [ba] are the references [a] and [b]. *)
Definition crossover (a b : loc) : M t (loc * loc) :=
  let ab := a in
  let ba := b in
  let* n := len a in
  for_each (range n) (fun i =>
    let* e := get_self in
    let* p := random in
    if f_ltb p (crossover_p e) then
      (let* x := load_item a i in store_item ab i x) ;;
      (let* y := load_item b i in store_item ba i y)
    else
      (let* y := load_item b i in store_item ab i y) ;;
      (let* x := load_item a i in store_item ba i x)) ;;
  ret (ab, ba).

(** [EA.mutation] *)
Definition mutation (chromosome : loc) : M t loc :=
  let* e := get_self in
  let* t := random in
  (if f_ltb t (mutation_rate e) then
     let* n := len chromosome in
     let* i := randint 0 (n - 1) in
     let* x := load_item chromosome i in
     store_item chromosome i (if x =? 0 then 1 else 0)
   else ret tt) ;;
  ret chromosome.

(** The [while] loop of [EA.create_generation]; every pass appends two
    chromosomes, so [generation_size] passes are never all used. *)
Fixpoint create_generation_loop (fuel : nat) (for_reproduction : list Chromosome.t)
    (new_generation : list Chromosome.t) : M t (list Chromosome.t) :=
  let* e := get_self in
  if Z.of_nat (length new_generation) <? generation_size e then
    match fuel with
    | O => stuck
    | S fuel' =>
        let* '(p0, p1) := sample2 for_reproduction in
        let* '(child1, child2) :=
          crossover (Chromosome.solution p0) (Chromosome.solution p1) in
        let* child1 := mutation child1 in
        let* child2 := mutation child2 in
        let* f1 := fitness child1 in
        let new_generation := new_generation ++ [Chromosome.mk child1 f1] in
        let* f2 := fitness child2 in
        let new_generation := new_generation ++ [Chromosome.mk child2 f2] in
        create_generation_loop fuel' for_reproduction new_generation
    end
  else ret new_generation.

(** [EA.create_generation] *)
Definition create_generation (for_reproduction : list Chromosome.t)
    : M t (list Chromosome.t) :=
  let* e := get_self in
  create_generation_loop (Z.to_nat (generation_size e)) for_reproduction [].

(** [max(chromosomes, key = fitness)]: the first of the maximal elements;
    [ValueError] on an empty list. *)
Definition max_by_fitness (chromosomes : list Chromosome.t) : res Chromosome.t :=
  match chromosomes with
  | [] => Raise ValueError
  | c :: cs =>
      Ok (foldl (fun best x =>
                   if Chromosome.fitness best <? Chromosome.fitness x then x else best)
                c cs)
  end.

(** The [while] loop of [EA.run]. *)
Fixpoint run_loop (fuel : nat) (chromosomes : list Chromosome.t)
    : M t (list Chromosome.t) :=
  let* stop := stop_condition in
  if stop then ret chromosomes
  else
    match fuel with
    | O => stuck
    | S fuel' =>
        let for_reproduction := selection chromosomes in
        (* print(... max(chromosomes, key = ...).fitness) *)
        lift (max_by_fitness chromosomes) ;;
        let* chromosomes := create_generation for_reproduction in
        let* e := get_self in
        set_self (set_current_iteration (current_iteration e + 1) e) ;;
        run_loop fuel' chromosomes
    end.

(** [EA.run].  [None] is Python's [None]: the [else] branch evaluates
    [max(...)] and falls off the end of the function. *)
Definition run : M t (option Chromosome.t) :=
  let* chromosomes := initial_population in
  let* e := get_self in
  let* chromosomes :=
    run_loop (Z.to_nat (max_iterations e + 1 - current_iteration e)) chromosomes in
  let* e := get_self in
  match top_chromosome e with
  | Some r =>
      (* a list is true when it is not empty *)
      let* n := len r in
      if n =? 0 then
        lift (max_by_fitness chromosomes) ;;
        ret None
      else
        let* f := fitness r in
        ret (Some (Chromosome.mk r f))
  | None =>
      lift (max_by_fitness chromosomes) ;;
      ret None
  end.

End WithFloat.

Arguments t F : clear implicits.

End EA.

(** ** pso.py *)

Module Particle.

(** [particle.fitness] is [float("-inf")] until the first evaluation and an
    integer afterwards. *)
Inductive fit := NegInf | Int (z : Z).

(** [x > y] for a fitness field [x] and an integer [y]. *)
Definition gtb (x : fit) (y : Z) : bool :=
  match x with
  | NegInf => false
  | Int z => y <? z
  end.

Section WithFloat.
Context {F : Type} `{PyFloat F}.

(** [class Particle]: [position] and [best] are references to lists,
    [velocity] is rebound to a new list by every update. *)
Record t := mk {
  num_literals : Z;
  position : loc;
  best : loc;
  velocity : list F;
  fitness : fit
}.

Definition set_velocity (v : list F) (p : t) : t :=
  mk (num_literals p) (position p) (best p) v (fitness p).
Definition set_fitness (f : fit) (p : t) : t :=
  mk (num_literals p) (position p) (best p) (velocity p) f.
Definition set_best (b : loc) (p : t) : t :=
  mk (num_literals p) (position p) b (velocity p) (fitness p).

(** [Particle.__init__]: [self.best = self.position] binds the same list. *)
Definition init {T} (num_literals : Z) : M T t :=
  let* bits := comprehension (range num_literals) (fun _ => randint 0 1) in
  let* position := alloc bits in
  let best := position in
  let* velocity :=
    comprehension (range num_literals) (fun _ =>
      let* r := random in
      ret (f_sub (f_mul (f_of_Z 2) r) (f_of_Z 1))) in
  ret (mk num_literals position best velocity NegInf).

(** One component of the new velocity, for given coefficients. *)
Definition velocity_component {T} (p : t) (global_best : loc) (w c1 c2 r1 r2 : F)
    (i : Z) : M T F :=
  let* v := lift (getitem (velocity p) i) in
  let* b := load_item (best p) i in
  let* x := load_item (position p) i in
  let* g := load_item global_best i in
  let* x' := load_item (position p) i in
  ret (f_add (f_add (f_mul w v) (f_mul (f_mul c1 r1) (f_of_Z (b - x))))
             (f_mul (f_mul c2 r2) (f_of_Z (g - x')))).

(** [Particle.update_velocity]: [r1] and [r2] are drawn before the loop. *)
Definition update_velocity {T} (p : t) (global_best : loc) (w c1 c2 : F) : M T t :=
  let* r1 := random in
  let* r2 := random in
  let* new_velocity :=
    comprehension (range (num_literals p)) (fun i =>
      velocity_component p global_best w c1 c2 r1 r2 i) in
  ret (set_velocity new_velocity p).

End WithFloat.

Arguments t F : clear implicits.

End Particle.

Module PSO.

(** A weighted clause [{'clause': ..., 'w': ...}]. *)
Abbreviation wclause := (list Z * Z)%type.

Section WithFloat.
Context {F : Type} `{PyFloat F}.


Record t := mk {
  clauses : list wclause;
  num_literals : Z;
  num_clauses : Z;
  num_particles : Z;
  max_iteration : Z;
  w : F;
  c1 : F;
  c2 : F;
  swarm : list (Particle.t F);
  global_best : loc;
  global_best_fitness : Z
}.

Definition set_clauses (cs : list wclause) (s : t) : t :=
  mk cs (num_literals s) (num_clauses s) (num_particles s) (max_iteration s)
     (w s) (c1 s) (c2 s) (swarm s) (global_best s) (global_best_fitness s).
Definition set_swarm (sw : list (Particle.t F)) (s : t) : t :=
  mk (clauses s) (num_literals s) (num_clauses s) (num_particles s) (max_iteration s)
     (w s) (c1 s) (c2 s) sw (global_best s) (global_best_fitness s).
Definition set_global_best (g : loc) (s : t) : t :=
  mk (clauses s) (num_literals s) (num_clauses s) (num_particles s) (max_iteration s)
     (w s) (c1 s) (c2 s) (swarm s) g (global_best_fitness s).
Definition set_global_best_fitness (f : Z) (s : t) : t :=
  mk (clauses s) (num_literals s) (num_clauses s) (num_particles s) (max_iteration s)
     (w s) (c1 s) (c2 s) (swarm s) (global_best s) f.

(** The clause list [w_clauses_from_file] builds from the parsed lines:
    every weight starts at 1. *)
Definition w_clauses (lines : list (list Z)) : list wclause :=
  map (fun line => (line, 1)) lines.

(** The particle object at position [k] of the swarm. *)
Definition particle (k : nat) : M t (Particle.t F) :=
  let* s := get_self in
  match swarm s !! k with
  | Some p => ret p
  | None => stuck
  end.

Definition set_particle (k : nat) (p : Particle.t F) : M t unit :=
  let* s := get_self in
  set_self (set_swarm (<[k := p]> (swarm s)) s).

(** [PSO.init_particles] *)
Definition init_particles (num_particles particle_size : Z) : M t (list (Particle.t F)) :=
  comprehension (range num_particles) (fun _ => Particle.init particle_size).

Definition literal_value (valuation_list : list Z) (literal : Z) : res Z :=
  if literal <? 0
  then rbind (getitem valuation_list (- literal - 1)) (fun x => Ok (1 - x))
  else getitem valuation_list (literal - 1).

(** [PSO.is_clause_satisfied], on the contents of the valuation list. *)
Fixpoint is_clause_satisfied (valuation_list : list Z) (clause : list Z) : res bool :=
  match clause with
  | [] => Ok false
  | literal :: rest =>
      rbind (literal_value valuation_list literal) (fun v =>
        if v =? 1 then Ok true else is_clause_satisfied valuation_list rest)
  end.

(** [sum(map(lambda i: i['w'] * is_clause_satisfied(...), clauses))], on the
    contents of the valuation list. *)
Fixpoint weighted_sum (cs : list wclause) (valuation_list : list Z) (acc : Z) : res Z :=
  match cs with
  | [] => Ok acc
  | (clause, wt) :: cs' =>
      rbind (is_clause_satisfied valuation_list clause) (fun b =>
        weighted_sum cs' valuation_list (acc + wt * Z.b2z b))
  end.

(** [PSO.fitness] *)
Definition fitness (valuation : loc) : M t Z :=
  let* s := get_self in
  let* valuation_list := deref valuation in
  lift (weighted_sum (clauses s) valuation_list 0).

(** [PSO.__init__], from the parsed file. *)
Definition init (parsed : list wclause * Z * Z) (num_particles max_iteration : Z)
    (w c1 c2 : F) : M t unit :=
  let '(clauses, num_literals, num_clauses) := parsed in
  set_self (mk clauses num_literals num_clauses num_particles max_iteration
               w c1 c2 [] O 0) ;;
  let* swarm := init_particles num_particles num_literals in
  (let* s := get_self in set_self (set_swarm swarm s)) ;;
  let* first :=
    match swarm with
    | p :: _ => ret p
    | [] => raise IndexError
    end in
  (let* s := get_self in set_self (set_global_best (Particle.position first) s)) ;;
  let* f := fitness (Particle.position first) in
  let* s := get_self in
  set_self (set_global_best_fitness f s).

(** [PSO.calc_fitness_and_global_best] *)
Definition calc_fitness_and_global_best : M t unit :=
  let* s := get_self in
  for_each (seq 0 (length (swarm s))) (fun k =>
    let* p := particle k in
    let* f := fitness (Particle.position p) in
    set_particle k (Particle.set_fitness (Particle.Int f) p) ;;
    let* s := get_self in
    if global_best_fitness s <? f then
      set_self (set_global_best_fitness f s) ;;
      let* s := get_self in
      set_self (set_global_best (Particle.position p) s)
    else ret tt).

(** [PSO.update_velocities] *)
Definition update_velocities (k : nat) : M t unit :=
  let* p := particle k in
  let* s := get_self in
  let* p' := Particle.update_velocity p (global_best s) (w s) (c1 s) (c2 s) in
  set_particle k p'.

(** [PSO.update_personal_best] *)
Definition update_personal_best (k : nat) : M t unit :=
  let* p := particle k in
  let* p_best_fit := fitness (Particle.best p) in
  if Particle.gtb (Particle.fitness p) p_best_fit then
    set_particle k (Particle.set_fitness (Particle.Int p_best_fit) p) ;;
    let* p := particle k in
    set_particle k (Particle.set_best (Particle.position p) p)
  else ret tt.

(** [PSO.update_global_best] *)
Definition update_global_best (k : nat) : M t unit :=
  let* p := particle k in
  let* curr_fitness := fitness (Particle.best p) in
  let* s := get_self in
  if global_best_fitness s <? curr_fitness then
    set_self (set_global_best_fitness curr_fitness s) ;;
    let* s := get_self in
    set_self (set_global_best (Particle.best p) s)
  else ret tt.

(** [PSO.update_clauses_weight]: the weights are updated in place, one
    clause after the other. *)
Definition update_clauses_weight : M t unit :=
  let* s := get_self in
  for_each (seq 0 (length (clauses s))) (fun k =>
    let* s := get_self in
    match clauses s !! k with
    | Some (clause, wt) =>
        let* valuation_list := deref (global_best s) in
        let* b := lift (is_clause_satisfied valuation_list clause) in
        set_self (set_clauses (<[k := (clause, wt + 1 - Z.b2z b)]> (clauses s)) s)
    | None => stuck
    end).

(** The loop of [PSO.num_satisfied_clauses]. *)
Fixpoint count_clauses (cs : list wclause) (val_list : list Z)
    (num_true_clauses : Z) : res Z :=
  match cs with
  | [] => Ok num_true_clauses
  | (clause, _) :: cs' =>
      rbind (is_clause_satisfied val_list clause) (fun b =>
        count_clauses cs' val_list (num_true_clauses + Z.b2z b))
  end.

(** [PSO.num_satisfied_clauses] *)
Definition num_satisfied_clauses (val_list : loc) : M t Z :=
  let* s := get_self in
  let* l := deref val_list in
  lift (count_clauses (clauses s) l 0).

(** The body of the [for] loop of [PSO.local_search] at index [i]. *)
Definition flip_step (position : loc) (i : Z) (improvement nbrflip : Z) : M t (Z * Z) :=
  let* fit_before := fitness position in
  (let* x := load_item position i in store_item position i (1 - x)) ;;
  let nbrflip := nbrflip + 1 in
  let* fit_after := fitness position in
  let gain := fit_after - fit_before in
  if 0 <=? gain then
    ret (improvement + gain, nbrflip)
  else
    (let* x := load_item position i in store_item position i (1 - x)) ;;
    ret (improvement, nbrflip).

(** One sweep: [for i in range(self.num_literals)]. *)
Fixpoint sweep (indices : list Z) (position : loc) (improvement nbrflip : Z)
    : M t (Z * Z) :=
  match indices with
  | [] => ret (improvement, nbrflip)
  | i :: rest =>
      let* '(improvement, nbrflip) := flip_step position i improvement nbrflip in
      sweep rest position improvement nbrflip
  end.

(** The [while] loop of [PSO.local_search]. *)
Fixpoint local_search_loop (fuel : nat) (position : loc) (max_flip : Z)
    (improvement nbrflip : Z) : M t unit :=
  if (0 <? improvement) && (nbrflip <? max_flip) then
    match fuel with
    | O => stuck
    | S fuel' =>
        let* s := get_self in
        let* '(improvement, nbrflip) :=
          sweep (range (num_literals s)) position 0 nbrflip in
        local_search_loop fuel' position max_flip improvement nbrflip
    end
  else ret tt.

(** [PSO.local_search]: the particle's position list is changed in place and
    never rebound. *)
Definition local_search (k : nat) (max_flip : Z) : M t unit :=
  let* p := particle k in
  local_search_loop (Z.to_nat max_flip) (Particle.position p) max_flip 1 0.

(** The body of the [while] loop of [run_WPSOSAT]; the result is the new
    [num_satisfied_clauses]. *)
Definition iteration (max_flip : Z) : M t Z :=
  calc_fitness_and_global_best ;;
  let* s := get_self in
  for_each (seq 0 (length (swarm s))) (fun k =>
    update_velocities k ;;
    local_search k max_flip ;;
    update_personal_best k ;;
    update_global_best k) ;;
  update_clauses_weight ;;
  let* s := get_self in
  num_satisfied_clauses (global_best s).

Fixpoint run_loop (fuel : nat) (max_flip : Z) (iteration_no num_satisfied : Z)
    : M t (Z * Z) :=
  let* s := get_self in
  if (num_satisfied =? num_clauses s) || (max_iteration s <=? iteration_no) then
    ret (num_satisfied, iteration_no)
  else
    match fuel with
    | O => stuck
    | S fuel' =>
        let iteration_no := iteration_no + 1 in
        let* num_satisfied := iteration max_flip in
        run_loop fuel' max_flip iteration_no num_satisfied
    end.

(** [run_WPSOSAT], from the parsed file; the result is what it prints:
    the number of clauses the global best satisfies and the iteration count. *)
Definition run_WPSOSAT (parsed : list wclause * Z * Z)
    (num_particles max_iteration max_flip : Z) (w c1 c2 : F) : M t (Z * Z) :=
  init parsed num_particles max_iteration w c1 c2 ;;
  run_loop (Z.to_nat max_iteration) max_flip 0 0.

End WithFloat.

Arguments t F : clear implicits.

End PSO.

(** * Properties *)

(** Unfolds the plumbing of the monad in the goal. *)
Ltac msimpl :=
  cbv beta iota delta [bind ret raise stuck get_self set_self lift];
  cbn [fst snd self heap tape cursor].

(** ** The clause evaluator *)

Section Evaluator.

(** A literal names one of the [n] variables. *)
Definition literal_in_range (n : nat) (literal : Z) : Prop :=
  1 <= Z.abs literal <= Z.of_nat n.

Definition well_formed (n : nat) (clause : list Z) : Prop :=
  Forall (literal_in_range n) clause.

(** A literal that is read without error and is not true. *)
Definition reads_false (v : list Z) (literal : Z) : Prop :=
  exists y, EA.literal_value v literal = Ok y /\ y <> 1.

Lemma pso_is_clause_satisfied_eq v c :
  PSO.is_clause_satisfied v c = EA.is_clause_satisfied v c.
Proof. reflexivity. Qed.

Lemma index_of_nonneg n i :
  0 <= i < Z.of_nat n -> index_of n i = Some (Z.to_nat i).
Proof.
  intros Hi. unfold index_of.
  destruct (Z.leb_spec 0 i); [|lia].
  destruct (Z.ltb_spec i (Z.of_nat n)); [|lia].
  reflexivity.
Qed.

Lemma index_of_beyond n i : Z.of_nat n <= i -> index_of n i = None.
Proof.
  intros Hi. unfold index_of.
  destruct (Z.ltb_spec i (Z.of_nat n)); [lia|].
  destruct (Z.ltb_spec i 0); [lia|].
  rewrite !andb_false_r. reflexivity.
Qed.

Lemma getitem_nonneg {A} (l : list A) i :
  0 <= i < Z.of_nat (length l) -> exists x, getitem l i = Ok x /\ l !! Z.to_nat i = Some x.
Proof.
  intros Hi. unfold getitem. rewrite index_of_nonneg by assumption.
  destruct (lookup_lt_is_Some_2 l (Z.to_nat i)) as [x Hx]; [lia|].
  rewrite Hx. eauto.
Qed.

Lemma getitem_beyond {A} (l : list A) i :
  Z.of_nat (length l) <= i -> getitem l i = Raise IndexError.
Proof. intros Hi. unfold getitem. rewrite index_of_beyond by assumption. reflexivity. Qed.

(** [l[-1]] is the last element. *)
Lemma getitem_minus_one {A} (l : list A) :
  getitem l (-1) = match last l with Some x => Ok x | None => Raise IndexError end.
Proof.
  unfold getitem, index_of. simpl.
  destruct l as [|a l]; [reflexivity|].
  destruct (Z.leb_spec (- Z.of_nat (length (a :: l))) (-1)); [|simpl in *; lia].
  simpl andb. cbv iota.
  replace (Z.to_nat (Z.of_nat (length (a :: l)) + -1)) with (length l)
    by (simpl; lia).
  rewrite last_lookup. simpl.
  destruct ((a :: l) !! length l); reflexivity.
Qed.

Lemma literal_value_in_range v literal :
  literal_in_range (length v) literal -> exists y, EA.literal_value v literal = Ok y.
Proof.
  unfold literal_in_range, EA.literal_value. intros Hr.
  destruct (Z.ltb_spec literal 0).
  - destruct (getitem_nonneg v (- literal - 1)) as (x & -> & _); [lia|].
    simpl. eauto.
  - destruct (getitem_nonneg v (literal - 1)) as (x & -> & _); [lia|]. eauto.
Qed.

Lemma literal_value_beyond v literal :
  Z.of_nat (length v) < Z.abs literal -> EA.literal_value v literal = Raise IndexError.
Proof.
  unfold EA.literal_value. intros Hr.
  destruct (Z.ltb_spec literal 0).
  - rewrite getitem_beyond by lia. reflexivity.
  - apply getitem_beyond. lia.
Qed.

Lemma is_clause_satisfied_total v clause :
  well_formed (length v) clause -> exists b, EA.is_clause_satisfied v clause = Ok b.
Proof.
  induction 1 as [|literal rest Hl _ IH]; simpl; [eauto|].
  destruct (literal_value_in_range v literal Hl) as [y ->]. simpl.
  destruct (y =? 1); eauto.
Qed.

(** A prefix of literals that read false is skipped. *)
Lemma is_clause_satisfied_skip v pre rest :
  Forall (reads_false v) pre ->
  EA.is_clause_satisfied v (pre ++ rest) = EA.is_clause_satisfied v rest.
Proof.
  induction 1 as [|literal pre (y & Hy & Hne) _ IH]; simpl; [reflexivity|].
  rewrite Hy. simpl. destruct (Z.eqb_spec y 1); [contradiction|]. exact IH.
Qed.

End Evaluator.

(** ** The unweighted score *)

Section Score.
Context {F : Type} `{PyFloat F}.

(** The clause is satisfied: the evaluator answers [True]. *)
Definition satisfied (v : list Z) (clause : list Z) : Prop :=
  EA.is_clause_satisfied v clause = Ok true.

(** The counting loop of [EA.fitness] leaves the world alone and adds, to the
    count it starts from, a number between 0 and the number of clauses that
    reaches it exactly when every clause is satisfied. *)
Lemma ea_count_clauses_spec (w : World (EA.t F)) chromosome v cs acc :
  heap w !! chromosome = Some v ->
  Forall (well_formed (length v)) cs ->
  exists k, EA.count_clauses cs chromosome acc w = (Ok (acc + k), w)
    /\ 0 <= k <= Z.of_nat (length cs)
    /\ (k = Z.of_nat (length cs) <-> Forall (satisfied v) cs).
Proof.
  intros Hv Hwf. revert acc.
  induction Hwf as [|c cs Hc _ IH]; intros acc.
  - exists 0. simpl. unfold ret. rewrite Z.add_0_r.
    repeat split; try lia; constructor.
  - destruct (is_clause_satisfied_total v c Hc) as [b Hb].
    destruct (IH (acc + Z.b2z b)) as (k & Hk & Hrange & Hiff).
    exists (Z.b2z b + k).
    cbn [EA.count_clauses]. unfold bind at 1, deref. rewrite Hv.
    unfold bind at 1, lift. rewrite Hb, Hk.
    split; [f_equal; f_equal; lia|].
    rewrite length_cons, Forall_cons. unfold satisfied at 1. rewrite Hb.
    destruct b; simpl Z.b2z; split; try lia.
    + split; [intros; split; [reflexivity|apply Hiff; lia] | intros [_ Hall]; apply Hiff in Hall; lia].
    + split; [lia | intros [Hf _]; discriminate].
Qed.

Lemma pso_count_clauses_spec v (cs : list PSO.wclause) acc :
  Forall (well_formed (length v)) (map fst cs) ->
  exists k, PSO.count_clauses cs v acc = Ok (acc + k)
    /\ 0 <= k <= Z.of_nat (length cs)
    /\ (k = Z.of_nat (length cs) <-> Forall (satisfied v) (map fst cs)).
Proof.
  revert acc. induction cs as [|[c wt] cs IH]; intros acc Hwf.
  - exists 0. simpl. rewrite Z.add_0_r. repeat split; try lia; constructor.
  - simpl in Hwf. apply Forall_cons in Hwf as [Hc Hwf].
    destruct (is_clause_satisfied_total v c Hc) as [b Hb].
    destruct (IH (acc + Z.b2z b) Hwf) as (k & Hk & Hrange & Hiff).
    exists (Z.b2z b + k).
    cbn [PSO.count_clauses]. rewrite pso_is_clause_satisfied_eq, Hb. simpl rbind.
    rewrite Hk. split; [f_equal; lia|].
    rewrite length_cons. cbn [map fst]. rewrite Forall_cons.
    unfold satisfied at 1. rewrite Hb.
    destruct b; simpl Z.b2z; split; try lia.
    + split; [intros; split; [reflexivity|apply Hiff; lia] | intros [_ Hall]; apply Hiff in Hall; lia].
    + split; [lia | intros [Hf _]; discriminate].
Qed.

(** C9.  For an assignment over [literalCount] variables and well-formed
    clauses, [EA.fitness] and [PSO.num_satisfied_clauses] return a score
    between 0 and the number of clauses, and the score is the number of
    clauses exactly when every clause is satisfied by the assignment. *)
Theorem score_bounds
    (we : World (EA.t F)) (wp : World (PSO.t F)) (r : loc) (v : list Z) :
  heap we !! r = Some v ->
  heap wp !! r = Some v ->
  Forall (well_formed (length v)) (EA.clauses (self we)) ->
  Forall (well_formed (length v)) (map fst (PSO.clauses (self wp))) ->
  (exists f, fst (EA.fitness r we) = Ok f
     /\ 0 <= f <= Z.of_nat (length (EA.clauses (self we)))
     /\ (f = Z.of_nat (length (EA.clauses (self we)))
         <-> Forall (satisfied v) (EA.clauses (self we))))
  /\
  (exists f, fst (PSO.num_satisfied_clauses r wp) = Ok f
     /\ 0 <= f <= Z.of_nat (length (PSO.clauses (self wp)))
     /\ (f = Z.of_nat (length (PSO.clauses (self wp)))
         <-> Forall (satisfied v) (map fst (PSO.clauses (self wp))))).
Proof.
  intros Hve Hvp Hwe Hwp. split.
  - destruct (ea_count_clauses_spec we r v _ 0 Hve Hwe) as (k & Hk & Hrange & Hiff).
    exists k. split; [|split; assumption].
    unfold EA.fitness. unfold bind at 1, get_self. unfold bind at 1.
    rewrite Hk. rewrite Z.add_0_l.
    unfold EA.goal_function, bind, get_self, set_self, ret.
    destruct (k =? EA.num_clauses (self we)); reflexivity.
  - destruct (pso_count_clauses_spec v (PSO.clauses (self wp)) 0 Hwp)
      as (k & Hk & Hrange & Hiff).
    exists k. split; [|split; assumption].
    unfold PSO.num_satisfied_clauses, bind, get_self, deref, lift.
    rewrite Hvp, Hk. reflexivity.
Qed.

End Score.

(** The score of [[0; 1]] on the clauses [[1; -2]; [2]; [-1]]: all three
    clauses are satisfied. *)
Lemma score_bounds_witness :
  let we : World (EA.t Q) :=
    mkWorld [[0; 1]] (fun _ => 0%N) 0 (EA.init [[1; -2]; [2]; [-1]] 2) in
  let wp : World (PSO.t Q) :=
    mkWorld [[0; 1]] (fun _ => 0%N) 0
      (PSO.mk (PSO.w_clauses [[1; -2]; [2]; [-1]]) 2 3 1 10 1%Q 2%Q 2%Q [] O 0) in
  (exists f, fst (EA.fitness O we) = Ok f /\ 0 <= f <= 3
     /\ (f = 3 <-> Forall (satisfied [0; 1]) [[1; -2]; [2]; [-1]]))
  /\
  (exists f, fst (PSO.num_satisfied_clauses O wp) = Ok f /\ 0 <= f <= 3
     /\ (f = 3 <-> Forall (satisfied [0; 1]) [[1; -2]; [2]; [-1]])).
Proof.
  intros we wp.
  apply (score_bounds we wp O [0; 1]); try reflexivity;
    repeat constructor; unfold literal_in_range; simpl; lia.
Defined.

(** ** Literals outside the assignment *)

(** The literal 0 of the clause [[0]] is read as the index [-1], the last
    variable, and the clause counts as satisfied; the literal 5 of [[1; 5]]
    is never looked at.  Both engines return a score and raise nothing. *)
Lemma out_of_range_literal_scored :
  let we : World (EA.t Q) :=
    mkWorld [[1]] (fun _ => 0%N) 0 (EA.init [[0]; [1; 5]] 1) in
  let wp : World (PSO.t Q) :=
    mkWorld [[1]] (fun _ => 0%N) 0
      (PSO.mk (PSO.w_clauses [[0]; [1; 5]]) 1 2 1 10 1%Q 2%Q 2%Q [] O 0) in
  ~ literal_in_range 1 0 /\ ~ literal_in_range 1 5
  /\ EA.is_clause_satisfied [1] [0] = Ok true
  /\ PSO.is_clause_satisfied [1] [1; 5] = Ok true
  /\ fst (EA.fitness O we) = Ok 2
  /\ fst (PSO.fitness O wp) = Ok 2.
Proof.
  intros we wp. unfold literal_in_range.
  repeat split; try reflexivity; simpl; lia.
Qed.

(** C3 (amended).  No literal is validated.  After literals that are read
    without error and are not true: a literal whose magnitude exceeds the
    length of the assignment raises [IndexError] when the scan reaches it;
    the literal 0 reads the last variable of the assignment ([IndexError]
    only if the assignment is empty); and once a literal reads true the
    clause is satisfied whatever literals follow. *)
Theorem literal_lookup_unchecked (v pre post : list Z) :
  Forall (reads_false v) pre ->
  (forall literal, Z.of_nat (length v) < Z.abs literal ->
     EA.is_clause_satisfied v (pre ++ literal :: post) = Raise IndexError
     /\ PSO.is_clause_satisfied v (pre ++ literal :: post) = Raise IndexError)
  /\ EA.is_clause_satisfied v (pre ++ 0 :: post) =
       match last v with
       | Some x => if x =? 1 then Ok true else EA.is_clause_satisfied v post
       | None => Raise IndexError
       end
  /\ (forall literal, EA.literal_value v literal = Ok 1 ->
        EA.is_clause_satisfied v (pre ++ literal :: post) = Ok true
        /\ PSO.is_clause_satisfied v (pre ++ literal :: post) = Ok true).
Proof.
  intros Hpre. repeat split.
  - rewrite is_clause_satisfied_skip by assumption. simpl.
    rewrite literal_value_beyond by assumption. reflexivity.
  - rewrite pso_is_clause_satisfied_eq, is_clause_satisfied_skip by assumption.
    simpl. rewrite literal_value_beyond by assumption. reflexivity.
  - rewrite is_clause_satisfied_skip by assumption. simpl.
    unfold EA.literal_value. simpl. rewrite getitem_minus_one.
    destruct (last v); reflexivity.
  - rewrite is_clause_satisfied_skip by assumption. simpl.
    rewrite H. reflexivity.
  - rewrite pso_is_clause_satisfied_eq, is_clause_satisfied_skip by assumption.
    simpl. rewrite H. reflexivity.
Qed.

(** On the assignment [[0; 1]], after the false literal 1: the literal 7
    raises, the literal 0 reads the last variable, the literal 2 satisfies
    the clause before 7 is reached. *)
Lemma literal_lookup_unchecked_witness :
  EA.is_clause_satisfied [0; 1] [1; 7; 2] = Raise IndexError
  /\ EA.is_clause_satisfied [0; 1] [1; 0; 7] = Ok true
  /\ EA.is_clause_satisfied [0; 1] [1; 2; 7] = Ok true.
Proof.
  assert (Hpre : Forall (reads_false [0; 1]) [1]).
  { repeat constructor. exists 0. split; [reflexivity | lia]. }
  destruct (literal_lookup_unchecked [0; 1] [1] [2] Hpre) as (Hbig & _ & _).
  destruct (literal_lookup_unchecked [0; 1] [1] [7] Hpre) as (_ & Hzero & Hsat).
  split; [apply (Hbig 7); simpl; lia|].
  split; [exact Hzero|].
  apply (Hsat 2). reflexivity.
Defined.

(** ** The particle swarm engine *)

Section Swarm.
Context {F : Type} `{PyFloat F}.

(** [PSO.fitness] reads the store and the clause list and changes nothing. *)
Lemma pso_fitness_eq (w : World (PSO.t F)) r v :
  heap w !! r = Some v ->
  PSO.fitness r w = (PSO.weighted_sum (PSO.clauses (self w)) v 0, w).
Proof.
  intros Hv. unfold PSO.fitness, bind, get_self, deref, lift. rewrite Hv.
  destruct (PSO.weighted_sum _ _ _); reflexivity.
Qed.

Lemma pso_fitness_world (w : World (PSO.t F)) r : snd (PSO.fitness r w) = w.
Proof.
  unfold PSO.fitness, bind, get_self, deref, lift.
  destruct (heap w !! r); [|reflexivity].
  destruct (PSO.weighted_sum _ _ _); reflexivity.
Qed.

(** C10.  When the particle's fitness field exceeds the fitness of its stored
    personal best, [update_personal_best] overwrites the field with that
    strictly smaller value and rebinds the personal best to the current
    position; otherwise it changes nothing. *)
Theorem update_personal_best_effect (w : World (PSO.t F)) (k : nat)
    (p : Particle.t F) (p_best_fit : Z) :
  PSO.swarm (self w) !! k = Some p ->
  fst (PSO.fitness (Particle.best p) w) = Ok p_best_fit ->
  (Particle.gtb (Particle.fitness p) p_best_fit = true ->
     (exists old, Particle.fitness p = Particle.Int old /\ p_best_fit < old)
     /\ PSO.update_personal_best k w =
          (Ok tt,
           mkWorld (heap w) (tape w) (cursor w)
             (PSO.set_swarm
                (<[k := Particle.mk (Particle.num_literals p) (Particle.position p)
                          (Particle.position p) (Particle.velocity p)
                          (Particle.Int p_best_fit)]> (PSO.swarm (self w)))
                (self w))))
  /\
  (Particle.gtb (Particle.fitness p) p_best_fit = false ->
     PSO.update_personal_best k w = (Ok tt, w)).
Proof.
  intros Hp Hfit.
  assert (Hrun : PSO.fitness (Particle.best p) w = (Ok p_best_fit, w)).
  { rewrite (surjective_pairing (PSO.fitness _ w)), Hfit, pso_fitness_world.
    reflexivity. }
  assert (Hk : (k < length (PSO.swarm (self w)))%nat)
    by (eapply lookup_lt_Some; eassumption).
  split; intros Hgt.
  - split.
    + destruct (Particle.fitness p) as [|old]; [discriminate|].
      exists old. split; [reflexivity|]. simpl in Hgt. lia.
    + unfold PSO.update_personal_best.
      unfold bind at 1. unfold PSO.particle at 1, bind at 1, get_self at 1.
      rewrite Hp. unfold ret at 1.
      unfold bind at 1. rewrite Hrun, Hgt.
      unfold PSO.set_particle, PSO.particle. msimpl.
      cbn [PSO.swarm PSO.set_swarm].
      rewrite list_lookup_insert_eq by assumption. msimpl.
      cbn [PSO.swarm PSO.set_swarm].
      rewrite list_insert_insert_eq. reflexivity.
  - unfold PSO.update_personal_best.
    unfold bind at 1. unfold PSO.particle at 1, bind at 1, get_self at 1.
    rewrite Hp. unfold ret at 1.
    unfold bind at 1. rewrite Hrun, Hgt. reflexivity.
Qed.

End Swarm.

(** A particle at [[1]] whose fitness field is 1 and whose personal best
    [[0]] scores 0 on the clause [[1]]: the update fires, the field becomes
    0. *)
Lemma update_personal_best_effect_witness :
  let p := Particle.mk 1 O 1%nat [0%Q] (Particle.Int 1) in
  let w : World (PSO.t Q) :=
    mkWorld [[1]; [0]] (fun _ => 0%N) 0
      (PSO.mk (PSO.w_clauses [[1]]) 1 1 1 10 1%Q 2%Q 2%Q [p] O 0) in
  (exists old, Particle.Int 1 = Particle.Int old /\ 0 < old)
  /\ fst (PSO.update_personal_best O w) = Ok tt
  /\ PSO.swarm (self (snd (PSO.update_personal_best O w)))
     = [Particle.mk 1 O O [0%Q] (Particle.Int 0)].
Proof.
  intros p w.
  destruct (update_personal_best_effect w O p 0 eq_refl eq_refl) as [Hfire _].
  destruct (Hfire eq_refl) as [Hold Hrun].
  split; [exact Hold|]. rewrite Hrun. split; reflexivity.
Defined.

(** ** Parts of the world a computation leaves alone *)

Section Frame.
Context {T X : Type} (proj : World T -> X).

(** [m] never changes the part [proj] of the world, whatever its outcome. *)
Definition keeps {A} (m : M T A) : Prop :=
  forall w, proj (snd (m w)) = proj w.

Lemma keeps_ret {A} (a : A) : keeps (ret a).
Proof. intros w. reflexivity. Qed.

Lemma keeps_lift {A} (r : res A) : keeps (lift r).
Proof. intros w. reflexivity. Qed.

Lemma keeps_raise {A} e : keeps (@raise T A e).
Proof. intros w. reflexivity. Qed.

Lemma keeps_stuck {A} : keeps (@stuck T A).
Proof. intros w. reflexivity. Qed.

Lemma keeps_get_self : keeps get_self.
Proof. intros w. reflexivity. Qed.

Lemma keeps_bind {A B} (m : M T A) (k : A -> M T B) :
  keeps m -> (forall a, keeps (k a)) -> keeps (bind m k).
Proof.
  intros Hm Hk w. unfold bind. specialize (Hm w).
  destruct (m w) as [[a|e|] w1]; simpl in *; [|assumption..].
  rewrite Hk. assumption.
Qed.

Lemma keeps_for_each {A} (xs : list A) (body : A -> M T unit) :
  (forall x, keeps (body x)) -> keeps (for_each xs body).
Proof.
  intros Hbody. induction xs as [|x xs IH]; simpl.
  - apply keeps_ret.
  - apply keeps_bind; [apply Hbody | intros _; exact IH].
Qed.

Lemma keeps_comprehension {A B} (xs : list A) (f : A -> M T B) :
  (forall x, keeps (f x)) -> keeps (comprehension xs f).
Proof.
  intros Hf. induction xs as [|x xs IH]; simpl.
  - apply keeps_ret.
  - apply keeps_bind; [apply Hf|]. intros y.
    apply keeps_bind; [exact IH|]. intros ys. apply keeps_ret.
Qed.

(** The part depends on the object [self] only. *)
Hypothesis proj_self : forall w w' : World T, self w = self w' -> proj w = proj w'.

Lemma keeps_deref r : keeps (deref r).
Proof. intros w. unfold deref. destruct (heap w !! r); reflexivity. Qed.

Lemma keeps_store r l : keeps (store r l).
Proof. intros w. apply proj_self. reflexivity. Qed.

Lemma keeps_alloc l : keeps (alloc l).
Proof. intros w. apply proj_self. reflexivity. Qed.

Lemma keeps_next_raw : keeps next_raw.
Proof. intros w. apply proj_self. reflexivity. Qed.

Lemma keeps_load_item r i : keeps (load_item r i).
Proof.
  unfold load_item. apply keeps_bind; [apply keeps_deref|].
  intros l. apply keeps_lift.
Qed.

Lemma keeps_store_item r i x : keeps (store_item r i x).
Proof.
  unfold store_item. apply keeps_bind; [apply keeps_deref|]. intros l.
  apply keeps_bind; [apply keeps_lift|]. intros l'. apply keeps_store.
Qed.

Lemma keeps_len r : keeps (len r).
Proof.
  unfold len. apply keeps_bind; [apply keeps_deref|]. intros l. apply keeps_ret.
Qed.

Lemma keeps_random `{PyFloat F} : keeps (random (F := F)).
Proof.
  unfold random. apply keeps_bind; [apply keeps_next_raw|]. intros k.
  apply keeps_ret.
Qed.

Lemma keeps_randint a b : keeps (randint a b).
Proof.
  unfold randint. destruct (b <? a); [apply keeps_raise|].
  apply keeps_bind; [apply keeps_next_raw|]. intros k. apply keeps_ret.
Qed.

(** Writing back an object with the same part. *)
Lemma keeps_update_self (f : T -> T) :
  (forall w, proj (mkWorld (heap w) (tape w) (cursor w) (f (self w))) = proj w) ->
  keeps (bind get_self (fun s => set_self (f s))).
Proof. intros Hf w. exact (Hf w). Qed.

End Frame.

Lemma keeps_with_self {T X A} (proj : World T -> X) (k : T -> M T A) :
  (forall w, proj (snd (k (self w) w)) = proj w) -> keeps proj (bind get_self k).
Proof. intros Hk w. exact (Hk w). Qed.

(** Decomposes a goal [keeps proj m] along the structure of [m]. *)
Ltac frame_step :=
  first
    [ apply keeps_ret | apply keeps_lift | apply keeps_raise | apply keeps_stuck
    | apply keeps_get_self
    | apply keeps_deref | apply keeps_store | apply keeps_alloc
    | apply keeps_load_item | apply keeps_store_item | apply keeps_len
    | apply keeps_random | apply keeps_randint | apply keeps_next_raw
    | apply keeps_bind | apply keeps_for_each | apply keeps_comprehension
    | match goal with
      | |- keeps _ (if ?c then _ else _) => destruct c
      | |- keeps _ (match ?x with _ => _ end) => destruct x
      | |- forall _, _ => intro
      end ].

Ltac frame :=
  repeat frame_step;
  try match goal with
      | Hself : self ?w = self ?w' |- ?f ?w = ?f ?w' =>
          unfold f; rewrite Hself; reflexivity
      end.

(** ** Clause weights *)

Section Weights.
Context {F : Type} `{PyFloat F}.

Definition clauses_of (w : World (PSO.t F)) : list PSO.wclause :=
  PSO.clauses (self w).

Lemma keeps_particle_init n : keeps clauses_of (Particle.init (F := F) n).
Proof.
  unfold Particle.init. frame.
Qed.

Lemma keeps_update_velocity (p : Particle.t F) g w c1 c2 :
  keeps clauses_of (Particle.update_velocity p g w c1 c2).
Proof. unfold Particle.update_velocity, Particle.velocity_component. frame. Qed.

Lemma keeps_particle k : keeps clauses_of (PSO.particle (F := F) k).
Proof. unfold PSO.particle. frame. Qed.

Lemma keeps_set_particle k (p : Particle.t F) : keeps clauses_of (PSO.set_particle k p).
Proof. unfold PSO.set_particle. apply keeps_with_self. reflexivity. Qed.

Lemma keeps_fitness r : keeps clauses_of (PSO.fitness (F := F) r).
Proof. unfold PSO.fitness. frame. Qed.

Lemma keeps_set_global_best f g :
  keeps clauses_of
    (let* s := get_self in
     set_self (PSO.set_global_best_fitness (F := F) f s) ;;
     let* s := get_self in
     set_self (PSO.set_global_best g s)).
Proof. intros w. reflexivity. Qed.

Lemma keeps_calc_fitness_and_global_best :
  keeps clauses_of (PSO.calc_fitness_and_global_best (F := F)).
Proof.
  unfold PSO.calc_fitness_and_global_best.
  apply keeps_bind; [apply keeps_get_self|]. intros s.
  apply keeps_for_each. intros k.
  apply keeps_bind; [apply keeps_particle|]. intros p.
  apply keeps_bind; [apply keeps_fitness|]. intros f.
  apply keeps_bind; [apply keeps_set_particle|]. intros _.
  apply keeps_with_self. intros w.
  destruct (PSO.global_best_fitness (self w) <? f); reflexivity.
Qed.

Lemma keeps_update_velocities k : keeps clauses_of (PSO.update_velocities (F := F) k).
Proof.
  unfold PSO.update_velocities.
  apply keeps_bind; [apply keeps_particle|]. intros p.
  apply keeps_bind; [apply keeps_get_self|]. intros s.
  apply keeps_bind; [apply keeps_update_velocity|]. intros p'.
  apply keeps_set_particle.
Qed.

Lemma keeps_update_personal_best k :
  keeps clauses_of (PSO.update_personal_best (F := F) k).
Proof.
  unfold PSO.update_personal_best.
  apply keeps_bind; [apply keeps_particle|]. intros p.
  apply keeps_bind; [apply keeps_fitness|]. intros f.
  destruct (Particle.gtb _ _); [|apply keeps_ret].
  apply keeps_bind; [apply keeps_set_particle|]. intros _.
  apply keeps_bind; [apply keeps_particle|]. intros p'.
  apply keeps_set_particle.
Qed.

Lemma keeps_update_global_best k :
  keeps clauses_of (PSO.update_global_best (F := F) k).
Proof.
  unfold PSO.update_global_best.
  apply keeps_bind; [apply keeps_particle|]. intros p.
  apply keeps_bind; [apply keeps_fitness|]. intros f.
  apply keeps_with_self. intros w.
  destruct (PSO.global_best_fitness (self w) <? f); reflexivity.
Qed.

Lemma keeps_flip_step r i imp nbr : keeps clauses_of (PSO.flip_step (F := F) r i imp nbr).
Proof.
  unfold PSO.flip_step.
  apply keeps_bind; [apply keeps_fitness|]. intros fb.
  apply keeps_bind; [frame|]. intros _.
  apply keeps_bind; [apply keeps_fitness|]. intros fa.
  frame.
Qed.

Lemma keeps_sweep indices r imp nbr :
  keeps clauses_of (PSO.sweep (F := F) indices r imp nbr).
Proof.
  revert imp nbr. induction indices as [|i rest IH]; intros imp nbr; simpl.
  - apply keeps_ret.
  - apply keeps_bind; [apply keeps_flip_step|]. intros [imp' nbr']. apply IH.
Qed.

Lemma keeps_local_search_loop fuel r max_flip imp nbr :
  keeps clauses_of (PSO.local_search_loop (F := F) fuel r max_flip imp nbr).
Proof.
  revert imp nbr. induction fuel as [|fuel IH]; intros imp nbr; simpl.
  - destruct (_ && _); [apply keeps_stuck | apply keeps_ret].
  - destruct (_ && _); [|apply keeps_ret].
    apply keeps_bind; [apply keeps_get_self|]. intros s.
    apply keeps_bind; [apply keeps_sweep|]. intros [imp' nbr']. apply IH.
Qed.

Lemma keeps_local_search k max_flip :
  keeps clauses_of (PSO.local_search (F := F) k max_flip).
Proof.
  unfold PSO.local_search.
  apply keeps_bind; [apply keeps_particle|]. intros p.
  apply keeps_local_search_loop.
Qed.

Lemma keeps_num_satisfied_clauses r :
  keeps clauses_of (PSO.num_satisfied_clauses (F := F) r).
Proof. unfold PSO.num_satisfied_clauses. frame. Qed.

End Weights.

Section WeightUpdate.
Context {F : Type} `{PyFloat F}.

(** One clause before and after: the literals stay, the weight stays or
    grows by one. *)
Definition weight_step (old new : PSO.wclause) : Prop :=
  fst new = fst old /\ snd old <= snd new <= snd old + 1.

(** One clause before and after an update against the valuation [v]: the
    weight grows by one exactly when [v] does not satisfy the clause. *)
Definition weight_updated (v : list Z) (old new : PSO.wclause) : Prop :=
  exists b, PSO.is_clause_satisfied v (fst old) = Ok b
    /\ new = (fst old, snd old + 1 - Z.b2z b).

Lemma weight_step_refl cs : Forall2 weight_step cs cs.
Proof.
  induction cs as [|c cs IH]; constructor; [|exact IH].
  split; [reflexivity | lia].
Qed.

Lemma weight_updated_step v old new : weight_updated v old new -> weight_step old new.
Proof.
  intros (b & _ & ->). split; [reflexivity|]. destruct b; simpl; lia.
Qed.

(** The body of the loop of [update_clauses_weight]. *)
Definition reweigh (k : nat) : M (PSO.t F) unit :=
  let* s := get_self in
  match PSO.clauses s !! k with
  | Some (clause, wt) =>
      let* valuation_list := deref (PSO.global_best s) in
      let* b := lift (PSO.is_clause_satisfied valuation_list clause) in
      set_self (PSO.set_clauses (<[k := (clause, wt + 1 - Z.b2z b)]> (PSO.clauses s)) s)
  | None => stuck
  end.

Lemma world_set_clauses_id (w : World (PSO.t F)) :
  w = mkWorld (heap w) (tape w) (cursor w) (PSO.set_clauses (PSO.clauses (self w)) (self w)).
Proof. destruct w as [h t c []]. reflexivity. Qed.

(** One pass of the loop body on the clause at position [length done]. *)
Lemma reweigh_step (w : World (PSO.t F)) done clause wt rest :
  PSO.clauses (self w) = done ++ (clause, wt) :: rest ->
  (exists r, reweigh (length done) w = (r, w) /\ r <> Ok tt)
  \/ (exists vl b,
        heap w !! PSO.global_best (self w) = Some vl
        /\ PSO.is_clause_satisfied vl clause = Ok b
        /\ reweigh (length done) w =
             (Ok tt, mkWorld (heap w) (tape w) (cursor w)
                       (PSO.set_clauses (done ++ (clause, wt + 1 - Z.b2z b) :: rest)
                          (self w)))).
Proof.
  intros Hcs. unfold reweigh, deref. msimpl.
  rewrite Hcs, list_lookup_middle by reflexivity.
  destruct (heap w !! PSO.global_best (self w)) as [vl|] eqn:Hvl;
    [|left; eexists; split; [reflexivity | discriminate]].
  destruct (PSO.is_clause_satisfied vl clause) as [b| |] eqn:Hb;
    [|left; eexists; split; [reflexivity | discriminate]..].
  right. exists vl, b. split; [reflexivity|]. split; [exact Hb|].
  do 3 f_equal.
  replace (length done) with (length done + 0)%nat by lia.
  rewrite insert_app_r. reflexivity.
Qed.

(** The loop over the clauses not yet visited: only the clause list of the
    object changes, every clause takes a [weight_step], and on normal
    completion every clause was updated against the global best. *)
Lemma reweigh_loop (todo done : list PSO.wclause) (w : World (PSO.t F)) :
  PSO.clauses (self w) = done ++ todo ->
  exists todo',
    snd (for_each (seq (length done) (length todo)) reweigh w)
      = mkWorld (heap w) (tape w) (cursor w) (PSO.set_clauses (done ++ todo') (self w))
    /\ Forall2 weight_step todo todo'
    /\ (fst (for_each (seq (length done) (length todo)) reweigh w) = Ok tt ->
        forall v, heap w !! PSO.global_best (self w) = Some v ->
                  Forall2 (weight_updated v) todo todo').
Proof.
  revert done w. induction todo as [|[clause wt] rest IH]; intros done w Hcs.
  - exists []. cbn [length seq for_each]. rewrite <- Hcs.
    split; [apply world_set_clauses_id|]. split; [constructor|].
    intros _ v _. constructor.
  - cbn [length seq for_each]. unfold bind.
    destruct (reweigh_step w done clause wt rest Hcs)
      as [(r & Hrun & Hr) | (vl & b & Hvl & Hb & Hrun)]; rewrite Hrun.
    + exists ((clause, wt) :: rest). split; [|split].
      * destruct r as [[]| |]; try contradiction; cbn [snd];
          rewrite (world_set_clauses_id w) at 1; rewrite Hcs; reflexivity.
      * apply weight_step_refl.
      * destruct r as [[]| |]; try contradiction; discriminate.
    + set (w1 := mkWorld (heap w) (tape w) (cursor w) _).
      destruct (IH (done ++ [(clause, wt + 1 - Z.b2z b)]) w1) as (todo' & Hw & Hstep & Hok).
      { subst w1. cbn [self PSO.clauses PSO.set_clauses]. rewrite <- app_assoc. reflexivity. }
      rewrite length_app in Hw, Hok. cbn [length] in Hw, Hok.
      replace (length done + 1)%nat with (S (length done)) in Hw, Hok by lia.
      exists ((clause, wt + 1 - Z.b2z b) :: todo').
      split; [|split].
      * rewrite Hw. subst w1. cbn [heap tape cursor self PSO.set_clauses].
        rewrite <- app_assoc. reflexivity.
      * constructor; [|exact Hstep].
        apply (weight_updated_step vl). exists b. split; [exact Hb|reflexivity].
      * intros Hfin v Hv. rewrite Hv in Hvl. injection Hvl as ->.
        constructor; [exists b; split; [exact Hb|reflexivity]|].
        apply Hok; [exact Hfin|]. subst w1. exact Hv.
Qed.

Lemma update_clauses_weight_spec (w : World (PSO.t F)) :
  exists cs',
    snd (PSO.update_clauses_weight w)
      = mkWorld (heap w) (tape w) (cursor w) (PSO.set_clauses cs' (self w))
    /\ Forall2 weight_step (PSO.clauses (self w)) cs'
    /\ (fst (PSO.update_clauses_weight w) = Ok tt ->
        forall v, heap w !! PSO.global_best (self w) = Some v ->
                  Forall2 (weight_updated v) (PSO.clauses (self w)) cs').
Proof.
  destruct (reweigh_loop (PSO.clauses (self w)) [] w eq_refl) as (cs' & Hw & Hstep & Hok).
  exists cs'. exact (conj Hw (conj Hstep Hok)).
Qed.

End WeightUpdate.

Section WeightInvariant.
Context {F : Type} `{PyFloat F}.

(** The literals stay and the weight does not shrink. *)
Definition weight_le (old new : PSO.wclause) : Prop :=
  fst new = fst old /\ snd old <= snd new.

Definition weights_at_least_one (cs : list PSO.wclause) : Prop :=
  Forall (fun cw => 1 <= snd cw) cs.

Lemma weight_step_le cs cs' : Forall2 weight_step cs cs' -> Forall2 weight_le cs cs'.
Proof.
  induction 1 as [|old new cs cs' [Hc Hw] _ IH]; constructor; [|exact IH].
  split; [exact Hc | lia].
Qed.

Lemma weight_le_refl cs : Forall2 weight_le cs cs.
Proof. apply weight_step_le, weight_step_refl. Qed.

Lemma weight_le_trans cs1 cs2 cs3 :
  Forall2 weight_le cs1 cs2 -> Forall2 weight_le cs2 cs3 -> Forall2 weight_le cs1 cs3.
Proof.
  intros H12. revert cs3.
  induction H12 as [|a b cs1 cs2 [Hc Hw] _ IH]; intros cs3 H23;
    inversion H23 as [|b' c cs2' cs3' [Hc' Hw'] Hrest]; subst; constructor.
  - split; [congruence | lia].
  - apply IH. exact Hrest.
Qed.

Lemma weight_le_at_least_one cs cs' :
  Forall2 weight_le cs cs' -> weights_at_least_one cs -> weights_at_least_one cs'.
Proof.
  unfold weights_at_least_one.
  induction 1 as [|old new cs cs' [Hc Hw] _ IH]; intros Hall; constructor.
  - apply Forall_cons in Hall as [Hold _]. lia.
  - apply IH. apply Forall_cons in Hall as [_ Hall]. exact Hall.
Qed.

(** The weights [w_clauses_from_file] starts from. *)
Lemma w_clauses_weights lines : Forall (fun cw => snd cw = 1) (PSO.w_clauses lines).
Proof.
  unfold PSO.w_clauses. induction lines; simpl; constructor; [reflexivity | assumption].
Qed.

Lemma num_satisfied_clauses_world (w : World (PSO.t F)) r :
  snd (PSO.num_satisfied_clauses r w) = w.
Proof.
  unfold PSO.num_satisfied_clauses, deref. msimpl.
  destruct (heap w !! r); [|reflexivity].
  destruct (PSO.count_clauses _ _ _); reflexivity.
Qed.

(** What [iteration] runs before the weights are updated. *)
Definition before_weights (max_flip : Z) : M (PSO.t F) unit :=
  PSO.calc_fitness_and_global_best ;;
  let* s := get_self in
  for_each (seq 0 (length (PSO.swarm s))) (fun k =>
    PSO.update_velocities k ;;
    PSO.local_search k max_flip ;;
    PSO.update_personal_best k ;;
    PSO.update_global_best k).

Lemma keeps_before_weights max_flip : keeps clauses_of (before_weights max_flip).
Proof.
  unfold before_weights.
  apply keeps_bind; [apply keeps_calc_fitness_and_global_best|]. intros _.
  apply keeps_bind; [apply keeps_get_self|]. intros s.
  apply keeps_for_each. intros k.
  apply keeps_bind; [apply keeps_update_velocities|]. intros _.
  apply keeps_bind; [apply keeps_local_search|]. intros _.
  apply keeps_bind; [apply keeps_update_personal_best|]. intros _.
  apply keeps_update_global_best.
Qed.

Lemma iteration_split max_flip (w : World (PSO.t F)) :
  PSO.iteration max_flip w =
  (before_weights max_flip ;;
   PSO.update_clauses_weight ;;
   let* s := get_self in
   PSO.num_satisfied_clauses (PSO.global_best s)) w.
Proof.
  unfold PSO.iteration, before_weights. msimpl.
  destruct (PSO.calc_fitness_and_global_best w) as [[[]| |] w1]; [|reflexivity..].
  destruct (for_each _ _ w1) as [[[]| |] w2]; reflexivity.
Qed.

(** C7.  Across one iteration of the swarm loop every clause keeps its
    literals and its weight stays or grows by one, so weights that are at
    least 1 stay at least 1; when the iteration completes, the weight of a
    clause has grown by one exactly if the global best of the end of the
    iteration does not satisfy it.  The weights start at 1 and no step of
    the run lowers them. *)
Theorem clause_weights_monotone (w : World (PSO.t F)) (max_flip : Z) :
  weights_at_least_one (PSO.clauses (self w)) ->
  let w' := snd (PSO.iteration max_flip w) in
  Forall2 weight_step (PSO.clauses (self w)) (PSO.clauses (self w'))
  /\ weights_at_least_one (PSO.clauses (self w'))
  /\ (forall n v,
        fst (PSO.iteration max_flip w) = Ok n ->
        heap w' !! PSO.global_best (self w') = Some v ->
        Forall2 (weight_updated v) (PSO.clauses (self w)) (PSO.clauses (self w')))
  /\ (forall lines, weights_at_least_one (PSO.w_clauses lines))
  /\ (forall fuel iteration_no num_satisfied,
        let w'' := snd (PSO.run_loop fuel max_flip iteration_no num_satisfied w) in
        Forall2 weight_le (PSO.clauses (self w)) (PSO.clauses (self w''))
        /\ weights_at_least_one (PSO.clauses (self w''))).
Proof.
  assert (Hiter : forall w0 : World (PSO.t F),
    let w' := snd (PSO.iteration max_flip w0) in
    Forall2 weight_step (PSO.clauses (self w0)) (PSO.clauses (self w'))
    /\ (forall n v,
          fst (PSO.iteration max_flip w0) = Ok n ->
          heap w' !! PSO.global_best (self w') = Some v ->
          Forall2 (weight_updated v) (PSO.clauses (self w0)) (PSO.clauses (self w')))).
  { intros w0. cbv zeta. rewrite iteration_split. msimpl.
    pose proof (keeps_before_weights max_flip w0) as Hpre. unfold clauses_of in Hpre.
    destruct (before_weights max_flip w0) as [[[]| |] w1]; cbn [fst snd] in *;
      [|rewrite Hpre; split; [apply weight_step_refl | intros ? ? Hn; discriminate Hn]..].
    destruct (update_clauses_weight_spec w1) as (cs' & Hw2 & Hstep & Hok).
    destruct (PSO.update_clauses_weight w1) as [[[]| |] w2]; cbn [fst snd] in *; subst w2;
      [|cbn [self PSO.clauses PSO.set_clauses]; rewrite <- Hpre;
        split; [exact Hstep | intros ? ? Hn; discriminate Hn]..].
    cbn [self PSO.global_best PSO.set_clauses].
    set (w2 := mkWorld _ _ _ _).
    pose proof (num_satisfied_clauses_world w2 (PSO.global_best (self w1))) as Hw3.
    destruct (PSO.num_satisfied_clauses _ w2) as [r3 w3]. cbn [fst snd] in *. subst w3.
    subst w2. cbn [self heap PSO.clauses PSO.set_clauses PSO.global_best].
    rewrite <- Hpre. split; [exact Hstep|].
    intros n v _ Hv. apply Hok; [reflexivity | exact Hv]. }
  intros Hone w'. destruct (Hiter w) as [Hstep Hexact]. fold w' in Hstep, Hexact.
  split; [exact Hstep|]. split.
  { eapply weight_le_at_least_one; [apply weight_step_le; exact Hstep | exact Hone]. }
  split; [exact Hexact|]. split.
  { intros lines. unfold weights_at_least_one.
    eapply Forall_impl; [apply w_clauses_weights|]. simpl. intros cw ->. lia. }
  intros fuel iteration_no num_satisfied w''.
  assert (Hle : Forall2 weight_le (PSO.clauses (self w)) (PSO.clauses (self w''))).
  { subst w''. clear w' Hstep Hexact Hone.
    revert w iteration_no num_satisfied.
    induction fuel as [|fuel IH]; intros w iteration_no num_satisfied;
      cbn [PSO.run_loop]; unfold bind at 1, get_self;
      destruct (_ || _); try apply weight_le_refl.
    unfold bind. destruct (Hiter w) as [Hstep _].
    destruct (PSO.iteration max_flip w) as [[n| |] w1]; cbn [fst snd] in *;
      try (apply weight_step_le; exact Hstep).
    eapply weight_le_trans; [apply weight_step_le; exact Hstep | apply IH]. }
  split; [exact Hle|]. eapply weight_le_at_least_one; eassumption.
Qed.

End WeightInvariant.

(** ** Example worlds *)

(** A pseudorandom stream for the examples. *)
Definition example_tape (n : N) : N :=
  (((n + 1) * 11400714819323198485) mod 18446744073709551616 / 2048)%N.

(** An object before [PSO.__init__] has run. *)
Definition pso_blank : PSO.t Q := PSO.mk [] 0 0 0 0 0%Q 0%Q 0%Q [] O 0.

(** The swarm of one particle that [PSO.__init__] builds for the formula
    [[1], [-1]] over one variable. *)
Definition pso_contradiction : World (PSO.t Q) :=
  snd (PSO.init (PSO.w_clauses [[1]; [-1]], 1, 2) 1 10 1%Q (17 # 10) (21 # 10)
         (mkWorld [] example_tape 2 pso_blank)).

(** One iteration on the contradiction: the weights go from 1, 1 to 1, 2. *)
Lemma clause_weights_monotone_witness :
  let w' := snd (PSO.iteration 5 pso_contradiction) in
  PSO.clauses (self pso_contradiction) = [([1], 1); ([-1], 1)]
  /\ PSO.clauses (self w') = [([1], 1); ([-1], 2)]
  /\ Forall2 weight_step (PSO.clauses (self pso_contradiction)) (PSO.clauses (self w'))
  /\ weights_at_least_one (PSO.clauses (self w')).
Proof.
  assert (Hone : weights_at_least_one (PSO.clauses (self pso_contradiction))).
  { vm_compute. repeat constructor; discriminate. }
  destruct (clause_weights_monotone pso_contradiction 5 Hone) as (Hstep & Hone' & _).
  split; [reflexivity|]. split; [reflexivity|]. split; assumption.
Defined.

(** ** Greedy local search *)

Section StoreAccess.
Context {T : Type}.

Lemma deref_eq (w : World T) r v : heap w !! r = Some v -> deref r w = (Ok v, w).
Proof. intros Hv. unfold deref. rewrite Hv. reflexivity. Qed.

Lemma load_item_eq (w : World T) r v i x :
  heap w !! r = Some v -> 0 <= i < Z.of_nat (length v) -> v !! Z.to_nat i = Some x ->
  load_item r i w = (Ok x, w).
Proof.
  intros Hv Hi Hx. unfold load_item, bind. rewrite (deref_eq w r v Hv).
  unfold lift, getitem. rewrite index_of_nonneg, Hx by assumption. reflexivity.
Qed.

Lemma store_item_eq (w : World T) r v i y :
  heap w !! r = Some v -> 0 <= i < Z.of_nat (length v) ->
  store_item r i y w =
    (Ok tt, mkWorld (<[r := <[Z.to_nat i := y]> v]> (heap w)) (tape w) (cursor w) (self w)).
Proof.
  intros Hv Hi. unfold store_item, bind. rewrite (deref_eq w r v Hv).
  unfold lift, setitem. rewrite index_of_nonneg by assumption. reflexivity.
Qed.

(** The world after the list behind [r] has been replaced by [v]. *)
Definition with_list (w : World T) (r : loc) (v : list Z) : World T :=
  mkWorld (<[r := v]> (heap w)) (tape w) (cursor w) (self w).

Lemma with_list_same (w : World T) r v : heap w !! r = Some v -> with_list w r v = w.
Proof.
  intros Hv. unfold with_list. rewrite list_insert_id by assumption.
  destruct w; reflexivity.
Qed.

Lemma with_list_twice (w : World T) r v v' :
  with_list (with_list w r v) r v' = with_list w r v'.
Proof. unfold with_list. simpl. rewrite list_insert_insert_eq. reflexivity. Qed.

Lemma with_list_lookup (w : World T) r v v' :
  heap w !! r = Some v -> heap (with_list w r v') !! r = Some v'.
Proof.
  intros Hv. simpl. apply list_lookup_insert_eq. eapply lookup_lt_Some. exact Hv.
Qed.

End StoreAccess.

Lemma bind_ok {T A B} (m : M T A) (k : A -> M T B) w a w1 :
  m w = (Ok a, w1) -> bind m k w = k a w1.
Proof. intros Hm. unfold bind. rewrite Hm. reflexivity. Qed.

Section LocalSearch.
Context {F : Type} `{PyFloat F}.

Lemma weighted_sum_total v (cs : list PSO.wclause) acc :
  Forall (well_formed (length v)) (map fst cs) ->
  exists f, PSO.weighted_sum cs v acc = Ok f.
Proof.
  revert acc. induction cs as [|[c wt] cs IH]; intros acc Hwf; simpl.
  - eauto.
  - simpl in Hwf. apply Forall_cons in Hwf as [Hc Hwf].
    destruct (is_clause_satisfied_total v c Hc) as [b Hb].
    rewrite pso_is_clause_satisfied_eq, Hb. simpl. apply IH. exact Hwf.
Qed.

(** Flipping the bit at [i] and flipping it back. *)
Lemma flip_twice (v : list Z) k x :
  v !! k = Some x -> <[k := 1 - (1 - x)]> (<[k := 1 - x]> v) = v.
Proof.
  intros Hx. rewrite list_insert_insert_eq.
  replace (1 - (1 - x)) with x by lia. apply list_insert_id. exact Hx.
Qed.

(** One step of the sweep: the bit is flipped or left as it was, the weighted
    fitness does not drop, and [improvement] grows by the gain. *)
Lemma flip_step_spec (w : World (PSO.t F)) r v i improvement nbrflip f :
  heap w !! r = Some v ->
  Forall (well_formed (length v)) (map fst (PSO.clauses (self w))) ->
  0 <= i < Z.of_nat (length v) ->
  PSO.weighted_sum (PSO.clauses (self w)) v 0 = Ok f ->
  exists v' f',
    PSO.flip_step r i improvement nbrflip w
      = (Ok (improvement + (f' - f), nbrflip + 1), with_list w r v')
    /\ length v' = length v
    /\ PSO.weighted_sum (PSO.clauses (self w)) v' 0 = Ok f'
    /\ f <= f'.
Proof.
  intros Hv Hwf Hi Hf.
  destruct (lookup_lt_is_Some_2 v (Z.to_nat i)) as [x Hx]; [lia|].
  set (v1 := <[Z.to_nat i := 1 - x]> v).
  assert (Hlen1 : length v1 = length v) by apply length_insert.
  destruct (weighted_sum_total v1 (PSO.clauses (self w)) 0) as [f1 Hf1];
    [rewrite Hlen1; exact Hwf|].
  set (w1 := with_list w r v1).
  assert (Hv1 : heap w1 !! r = Some v1) by (eapply with_list_lookup; exact Hv).
  assert (Hflip : (let* x := load_item r i in store_item r i (1 - x)) w
                  = (Ok tt, w1)).
  { erewrite bind_ok by (eapply load_item_eq; eassumption).
    erewrite store_item_eq by eassumption. reflexivity. }
  unfold PSO.flip_step.
  erewrite bind_ok by (rewrite (pso_fitness_eq w r v Hv), Hf; reflexivity).
  erewrite bind_ok by exact Hflip.
  erewrite bind_ok by (rewrite (pso_fitness_eq w1 r v1 Hv1); exact (f_equal (fun y => (y, w1)) Hf1)).
  destruct (Z.leb_spec 0 (f1 - f)) as [Hgain|Hgain].
  - exists v1, f1. split; [reflexivity|]. split; [exact Hlen1|].
    split; [exact Hf1 | lia].
  - exists v, f.
    assert (Hx1 : v1 !! Z.to_nat i = Some (1 - x))
      by (apply list_lookup_insert_eq; lia).
    erewrite bind_ok; cycle 1.
    { erewrite bind_ok by (eapply load_item_eq; [exact Hv1 | lia | exact Hx1]).
      erewrite store_item_eq by (first [exact Hv1 | lia]). reflexivity. }
    unfold ret. split; [|split; [reflexivity | split; [exact Hf | lia]]].
    f_equal; [do 2 f_equal; lia|].
    fold (with_list w1 r (<[Z.to_nat i := 1 - (1 - x)]> v1)).
    subst w1 v1. rewrite with_list_twice, flip_twice by exact Hx. reflexivity.
Qed.

End LocalSearch.

Section LocalSearchLoop.
Context {F : Type} `{PyFloat F}.

Lemma range_in_bounds n (L : nat) :
  n <= Z.of_nat L -> Forall (fun i => 0 <= i < Z.of_nat L) (range n).
Proof.
  intros Hn. unfold range. apply Forall_forall. intros i Hin.
  apply list_elem_of_fmap in Hin as (k & -> & Hk).
  apply elem_of_seq in Hk. lia.
Qed.

(** A whole sweep over indices of the position list. *)
Lemma sweep_spec indices (w : World (PSO.t F)) r v improvement nbrflip f :
  heap w !! r = Some v ->
  Forall (well_formed (length v)) (map fst (PSO.clauses (self w))) ->
  Forall (fun i => 0 <= i < Z.of_nat (length v)) indices ->
  PSO.weighted_sum (PSO.clauses (self w)) v 0 = Ok f ->
  exists v' f',
    PSO.sweep indices r improvement nbrflip w
      = (Ok (improvement + (f' - f), nbrflip + Z.of_nat (length indices)),
         with_list w r v')
    /\ length v' = length v
    /\ PSO.weighted_sum (PSO.clauses (self w)) v' 0 = Ok f'
    /\ f <= f'
    /\ (indices = [] -> f' = f).
Proof.
  revert w v improvement nbrflip f.
  induction indices as [|i rest IH]; intros w v improvement nbrflip f Hv Hwf Hin Hf.
  - exists v, f. simpl. unfold ret. rewrite with_list_same by exact Hv.
    split; [do 2 f_equal; f_equal; lia|]. repeat split; try assumption; lia.
  - apply Forall_cons in Hin as [Hi Hrest].
    destruct (flip_step_spec w r v i improvement nbrflip f Hv Hwf Hi Hf)
      as (v1 & f1 & Hstep & Hlen1 & Hf1 & Hle1).
    assert (Hv1 : heap (with_list w r v1) !! r = Some v1)
      by (eapply with_list_lookup; exact Hv).
    destruct (IH (with_list w r v1) v1 (improvement + (f1 - f)) (nbrflip + 1) f1 Hv1)
      as (v' & f' & Hsweep & Hlen' & Hf' & Hle' & _);
      [simpl; rewrite Hlen1; exact Hwf | rewrite Hlen1; exact Hrest | exact Hf1 |].
    exists v', f'. cbn [PSO.sweep]. erewrite bind_ok by exact Hstep.
    cbv beta iota. rewrite Hsweep, with_list_twice.
    split; [f_equal; f_equal; f_equal; rewrite ?length_cons; lia|].
    split; [congruence|]. split; [exact Hf'|]. split; [lia | discriminate].
Qed.

(** The [while] loop ends normally within the allotted passes and never
    lowers the weighted fitness. *)
Lemma local_search_loop_spec fuel (w : World (PSO.t F)) r v max_flip improvement nbrflip f :
  heap w !! r = Some v ->
  Forall (well_formed (length v)) (map fst (PSO.clauses (self w))) ->
  PSO.num_literals (self w) <= Z.of_nat (length v) ->
  PSO.weighted_sum (PSO.clauses (self w)) v 0 = Ok f ->
  improvement <= 0 \/ max_flip - nbrflip <= Z.of_nat fuel ->
  exists v' f',
    PSO.local_search_loop fuel r max_flip improvement nbrflip w
      = (Ok tt, with_list w r v')
    /\ length v' = length v
    /\ PSO.weighted_sum (PSO.clauses (self w)) v' 0 = Ok f'
    /\ f <= f'.
Proof.
  revert w v improvement nbrflip f.
  induction fuel as [|fuel IH]; intros w v improvement nbrflip f Hv Hwf Hn Hf Hfuel.
  - exists v, f. cbn [PSO.local_search_loop].
    destruct (Z.ltb_spec 0 improvement), (Z.ltb_spec nbrflip max_flip);
      cbn [andb]; try lia;
      unfold ret; rewrite with_list_same by exact Hv;
      (split; [reflexivity|]); repeat split; try assumption; lia.
  - cbn [PSO.local_search_loop].
    destruct (Z.ltb_spec 0 improvement) as [Himp|Himp],
             (Z.ltb_spec nbrflip max_flip) as [Hnbr|Hnbr]; cbn [andb];
      try (exists v, f; unfold ret; rewrite with_list_same by exact Hv;
           (split; [reflexivity|]); repeat split; try assumption; lia).
    unfold bind at 1, get_self.
    destruct (sweep_spec (range (PSO.num_literals (self w))) w r v 0 nbrflip f Hv Hwf)
      as (v1 & f1 & Hsweep & Hlen1 & Hf1 & Hle1 & Hnil);
      [apply range_in_bounds; exact Hn | exact Hf |].
    erewrite bind_ok by exact Hsweep. cbv beta iota.
    assert (Hv1 : heap (with_list w r v1) !! r = Some v1)
      by (eapply with_list_lookup; exact Hv).
    destruct (IH (with_list w r v1) v1 (0 + (f1 - f))
                (nbrflip + Z.of_nat (length (range (PSO.num_literals (self w))))) f1 Hv1)
      as (v' & f' & Hloop & Hlen' & Hf' & Hle');
      [simpl; rewrite Hlen1; exact Hwf | simpl; rewrite Hlen1; exact Hn | exact Hf1 | |].
    { destruct (range (PSO.num_literals (self w))) as [|i0 rest].
      - left. rewrite Hnil by reflexivity. lia.
      - right. rewrite length_cons. lia. }
    exists v', f'. rewrite Hloop, with_list_twice.
    split; [reflexivity|]. split; [congruence|]. split; [exact Hf' | lia].
Qed.

(** C8.  On clauses whose literals are within the particle's position list
    and with fixed weights, a full pass of [local_search] ends normally; it
    changes nothing but the contents of the position list, and the weighted
    fitness of the position after the pass is not lower than before. *)
Theorem local_search_never_worse (w : World (PSO.t F)) (k : nat) (max_flip : Z)
    (p : Particle.t F) (v : list Z) :
  PSO.swarm (self w) !! k = Some p ->
  heap w !! Particle.position p = Some v ->
  Forall (well_formed (length v)) (map fst (PSO.clauses (self w))) ->
  PSO.num_literals (self w) <= Z.of_nat (length v) ->
  exists v' f f',
    PSO.local_search k max_flip w = (Ok tt, with_list w (Particle.position p) v')
    /\ PSO.clauses (self (with_list w (Particle.position p) v')) = PSO.clauses (self w)
    /\ fst (PSO.fitness (Particle.position p) w) = Ok f
    /\ fst (PSO.fitness (Particle.position p) (with_list w (Particle.position p) v')) = Ok f'
    /\ f <= f'.
Proof.
  intros Hp Hv Hwf Hn.
  destruct (weighted_sum_total v (PSO.clauses (self w)) 0 Hwf) as [f Hf].
  destruct (local_search_loop_spec (Z.to_nat max_flip) w (Particle.position p) v
              max_flip 1 0 f Hv Hwf Hn Hf) as (v' & f' & Hloop & Hlen & Hf' & Hle);
    [right; lia|].
  exists v', f, f'.
  split.
  { unfold PSO.local_search, PSO.particle.
    unfold bind at 1. unfold bind at 1, get_self. rewrite Hp. unfold ret.
    exact Hloop. }
  split; [reflexivity|].
  split; [rewrite (pso_fitness_eq w _ v Hv), Hf; reflexivity|].
  split; [|exact Hle].
  rewrite (pso_fitness_eq _ _ v'); [exact Hf'|].
  eapply with_list_lookup. exact Hv.
Qed.

End LocalSearchLoop.

(** A particle at [[0; 0]] on the clauses [[1]; [2]; [-1; -2]]. *)
Definition pso_two_variables : World (PSO.t Q) :=
  mkWorld [[0; 0]] example_tape 0
    (PSO.mk (PSO.w_clauses [[1]; [2]; [-1; -2]]) 2 3 1 10 1%Q (17 # 10) (21 # 10)
       [Particle.mk 2 O O [0%Q; 0%Q] Particle.NegInf] O 1).

(** The pass takes [[0; 0]], of fitness 1, to a position of fitness 2. *)
Lemma local_search_never_worse_witness :
  (exists v' f f',
    PSO.local_search O 10 pso_two_variables = (Ok tt, with_list pso_two_variables O v')
    /\ PSO.clauses (self (with_list pso_two_variables O v'))
       = PSO.clauses (self pso_two_variables)
    /\ fst (PSO.fitness O pso_two_variables) = Ok f
    /\ fst (PSO.fitness O (with_list pso_two_variables O v')) = Ok f'
    /\ f <= f')
  /\ fst (PSO.fitness O pso_two_variables) = Ok 1
  /\ fst (PSO.fitness O (snd (PSO.local_search O 10 pso_two_variables))) = Ok 2.
Proof.
  split; [|split; reflexivity].
  apply (local_search_never_worse pso_two_variables O 10
           (Particle.mk 2 O O [0%Q; 0%Q] Particle.NegInf) [0; 0]).
  - reflexivity.
  - reflexivity.
  - repeat constructor; unfold literal_in_range; simpl; lia.
  - simpl. lia.
Defined.

(** ** The random coefficients of the velocity update *)

Section VelocityUpdate.
Context {F : Type} `{PyFloat F} {T : Type}.

(** The velocity update as the specification words it: [r1] and [r2] are
    drawn anew for every dimension. *)
Definition update_velocity_resampled (p : Particle.t F) (global_best : loc)
    (w c1 c2 : F) : M T (Particle.t F) :=
  let* new_velocity :=
    comprehension (range (Particle.num_literals p)) (fun i =>
      let* r1 := random in
      let* r2 := random in
      Particle.velocity_component p global_best w c1 c2 r1 r2 i) in
  ret (Particle.set_velocity new_velocity p).

(** A component of the new velocity reads the store and changes nothing. *)
Lemma velocity_component_world (p : Particle.t F) g w0 c1 c2 r1 r2 i (w : World T) :
  snd (Particle.velocity_component p g w0 c1 c2 r1 r2 i w) = w.
Proof.
  revert w.
  change (keeps (fun w : World T => w)
            (Particle.velocity_component p g w0 c1 c2 r1 r2 i)).
  unfold Particle.velocity_component. frame.
Qed.

Lemma comprehension_components (p : Particle.t F) g w0 c1 c2 r1 r2 indices (w : World T) :
  snd (comprehension indices (Particle.velocity_component p g w0 c1 c2 r1 r2) w) = w
  /\ forall vs,
       fst (comprehension indices (Particle.velocity_component p g w0 c1 c2 r1 r2) w) = Ok vs ->
       Forall2 (fun i v' =>
                  fst (Particle.velocity_component p g w0 c1 c2 r1 r2 i w) = Ok v')
               indices vs.
Proof.
  induction indices as [|i rest [IHw IHv]]; simpl.
  - split; [reflexivity|]. intros vs [= <-]. constructor.
  - unfold bind at 1 3.
    pose proof (velocity_component_world p g w0 c1 c2 r1 r2 i w) as Hw.
    destruct (Particle.velocity_component p g w0 c1 c2 r1 r2 i w) as [[v| |] w1] eqn:Hc;
      cbn [fst snd] in *; subst w1; [|split; [reflexivity | discriminate]..].
    unfold bind.
    destruct (comprehension rest _ w) as [[vs| |] w2]; cbn [fst snd] in *; subst w2;
      unfold ret; cbn [fst snd]; (split; [reflexivity|]); try discriminate.
    intros vs' [= <-]. constructor; [rewrite Hc; reflexivity | apply IHv; reflexivity].
Qed.

(** C5 (amended).  [update_velocity] draws [r1] and [r2] once per call,
    before the loop over the dimensions: the call consumes exactly two outputs
    of the random source and changes nothing else in the world, and every
    component of the new velocity is computed with that same pair. *)
Theorem update_velocity_shares_draws (p : Particle.t F) (global_best : loc)
    (w0 c1 c2 : F) (w : World T) (p' : Particle.t F) :
  fst (Particle.update_velocity p global_best w0 c1 c2 w) = Ok p' ->
  let r1 := f_unit (tape w (cursor w)) in
  let r2 := f_unit (tape w (N.succ (cursor w))) in
  let w' := mkWorld (heap w) (tape w) (N.succ (N.succ (cursor w))) (self w) in
  snd (Particle.update_velocity p global_best w0 c1 c2 w) = w'
  /\ p' = Particle.set_velocity (Particle.velocity p') p
  /\ Forall2 (fun i v' =>
                fst (Particle.velocity_component p global_best w0 c1 c2 r1 r2 i w') = Ok v')
             (range (Particle.num_literals p)) (Particle.velocity p').
Proof.
  intros Hrun r1 r2 w'. revert Hrun.
  unfold Particle.update_velocity, random, next_raw. msimpl. fold r1 r2 w'.
  destruct (comprehension_components p global_best w0 c1 c2 r1 r2
              (range (Particle.num_literals p)) w') as [Hw Hv].
  destruct (comprehension _ _ w') as [[vs| |] w1]; cbn [fst snd] in *; subst w1;
    try discriminate.
  intros [= <-]. split; [reflexivity|]. split; [reflexivity|].
  apply Hv. reflexivity.
Qed.

End VelocityUpdate.

(** Raw outputs that [random()] turns into 1/4, 1/2, 3/4 and 1/8. *)
Definition quarters_tape (n : N) : N :=
  match n with
  | 0%N => 2251799813685248
  | 1%N => 4503599627370496
  | 2%N => 6755399441055744
  | _ => 1125899906842624
  end%N.

(** A particle at [[0; 0]] with personal best [[1; 1]] and no velocity;
    [w = c1 = c2 = 1], so that the new velocity of a dimension is its [r1]. *)
Definition pso_at_rest : World unit :=
  mkWorld [[0; 0]; [1; 1]] quarters_tape 0 tt.

Definition particle_at_rest : Particle.t Q :=
  Particle.mk 2 O 1%nat [0%Q; 0%Q] Particle.NegInf.

(** Both dimensions get the first draw, 1/4, and two outputs are consumed;
    drawing per dimension would give 1/4 and 3/4 and consume four. *)
Lemma velocity_draws_shared :
  let code := Particle.update_velocity particle_at_rest O 1%Q 1%Q 1%Q pso_at_rest in
  let spec := update_velocity_resampled particle_at_rest O 1%Q 1%Q 1%Q pso_at_rest in
  (exists p', fst code = Ok p' /\ map Qred (Particle.velocity p') = [1 # 4; 1 # 4]%Q)
  /\ cursor (snd code) = 2%N
  /\ (exists p', fst spec = Ok p' /\ map Qred (Particle.velocity p') = [1 # 4; 3 # 4]%Q)
  /\ cursor (snd spec) = 4%N
  /\ code <> spec.
Proof.
  cbv zeta. split; [eexists; split; reflexivity|]. split; [reflexivity|].
  split; [eexists; split; reflexivity|]. split; [reflexivity|].
  intros Heq. apply (f_equal (fun x => cursor (snd x))) in Heq.
  vm_compute in Heq. discriminate Heq.
Qed.

(** On the particle at rest: two draws, and both components use 1/4. *)
Lemma update_velocity_shares_draws_witness :
  exists p',
    fst (Particle.update_velocity particle_at_rest O 1%Q 1%Q 1%Q pso_at_rest) = Ok p'
    /\ cursor (snd (Particle.update_velocity particle_at_rest O 1%Q 1%Q 1%Q pso_at_rest))
       = 2%N
    /\ Forall2 (fun i v' =>
                  fst (Particle.velocity_component particle_at_rest O 1%Q 1%Q 1%Q
                         (f_unit (quarters_tape 0)) (f_unit (quarters_tape 1)) i
                         (mkWorld [[0; 0]; [1; 1]] quarters_tape 2 tt)) = Ok v')
               (range 2) (Particle.velocity p').
Proof.
  eexists. split; [reflexivity|].
  destruct (update_velocity_shares_draws particle_at_rest O 1%Q 1%Q 1%Q pso_at_rest _ eq_refl)
    as (Hw & _ & Hv).
  split; [rewrite Hw; reflexivity | exact Hv].
Defined.

(** ** The global best record *)

(** The swarm of one particle that [PSO.__init__] builds for the formula
    [[1]] over one variable: the particle starts at [[0]]. *)
Definition pso_single : World (PSO.t Q) :=
  snd (PSO.init (PSO.w_clauses [[1]], 1, 1) 1 10 1%Q (17 # 10) (21 # 10)
         (mkWorld [] example_tape 2 pso_blank)).

(** The first steps of the first iteration, up to the local search. *)
Definition pso_single_before_search : World (PSO.t Q) :=
  snd ((PSO.calc_fitness_and_global_best ;; PSO.update_velocities O) pso_single).

(** C6.  [global_best] is the particle's own position list, so the local
    search rewrites the recorded assignment from [[0]] to [[1]] while
    [global_best_fitness] still says 0: the assignment of the record changes
    without any comparison of fitness values. *)
Theorem local_search_rewrites_global_best :
  let w := pso_single_before_search in
  let w' := snd (PSO.local_search O 5 w) in
  fst (PSO.local_search O 5 w) = Ok tt
  /\ PSO.global_best (self w) = O
  /\ PSO.global_best (self w') = O
  /\ (exists p, PSO.swarm (self w) !! O = Some p /\ Particle.position p = O)
  /\ heap w !! O = Some [0]
  /\ heap w' !! O = Some [1]
  /\ PSO.global_best_fitness (self w) = 0
  /\ PSO.global_best_fitness (self w') = 0
  /\ fst (PSO.fitness (PSO.global_best (self w')) w') = Ok 1.
Proof.
  cbv zeta. repeat split; try reflexivity.
  eexists. split; reflexivity.
Qed.

(** ** Crossover and the parents' lists *)

(** Parents [[0]] and [[1]]; every draw of [random()] is 1/2, which is not
    below [crossover_p]. *)
Definition ea_two_parents : World (EA.t Q) :=
  mkWorld [[0]; [1]] (fun _ => 4503599627370496%N) 0 (EA.init [[1]] 1).

(** C2.  With the draw 1/2 the children of [[0]] and [[1]] should be [[1]]
    and [[0]]; [crossover] returns the two parent lists themselves, both
    holding [[1]]: child B carries parent B's bit, not parent A's. *)
Theorem crossover_children_not_complementary :
  let w' := snd (EA.crossover O 1%nat ea_two_parents) in
  f_ltb (f_unit (tape ea_two_parents 0%N)) (EA.crossover_p (self ea_two_parents)) = false
  /\ heap ea_two_parents = [[0]; [1]]
  /\ fst (EA.crossover O 1%nat ea_two_parents) = Ok (O, 1%nat)
  /\ heap w' !! O = Some [1]
  /\ heap w' !! 1%nat = Some [1]
  /\ length (heap w') = 2%nat.
Proof. cbv zeta. repeat split; reflexivity. Qed.

(** Parents [[0; 0]] (fitness 0) and [[1; 1]] (fitness 1) on the clause
    [[1; 2]]. *)
Definition ea_reproduction : World (EA.t Q) :=
  mkWorld [[0; 0]; [1; 1]] example_tape 0 (EA.init [[1; 2]] 2).

Definition ea_reproduction_pool : list Chromosome.t :=
  [Chromosome.mk O 0; Chromosome.mk 1%nat 1].

(** C4.  [create_generation] creates no list: every child chromosome holds
    the list of one of the two parents, and those lists are rewritten in
    place.  Afterwards the parent recorded with fitness 1 holds [[0; 0]],
    whose fitness is 0. *)
Theorem create_generation_rewrites_parents :
  let w := ea_reproduction in
  let w' := snd (EA.create_generation ea_reproduction_pool w) in
  fst (EA.fitness O w) = Ok 0
  /\ fst (EA.fitness 1%nat w) = Ok 1
  /\ heap w !! 1%nat = Some [1; 1]
  /\ (exists new_generation,
        fst (EA.create_generation ea_reproduction_pool w) = Ok new_generation
        /\ length new_generation = 100%nat
        /\ Forall (fun c => Chromosome.solution c = O \/ Chromosome.solution c = 1%nat)
                  new_generation)
  /\ length (heap w') = 2%nat
  /\ heap w' !! 1%nat = Some [0; 0]
  /\ fst (EA.fitness 1%nat w') = Ok 0.
Proof.
  cbv zeta. split; [reflexivity|]. split; [reflexivity|]. split; [reflexivity|].
  split.
  - eexists. split; [vm_compute; reflexivity|]. split; [reflexivity|].
    apply Forall_forall. intros c Hc.
    repeat (apply elem_of_cons in Hc as [-> | Hc]; [simpl; tauto|]).
    apply elem_of_nil in Hc. contradiction.
  - repeat split; reflexivity.
Qed.

(** ** The result of the genetic engine *)

(** The engine on the unsatisfiable formula [[1], [-1]] over one variable. *)
Definition ea_contradiction : World (EA.t Q) :=
  mkWorld [] example_tape 0 (EA.init [[1]; [-1]] 1).

(** * Further properties of the code *)

(** ** The evaluator on well-formed clauses *)

Section EvaluatorOrder.

(** The literal is read without error and is true. *)
Definition literal_true (v : list Z) (literal : Z) : bool :=
  match EA.literal_value v literal with
  | Ok y => y =? 1
  | _ => false
  end.

Lemma is_clause_satisfied_existsb v clause :
  well_formed (length v) clause ->
  EA.is_clause_satisfied v clause = Ok (existsb (literal_true v) clause).
Proof.
  induction 1 as [|literal rest Hl _ IH]; simpl; [reflexivity|].
  unfold literal_true at 1.
  destruct (literal_value_in_range v literal Hl) as [y ->]. simpl.
  destruct (y =? 1); [reflexivity | exact IH].
Qed.

Lemma existsb_permutation {A} (f : A -> bool) l l' :
  Permutation l l' -> existsb f l = existsb f l'.
Proof.
  induction 1 as [|x l l' _ IH|x y l|l l' l'' _ IH1 _ IH2]; simpl.
  - reflexivity.
  - rewrite IH. reflexivity.
  - destruct (f x), (f y); reflexivity.
  - congruence.
Qed.

(** When every literal of the clause names a variable of the assignment, the
    answer of [is_clause_satisfied] does not depend on the order of the
    literals in the clause, in either engine. *)
Theorem is_clause_satisfied_order_independent (v clause clause' : list Z) :
  well_formed (length v) clause ->
  Permutation clause clause' ->
  EA.is_clause_satisfied v clause' = EA.is_clause_satisfied v clause
  /\ PSO.is_clause_satisfied v clause' = PSO.is_clause_satisfied v clause.
Proof.
  intros Hwf Hperm.
  assert (Hwf' : well_formed (length v) clause').
  { unfold well_formed. rewrite <- Hperm. exact Hwf. }
  assert (Heq : EA.is_clause_satisfied v clause' = EA.is_clause_satisfied v clause).
  { rewrite (is_clause_satisfied_existsb v clause Hwf),
            (is_clause_satisfied_existsb v clause' Hwf'),
            (existsb_permutation _ _ _ Hperm).
    reflexivity. }
  split; exact Heq.
Qed.

End EvaluatorOrder.

(** The clauses [[1; -2; 3]] and [[3; 1; -2]] on [[0; 1; 1]]. *)
Lemma is_clause_satisfied_order_independent_witness :
  EA.is_clause_satisfied [0; 1; 1] [3; 1; -2] = EA.is_clause_satisfied [0; 1; 1] [1; -2; 3]
  /\ PSO.is_clause_satisfied [0; 1; 1] [3; 1; -2] = PSO.is_clause_satisfied [0; 1; 1] [1; -2; 3].
Proof.
  apply is_clause_satisfied_order_independent.
  - repeat constructor; unfold literal_in_range; simpl; lia.
  - change [3; 1; -2] with ([3] ++ [1; -2]). change [1; -2; 3] with ([1; -2] ++ [3]).
    apply Permutation_app_comm.
Defined.

(** ** Selection *)

Section Selection.

(** [x] comes no later than [y] in the order of fitness. *)
Definition fitness_le (x y : Chromosome.t) : Prop :=
  Chromosome.fitness x <= Chromosome.fitness y.

Lemma insert_sorted_permutation x l : Permutation (EA.insert_sorted x l) (x :: l).
Proof.
  induction l as [|y l IH]; simpl; [reflexivity|].
  destruct (Chromosome.fitness x <=? Chromosome.fitness y); [reflexivity|].
  rewrite IH. apply perm_swap.
Qed.

Lemma sorted_permutation l : Permutation (EA.sorted l) l.
Proof.
  induction l as [|x l IH]; simpl; [reflexivity|].
  rewrite insert_sorted_permutation, IH. reflexivity.
Qed.

Lemma insert_sorted_ascending x l :
  StronglySorted fitness_le l -> StronglySorted fitness_le (EA.insert_sorted x l).
Proof.
  induction 1 as [|y l Hsorted IH Hall]; simpl.
  - repeat constructor.
  - destruct (Z.leb_spec (Chromosome.fitness x) (Chromosome.fitness y)) as [Hle|Hgt].
    + constructor; [constructor; assumption|].
      constructor; [exact Hle|].
      eapply Forall_impl; [exact Hall|]. unfold fitness_le. simpl. intros z Hz. lia.
    + constructor; [exact IH|].
      rewrite insert_sorted_permutation. constructor; [|exact Hall].
      unfold fitness_le. lia.
Qed.

Lemma sorted_ascending l : StronglySorted fitness_le (EA.sorted l).
Proof.
  induction l as [|x l IH]; simpl; [constructor|].
  apply insert_sorted_ascending. exact IH.
Qed.

Lemma ascending_app_le (l1 l2 : list Chromosome.t) :
  StronglySorted fitness_le (l1 ++ l2) ->
  forall x y, x ∈ l1 -> y ∈ l2 -> fitness_le x y.
Proof.
  induction l1 as [|a l1 IH]; simpl; intros Hsorted x y Hx Hy.
  - apply elem_of_nil in Hx. contradiction.
  - apply StronglySorted_inv in Hsorted as [Hrest Hall].
    apply elem_of_cons in Hx as [-> | Hx].
    + rewrite Forall_forall in Hall. apply Hall. apply elem_of_app. right. exact Hy.
    + apply IH; assumption.
Qed.

Lemma ascending_app_l (l1 l2 : list Chromosome.t) :
  StronglySorted fitness_le (l1 ++ l2) -> StronglySorted fitness_le l1.
Proof.
  induction l1 as [|a l1 IH]; simpl; intros Hsorted; [constructor|].
  apply StronglySorted_inv in Hsorted as [Hrest Hall].
  constructor; [apply IH; exact Hrest|].
  apply Forall_app in Hall as [Hall _]. exact Hall.
Qed.

(** The population splits into the selected chromosomes and the rest. *)
Lemma selection_split (chromosomes : list Chromosome.t) :
  exists rest,
    Permutation (EA.selection chromosomes ++ rest) chromosomes
    /\ length (EA.selection chromosomes) = Nat.min 10 (length chromosomes)
    /\ StronglySorted fitness_le (EA.selection chromosomes)
    /\ forall x y, x ∈ EA.selection chromosomes -> y ∈ rest -> fitness_le x y.
Proof.
  exists (drop 10 (EA.sorted chromosomes)). unfold EA.selection.
  pose proof (sorted_ascending chromosomes) as Hsorted.
  rewrite <- (take_drop 10 (EA.sorted chromosomes)) in Hsorted.
  split; [rewrite take_drop; apply sorted_permutation|].
  split; [rewrite length_take, (Permutation_length (sorted_permutation chromosomes));
          reflexivity|].
  split; [eapply ascending_app_l; exact Hsorted|].
  apply ascending_app_le. exact Hsorted.
Qed.

(** [selection] splits the population in two: it returns the 10 chromosomes
    of lowest fitness (all of them when there are fewer than 10) in ascending
    order of fitness, and no chromosome it leaves out has a lower fitness
    than one it returns.  The attribute [selection_size] plays no part. *)
Theorem selection_keeps_lowest (chromosomes : list Chromosome.t) :
  exists rest,
    Permutation (EA.selection chromosomes ++ rest) chromosomes
    /\ length (EA.selection chromosomes) = Nat.min 10 (length chromosomes)
    /\ StronglySorted fitness_le (EA.selection chromosomes)
    /\ forall x y, x ∈ EA.selection chromosomes -> y ∈ rest -> fitness_le x y.
Proof. exact (selection_split chromosomes). Qed.

End Selection.

(** ** Mutation *)

Section Mutation.
Context {F : Type} `{PyFloat F}.

(** The world after [n] outputs of the random source were consumed. *)
Definition after_draws {T} (w : World T) (n : N) : World T :=
  mkWorld (heap w) (tape w) (cursor w + n)%N (self w).

Lemma random_eq {T} (w : World T) :
  random (F := F) w = (Ok (f_unit (tape w (cursor w))), after_draws w 1).
Proof.
  unfold random, next_raw, after_draws. msimpl. rewrite N.add_1_r. reflexivity.
Qed.

Lemma randint_eq {T} (w : World T) a b :
  a <= b ->
  randint a b w = (Ok (a + Z.of_N (tape w (cursor w)) mod (b - a + 1)), after_draws w 1).
Proof.
  intros Hab. unfold randint, next_raw, after_draws.
  destruct (Z.ltb_spec b a); [lia|]. msimpl. rewrite N.add_1_r. reflexivity.
Qed.

Lemma len_eq {T} (w : World T) r v :
  heap w !! r = Some v -> len r w = (Ok (Z.of_nat (length v)), w).
Proof. intros Hv. unfold len. erewrite bind_ok by (apply deref_eq; exact Hv). reflexivity. Qed.

(** The bit [mutation] writes in place of [x]. *)
Definition flipped (x : Z) : Z := if x =? 0 then 1 else 0.

(** The three ways a call of [mutation] can go. *)
Lemma mutation_cases (w : World (EA.t F)) (chromosome : loc) (v : list Z) :
  heap w !! chromosome = Some v ->
  let t := f_unit (tape w (cursor w)) in
  (f_ltb t (EA.mutation_rate (self w)) = false ->
     EA.mutation chromosome w = (Ok chromosome, after_draws w 1))
  /\ (f_ltb t (EA.mutation_rate (self w)) = true -> v = [] ->
        EA.mutation chromosome w = (Raise ValueError, after_draws w 1))
  /\ (f_ltb t (EA.mutation_rate (self w)) = true -> v <> [] ->
        exists k x,
          v !! k = Some x
          /\ EA.mutation chromosome w =
               (Ok chromosome,
                with_list (after_draws w 2) chromosome (<[k := flipped x]> v))).
Proof.
  intros Hv t.
  repeat split.
  - intros Hlt. unfold EA.mutation. unfold bind at 1, get_self.
    erewrite bind_ok by apply random_eq. cbv beta. fold t. rewrite Hlt. reflexivity.
  - intros Hlt ->. unfold EA.mutation. unfold bind at 1, get_self.
    erewrite bind_ok by apply random_eq. cbv beta. fold t. rewrite Hlt.
    unfold bind at 1.
    erewrite bind_ok by (apply len_eq; exact Hv). simpl length.
    unfold randint, raise, bind. simpl. reflexivity.
  - intros Hlt Hne.
    assert (Hlen : (0 < length v)%nat) by (destruct v; [contradiction | simpl; lia]).
    set (n := Z.of_nat (length v)).
    set (i := 0 + Z.of_N (tape w (cursor (after_draws w 1))) mod (n - 1 - 0 + 1)).
    assert (Hi : 0 <= i < n).
    { subst i. replace (n - 1 - 0 + 1) with n by lia.
      pose proof (Z.mod_pos_bound (Z.of_N (tape w (cursor (after_draws w 1)))) n).
      lia. }
    destruct (lookup_lt_is_Some_2 v (Z.to_nat i)) as [x Hx]; [lia|].
    exists (Z.to_nat i), x. split; [exact Hx|].
    unfold EA.mutation. unfold bind at 1, get_self.
    erewrite bind_ok by apply random_eq. cbv beta. fold t. rewrite Hlt.
    unfold bind at 1.
    erewrite bind_ok by (apply len_eq; exact Hv).
    erewrite bind_ok by (apply randint_eq; fold n; lia).
    fold n. fold i.
    erewrite bind_ok by (eapply load_item_eq; [exact Hv | exact Hi | exact Hx]).
    erewrite store_item_eq by (first [exact Hv | exact Hi]).
    unfold ret, with_list, after_draws, flipped. cbn [heap tape cursor self].
    do 2 f_equal. lia.
Qed.

(** [mutation] returns the reference it was given.  When the draw is not
    below [mutation_rate] the list is untouched and one output of the random
    source is consumed; when it is below, exactly one position of the list
    is overwritten, by 1 if it held 0 and by 0 otherwise, and two outputs are
    consumed; on an empty list that second case raises [ValueError]. *)
Theorem mutation_effect (w : World (EA.t F)) (chromosome : loc) (v : list Z) :
  heap w !! chromosome = Some v ->
  let t := f_unit (tape w (cursor w)) in
  (f_ltb t (EA.mutation_rate (self w)) = false ->
     EA.mutation chromosome w = (Ok chromosome, after_draws w 1))
  /\ (f_ltb t (EA.mutation_rate (self w)) = true -> v = [] ->
        EA.mutation chromosome w = (Raise ValueError, after_draws w 1))
  /\ (f_ltb t (EA.mutation_rate (self w)) = true -> v <> [] ->
        exists k x,
          v !! k = Some x
          /\ EA.mutation chromosome w =
               (Ok chromosome,
                with_list (after_draws w 2) chromosome (<[k := flipped x]> v))).
Proof. exact (mutation_cases w chromosome v). Qed.

End Mutation.

(** A draw of 0 is below the mutation rate 0.01: the second draw, 0, selects
    the position 0 of [[0; 1]], which becomes 1. *)
Lemma mutation_effect_witness :
  let w : World (EA.t Q) := mkWorld [[0; 1]] (fun _ => 0%N) 0 (EA.init [[1]] 2) in
  exists k x,
    [0; 1] !! k = Some x
    /\ EA.mutation O w = (Ok O, with_list (after_draws w 2) O (<[k := flipped x]> [0; 1])).
Proof.
  intros w.
  destruct (mutation_effect w O [0; 1] eq_refl) as (_ & _ & Hfire).
  apply Hfire; [reflexivity | discriminate].
Defined.

(** ** Crossover on two different lists *)

Section Crossover.
Context {F : Type} `{PyFloat F}.

(** The list [crossover] leaves behind its first argument: at each position
    the bit of the first parent if the draw is below [crossover_p], the bit
    of the second parent otherwise.  The draws start at position [c] of the
    random source. *)
Fixpoint mix (tape : N -> N) (crossover_p : F) (c : N) (va vb : list Z) : list Z :=
  match va, vb with
  | x :: va', y :: vb' =>
      (if f_ltb (f_unit (tape c)) crossover_p then x else y)
        :: mix tape crossover_p (N.succ c) va' vb'
  | _, _ => []
  end.

Lemma copy_item_eq {T} (w : World T) src dst vs vd i x :
  heap w !! src = Some vs -> heap w !! dst = Some vd ->
  vs !! Z.to_nat i = Some x ->
  0 <= i < Z.of_nat (length vs) -> 0 <= i < Z.of_nat (length vd) ->
  (let* x := load_item src i in store_item dst i x) w
    = (Ok tt, with_list w dst (<[Z.to_nat i := x]> vd)).
Proof.
  intros Hs Hd Hx His Hid.
  erewrite bind_ok by (eapply load_item_eq; eassumption).
  erewrite store_item_eq by eassumption. reflexivity.
Qed.

Lemma after_draws_zero {T} (w : World T) : after_draws w 0 = w.
Proof. unfold after_draws. rewrite N.add_0_r. destruct w; reflexivity. Qed.

Lemma after_draws_succ {T} (w : World T) n :
  after_draws (after_draws w 1) n = after_draws w (N.succ n).
Proof. unfold after_draws. simpl. f_equal. lia. Qed.

Lemma crossover_loop (ta da db tb : list Z) (w : World (EA.t F)) a b :
  a <> b ->
  length da = length db ->
  (length ta <= length tb)%nat ->
  heap w !! a = Some (da ++ ta) ->
  heap w !! b = Some (db ++ tb) ->
  for_each (map Z.of_nat (seq (length da) (length ta)))
    (fun i =>
       let* e := get_self in
       let* p := random in
       if f_ltb p (EA.crossover_p e) then
         (let* x := load_item a i in store_item a i x) ;;
         (let* y := load_item b i in store_item b i y)
       else
         (let* y := load_item b i in store_item a i y) ;;
         (let* x := load_item a i in store_item b i x)) w
  = (Ok tt,
     with_list (after_draws w (N.of_nat (length ta))) a
       (da ++ mix (tape w) (EA.crossover_p (self w)) (cursor w) ta tb)).
Proof.
  intros Hab. revert da db tb w.
  induction ta as [|x ta IH]; intros da db tb w Hlen Hle Ha Hb.
  - simpl. unfold ret. rewrite after_draws_zero, app_nil_r.
    rewrite app_nil_r in Ha. rewrite with_list_same by exact Ha. reflexivity.
  - destruct tb as [|y tb]; [simpl in Hle; lia|].
    cbn [length seq map for_each].
    set (i := Z.of_nat (length da)).
    assert (Hia : Z.to_nat i = length da) by (subst i; lia).
    assert (Hib : Z.to_nat i = length db) by (subst i; lia).
    assert (Hra : 0 <= i < Z.of_nat (length (da ++ x :: ta)))
      by (subst i; rewrite length_app; simpl; lia).
    assert (Hrb : 0 <= i < Z.of_nat (length (db ++ y :: tb)))
      by (subst i; rewrite length_app; simpl; lia).
    assert (Hxa : (da ++ x :: ta) !! Z.to_nat i = Some x)
      by (rewrite Hia; apply list_lookup_middle; reflexivity).
    assert (Hyb : (db ++ y :: tb) !! Z.to_nat i = Some y)
      by (rewrite Hib; apply list_lookup_middle; reflexivity).
    unfold bind at 1. unfold bind at 1. unfold get_self at 1.
    erewrite bind_ok by apply random_eq. cbv beta.
    set (w1 := after_draws w 1).
    assert (Ha1 : heap w1 !! a = Some (da ++ x :: ta)) by exact Ha.
    assert (Hb1 : heap w1 !! b = Some (db ++ y :: tb)) by exact Hb.
    cbn [mix].
    destruct (f_ltb (f_unit (tape w (cursor w))) (EA.crossover_p (self w))).
    + erewrite bind_ok
        by (eapply (copy_item_eq w1 a a); eassumption).
      rewrite (list_insert_id _ _ _ Hxa), (with_list_same w1 a _ Ha1).
      erewrite copy_item_eq by eassumption.
      rewrite (list_insert_id _ _ _ Hyb), (with_list_same w1 b _ Hb1).
      specialize (IH (da ++ [x]) (db ++ [y]) tb w1).
      rewrite !length_app in IH. simpl length in IH.
      replace (length da + 1)%nat with (S (length da)) in IH by lia.
      cbv beta iota. rewrite IH; cycle 1.
      { lia. } { simpl in Hle. lia. }
      { rewrite <- app_assoc. exact Ha1. } { rewrite <- app_assoc. exact Hb1. }
      subst w1. rewrite after_draws_succ, <- app_assoc.
      simpl. rewrite N.add_1_r, Nat2N.inj_succ. reflexivity.
    + erewrite bind_ok
        by (eapply (copy_item_eq w1 b a); eassumption).
      set (w2 := with_list w1 a (<[Z.to_nat i := y]> (da ++ x :: ta))).
      assert (Hins : <[Z.to_nat i := y]> (da ++ x :: ta) = da ++ y :: ta).
      { rewrite Hia. replace (length da) with (length da + 0)%nat at 1 by lia.
        rewrite insert_app_r. reflexivity. }
      assert (Ha2 : heap w2 !! a = Some (da ++ y :: ta)).
      { subst w2. rewrite Hins. eapply with_list_lookup. exact Ha1. }
      assert (Hb2 : heap w2 !! b = Some (db ++ y :: tb)).
      { subst w2. simpl. rewrite list_lookup_insert_ne by exact Hab. exact Hb. }
      erewrite (copy_item_eq w2 a b); try eassumption; cycle 1.
      { rewrite Hia. apply list_lookup_middle. reflexivity. }
      { rewrite length_app. simpl. subst i. lia. }
      rewrite (list_insert_id _ _ _ Hyb), (with_list_same w2 b _ Hb2).
      specialize (IH (da ++ [y]) (db ++ [y]) tb w2).
      rewrite !length_app in IH. simpl length in IH.
      replace (length da + 1)%nat with (S (length da)) in IH by lia.
      cbv beta iota. rewrite IH; cycle 1.
      { lia. } { simpl in Hle. lia. }
      { rewrite <- app_assoc. exact Ha2. } { rewrite <- app_assoc. exact Hb2. }
      subst w2 w1. rewrite <- app_assoc. simpl.
      rewrite N.add_1_r, Nat2N.inj_succ.
      unfold with_list, after_draws. simpl.
      rewrite list_insert_insert_eq. f_equal. f_equal; lia.
Qed.

(** [crossover] on two different lists, the second at least as long as the
    first: it returns the two references it was given; the second parent's
    list is untouched, so that the second child is the second parent; the
    first parent's list keeps its bit where the draw is below [crossover_p]
    and takes the second parent's bit elsewhere.  One output of the random
    source is consumed per position. *)
Theorem crossover_effect (w : World (EA.t F)) (a b : loc) (va vb : list Z) :
  a <> b ->
  heap w !! a = Some va ->
  heap w !! b = Some vb ->
  (length va <= length vb)%nat ->
  EA.crossover a b w
  = (Ok (a, b),
     with_list (after_draws w (N.of_nat (length va))) a
       (mix (tape w) (EA.crossover_p (self w)) (cursor w) va vb))
  /\ heap (snd (EA.crossover a b w)) !! b = Some vb.
Proof.
  intros Hab Ha Hb Hle.
  assert (Hrun : EA.crossover a b w
    = (Ok (a, b),
       with_list (after_draws w (N.of_nat (length va))) a
         (mix (tape w) (EA.crossover_p (self w)) (cursor w) va vb))).
  { unfold EA.crossover.
    erewrite bind_ok by (apply len_eq; exact Ha).
    unfold range. rewrite Nat2Z.id.
    erewrite bind_ok
      by (apply (crossover_loop va [] [] vb w a b Hab eq_refl Hle Ha Hb)).
    reflexivity. }
  split; [exact Hrun|]. rewrite Hrun. simpl.
  rewrite list_lookup_insert_ne by exact Hab. exact Hb.
Qed.

End Crossover.

(** Parents [[0; 0; 1]] and [[1; 1; 1]] with draws 1/4, 1/2, 3/4: the first
    list becomes [[0; 1; 1]], the second stays. *)
Lemma crossover_effect_witness :
  let w : World (EA.t Q) :=
    mkWorld [[0; 0; 1]; [1; 1; 1]] quarters_tape 0 (EA.init [[1]] 3) in
  EA.crossover O 1%nat w
  = (Ok (O, 1%nat), with_list (after_draws w 3) O [0; 1; 1])
  /\ heap (snd (EA.crossover O 1%nat w)) !! 1%nat = Some [1; 1; 1].
Proof.
  intros w.
  assert (Hab : O <> 1%nat) by discriminate.
  assert (Hle : (length [0; 0; 1] <= length [1; 1; 1])%nat) by (simpl; lia).
  destruct (crossover_effect w O 1%nat [0; 0; 1] [1; 1; 1] Hab eq_refl eq_refl Hle)
    as [Hrun Hsecond].
  split; [exact Hrun | exact Hsecond].
Defined.

(** ** Reproduction from a pool that is too small *)

(** With fewer than two chromosomes to choose from and a positive
    [generation_size], [create_generation] raises [ValueError]
    ([random.sample] cannot draw two parents) and changes nothing. *)
Theorem create_generation_small_pool {F} `{PyFloat F} (w : World (EA.t F))
    (pool : list Chromosome.t) :
  (length pool < 2)%nat ->
  0 < EA.generation_size (self w) ->
  EA.create_generation pool w = (Raise ValueError, w).
Proof.
  intros Hpool Hgs. unfold EA.create_generation. unfold bind at 1, get_self.
  destruct (Z.to_nat (EA.generation_size (self w))) as [|fuel] eqn:Hfuel; [lia|].
  cbn [EA.create_generation_loop]. unfold bind at 1, get_self.
  destruct (Z.ltb_spec (Z.of_nat (@length Chromosome.t [])) (EA.generation_size (self w)));
    [|simpl in *; lia].
  unfold bind, sample2. destruct (Nat.ltb_spec (length pool) 2); [reflexivity | lia].
Qed.


(** ** The genetic engine on well-formed input *)

(** [[randint(0, 1) for x in xs]]: as many bits as [xs] has elements. *)
Lemma random_bits_total {T A} (xs : list A) (w : World T) :
  exists bits,
    comprehension xs (fun _ => randint 0 1) w
      = (Ok bits, after_draws w (N.of_nat (length xs)))
    /\ length bits = length xs
    /\ Forall (fun b => b = 0 \/ b = 1) bits.
Proof.
  revert w. induction xs as [|x xs IH]; intros w.
  - exists []. simpl. unfold ret, after_draws. rewrite N.add_0_r.
    destruct w; simpl. repeat split; constructor.
  - destruct (IH (after_draws w 1)) as (bits & Hrun & Hlen & Hbits).
    eexists (_ :: bits). cbn [comprehension].
    erewrite bind_ok by (apply randint_eq; lia).
    erewrite bind_ok by exact Hrun. unfold ret.
    split; [f_equal; unfold after_draws; simpl; f_equal; lia|].
    split; [simpl; f_equal; exact Hlen|].
    constructor; [|exact Hbits].
    pose proof (Z.mod_pos_bound (Z.of_N (tape w (cursor w))) (1 - 0 + 1)). lia.
Qed.

Section GeneticEngine.
Context {F : Type} `{PyFloat F}.

(** The number of variables. *)
Variable L : nat.
Hypothesis L_positive : (1 <= L)%nat.

(** Every list of the store is an assignment over [L] variables. *)
Definition heap_ok (h : list (list Z)) : Prop := Forall (fun v => length v = L) h.

(** The clauses name variables of the assignment and [num_clauses] is their
    number, as [EA.__init__] sets it. *)
Definition engine_ok (e : EA.t F) : Prop :=
  Forall (well_formed L) (EA.clauses e)
  /\ EA.num_clauses e = Z.of_nat (length (EA.clauses e)).

Definition top_valid (w : World (EA.t F)) : Prop :=
  forall r, EA.top_chromosome (self w) = Some r -> (r < length (heap w))%nat.

Definition world_ok (w : World (EA.t F)) : Prop :=
  heap_ok (heap w) /\ engine_ok (self w) /\ top_valid w.

(** Some assignment satisfies every clause. *)
Definition satisfiable (cs : list (list Z)) : Prop :=
  exists v, length v = L /\ Forall (satisfied v) cs.

(** The engine [e] with another recorded optimum and iteration counter. *)
Definition with_progress (top : option loc) (iteration : Z) (e : EA.t F) : EA.t F :=
  EA.mk (EA.clauses e) (EA.num_clauses e) (EA.num_literals e) (EA.max_iterations e)
        (EA.generation_size e) (EA.mutation_rate e) (EA.selection_size e)
        iteration (EA.crossover_p e) top.

(** The attributes of the engine that no method assigns after [__init__]. *)
Definition settings (e : EA.t F) : EA.t F := with_progress None 0 e.

(** What a step of the engine may do to a well-formed world: lists are
    rewritten or added, never removed or resized; of the engine only the
    recorded optimum changes, and only if the clauses are satisfiable. *)
Definition evolves (w w' : World (EA.t F)) : Prop :=
  world_ok w'
  /\ (length (heap w) <= length (heap w'))%nat
  /\ tape w' = tape w
  /\ settings (self w') = settings (self w)
  /\ EA.current_iteration (self w') = EA.current_iteration (self w)
  /\ (EA.top_chromosome (self w') = EA.top_chromosome (self w)
      \/ satisfiable (EA.clauses (self w))).

Lemma settings_clauses (e e' : EA.t F) :
  settings e' = settings e -> EA.clauses e' = EA.clauses e.
Proof. intros Hs. exact (f_equal EA.clauses Hs). Qed.

Lemma evolves_refl w : world_ok w -> evolves w w.
Proof.
  intros Hok. split; [exact Hok|]. split; [lia|]. split; [reflexivity|].
  split; [reflexivity|]. split; [reflexivity | left; reflexivity].
Qed.

Lemma evolves_trans w1 w2 w3 : evolves w1 w2 -> evolves w2 w3 -> evolves w1 w3.
Proof.
  intros (Hok2 & Hlen12 & Htape12 & Hself12 & Hit12 & Htop12)
         (Hok3 & Hlen23 & Htape23 & Hself23 & Hit23 & Htop23).
  split; [exact Hok3|]. split; [lia|]. split; [congruence|].
  split; [congruence|]. split; [congruence|].
  destruct Htop23 as [Htop23|Hsat];
    [|right; rewrite <- (settings_clauses _ _ Hself12); exact Hsat].
  destruct Htop12 as [Htop12|Hsat]; [left; congruence | right; exact Hsat].
Qed.

Lemma evolves_ok w w' : evolves w w' -> world_ok w'.
Proof. intros [Hok _]. exact Hok. Qed.

Lemma evolves_valid w w' r :
  evolves w w' -> (r < length (heap w))%nat -> (r < length (heap w'))%nat.
Proof. intros (_ & Hlen & _) Hr. lia. Qed.

Lemma world_ok_lookup w r :
  world_ok w -> (r < length (heap w))%nat ->
  exists v, heap w !! r = Some v /\ length v = L.
Proof.
  intros (Hheap & _) Hr.
  destruct (lookup_lt_is_Some_2 (heap w) r Hr) as [v Hv].
  exists v. split; [exact Hv|].
  unfold heap_ok in Hheap. rewrite Forall_lookup in Hheap. eapply Hheap. exact Hv.
Qed.

Lemma evolves_after_draws w n : world_ok w -> evolves w (after_draws w n).
Proof.
  intros Hok. split; [exact Hok|]. split; [simpl; lia|]. split; [reflexivity|].
  split; [reflexivity|]. split; [reflexivity | left; reflexivity].
Qed.

Lemma evolves_with_list w r v' :
  world_ok w -> length v' = L -> evolves w (with_list w r v').
Proof.
  intros (Hheap & Hengine & Htop) Hlen.
  split; [|split; [simpl; rewrite length_insert; lia|]; split; [reflexivity|];
           split; [reflexivity|]; split; [reflexivity | left; reflexivity]].
  split; [|split; [exact Hengine|]].
  - unfold heap_ok. simpl.
    destruct (decide (r < length (heap w))%nat) as [Hr|Hr].
    + apply Forall_insert; assumption.
    + rewrite list_insert_ge by lia. exact Hheap.
  - intros r' Hr'. simpl. rewrite length_insert. apply Htop. exact Hr'.
Qed.


(** [fitness] on a list of the store: a result, the store untouched, and the
    optimum recorded only for an assignment that satisfies every clause. *)
Lemma fitness_total w r :
  world_ok w -> (r < length (heap w))%nat ->
  exists f w', EA.fitness r w = (Ok f, w')
    /\ evolves w w' /\ heap w' = heap w /\ cursor w' = cursor w
    /\ 0 <= f <= Z.of_nat (length (EA.clauses (self w)))
    /\ (EA.top_chromosome (self w') = EA.top_chromosome (self w)
        \/ EA.top_chromosome (self w') = Some r).
Proof.
  intros Hok Hr.
  destruct (world_ok_lookup w r Hok Hr) as (v & Hv & Hlen).
  pose proof Hok as (Hheap & (Hwf & Hnum) & Htop).
  destruct (ea_count_clauses_spec w r v (EA.clauses (self w)) 0 Hv)
    as (k & Hk & Hrange & Hiff); [rewrite Hlen; exact Hwf|].
  rewrite Z.add_0_l in Hk.
  unfold EA.fitness. unfold bind at 1, get_self.
  erewrite bind_ok by exact Hk.
  unfold EA.goal_function. unfold bind at 1. unfold bind at 1, get_self.
  destruct (Z.eqb_spec k (EA.num_clauses (self w))) as [Hopt|Hopt].
  - eexists k, _. unfold set_self, ret. split; [reflexivity|].
    split; [|split; [reflexivity|]; split; [reflexivity|];
             split; [exact Hrange | right; reflexivity]].
    split; [|split; [simpl; lia|]; split; [reflexivity|]; split; [reflexivity|];
             split; [reflexivity|]].
    + split; [exact Hheap|]. split; [split; assumption|].
      intros r' [= <-]. exact Hr.
    + right. exists v. split; [exact Hlen|]. apply Hiff. lia.
  - exists k, w. unfold ret. split; [reflexivity|].
    split; [apply evolves_refl; exact Hok|].
    split; [reflexivity|]. split; [reflexivity|].
    split; [exact Hrange | left; reflexivity].
Qed.

(** [dst[i] = src[i]] on lists of the store. *)
Lemma copy_item_total w src dst i :
  world_ok w -> (src < length (heap w))%nat -> (dst < length (heap w))%nat ->
  0 <= i < Z.of_nat L ->
  exists w', (let* x := load_item src i in store_item dst i x) w = (Ok tt, w')
    /\ evolves w w' /\ cursor w' = cursor w
    /\ length (heap w') = length (heap w).
Proof.
  intros Hok Hsrc Hdst Hi.
  destruct (world_ok_lookup w src Hok Hsrc) as (vs & Hvs & Hls).
  destruct (world_ok_lookup w dst Hok Hdst) as (vd & Hvd & Hld).
  destruct (lookup_lt_is_Some_2 vs (Z.to_nat i)) as [x Hx]; [lia|].
  eexists.
  erewrite bind_ok by (eapply load_item_eq; [exact Hvs | lia | exact Hx]).
  erewrite store_item_eq by (first [exact Hvd | lia]).
  split; [reflexivity|].
  split; [apply (evolves_with_list w dst); [exact Hok | rewrite length_insert; exact Hld]|].
  split; [reflexivity|]. simpl. apply length_insert.
Qed.

(** A loop whose body keeps an invariant and completes. *)
Lemma for_each_total {T A} (I : World T -> Prop) (xs : list A) (body : A -> M T unit) w :
  (forall x w1, x ∈ xs -> I w1 -> exists w2, body x w1 = (Ok tt, w2) /\ I w2) ->
  I w ->
  exists w', for_each xs body w = (Ok tt, w') /\ I w'.
Proof.
  revert w. induction xs as [|x xs IH]; intros w Hbody Hw; simpl.
  - exists w. split; [reflexivity | exact Hw].
  - destruct (Hbody x w) as (w1 & Hrun & Hw1); [left | exact Hw |].
    erewrite bind_ok by exact Hrun.
    apply IH; [|exact Hw1].
    intros y w2 Hy. apply Hbody. right. exact Hy.
Qed.

(** [crossover] on two lists of the store completes and returns the very
    references it was given; no list is created. *)
Lemma crossover_total w a b :
  world_ok w -> (a < length (heap w))%nat -> (b < length (heap w))%nat ->
  exists w', EA.crossover a b w = (Ok (a, b), w')
    /\ evolves w w' /\ length (heap w') = length (heap w).
Proof.
  intros Hok Ha Hb.
  destruct (world_ok_lookup w a Hok Ha) as (va & Hva & Hla).
  unfold EA.crossover.
  erewrite bind_ok by (apply len_eq; exact Hva).
  set (I := fun w1 => evolves w w1 /\ length (heap w1) = length (heap w)).
  destruct (for_each_total I (range (Z.of_nat (length va)))
              (fun i =>
                 let* e := get_self in
                 let* p := random in
                 if f_ltb p (EA.crossover_p e) then
                   (let* x := load_item a i in store_item a i x) ;;
                   (let* y := load_item b i in store_item b i y)
                 else
                   (let* y := load_item b i in store_item a i y) ;;
                   (let* x := load_item a i in store_item b i x)) w)
    as (w' & Hrun & Hev & Hlen).
  - intros i w1 Hin [Hev1 Hlen1].
    assert (Hi : 0 <= i < Z.of_nat L).
    { pose proof (range_in_bounds (Z.of_nat (length va)) L) as Hb'.
      rewrite Forall_forall in Hb'. apply Hb'; [lia | exact Hin]. }
    unfold bind at 1, get_self.
    erewrite bind_ok by apply random_eq.
    assert (Hok1 : world_ok (after_draws w1 1)) by apply Hev1.
    assert (Hev1' : evolves w (after_draws w1 1)).
    { eapply evolves_trans; [exact Hev1 | apply evolves_after_draws; apply Hev1]. }
    destruct (f_ltb _ _).
    + destruct (copy_item_total (after_draws w1 1) a a i Hok1) as (w2 & Hr2 & He2 & _ & Hl2);
        [simpl; lia.. | exact Hi |].
      erewrite bind_ok by exact Hr2.
      destruct (copy_item_total w2 b b i (evolves_ok _ _ He2)) as (w3 & Hr3 & He3 & _ & Hl3);
        [simpl in *; lia.. | exact Hi |].
      exists w3. split; [exact Hr3|]. split.
      * eapply evolves_trans; [exact Hev1'|].
        eapply evolves_trans; [exact He2 | exact He3].
      * simpl in *. lia.
    + destruct (copy_item_total (after_draws w1 1) b a i Hok1) as (w2 & Hr2 & He2 & _ & Hl2);
        [simpl; lia.. | exact Hi |].
      erewrite bind_ok by exact Hr2.
      destruct (copy_item_total w2 a b i (evolves_ok _ _ He2)) as (w3 & Hr3 & He3 & _ & Hl3);
        [simpl in *; lia.. | exact Hi |].
      exists w3. split; [exact Hr3|]. split.
      * eapply evolves_trans; [exact Hev1'|].
        eapply evolves_trans; [exact He2 | exact He3].
      * simpl in *. lia.
  - split; [apply evolves_refl; exact Hok | reflexivity].
  - exists w'. erewrite bind_ok by exact Hrun. split; [reflexivity|].
    split; assumption.
Qed.


Lemma mutation_total w r :
  world_ok w -> (r < length (heap w))%nat ->
  exists w', EA.mutation r w = (Ok r, w')
    /\ evolves w w' /\ length (heap w') = length (heap w).
Proof.
  intros Hok Hr.
  destruct (world_ok_lookup w r Hok Hr) as (v & Hv & Hlen).
  destruct (mutation_cases w r v Hv) as (Hkeep & _ & Hflip).
  destruct (f_ltb (f_unit (tape w (cursor w))) (EA.mutation_rate (self w))).
  - destruct Hflip as (k & x & Hx & Hrun); [reflexivity | |].
    { intros ->. simpl in Hlen. lia. }
    eexists. split; [exact Hrun|]. split.
    + eapply evolves_trans; [apply (evolves_after_draws w 2); exact Hok|].
      apply evolves_with_list; [exact Hok | rewrite length_insert; exact Hlen].
    + simpl. apply length_insert.
  - eexists. split; [apply Hkeep; reflexivity|].
    split; [apply evolves_after_draws; exact Hok | reflexivity].
Qed.

(** [random.sample(population, 2)] on at least two elements. *)
Lemma sample2_total {T A} (population : list A) (w : World T) :
  (2 <= length population)%nat ->
  exists x y, sample2 population w = (Ok (x, y), after_draws w 2)
    /\ x ∈ population /\ y ∈ population.
Proof.
  intros Hlen. unfold sample2.
  destruct (Nat.ltb_spec (length population) 2); [lia|].
  unfold next_raw. msimpl.
  set (n := length population) in *.
  set (i := N.to_nat (tape w (cursor w) mod N.of_nat n)).
  set (j0 := N.to_nat (tape w (N.succ (cursor w)) mod N.of_nat (n - 1))).
  assert (Hi : (i < n)%nat).
  { subst i. pose proof (N.mod_lt (tape w (cursor w)) (N.of_nat n)). lia. }
  assert (Hj0 : (j0 < n - 1)%nat).
  { subst j0. pose proof (N.mod_lt (tape w (N.succ (cursor w))) (N.of_nat (n - 1))). lia. }
  destruct (lookup_lt_is_Some_2 population i Hi) as [x Hx].
  destruct (lookup_lt_is_Some_2 population (if (j0 <? i)%nat then j0 else S j0)) as [y Hy].
  { destruct (j0 <? i)%nat; fold n; lia. }
  rewrite Hx, Hy. exists x, y.
  split; [unfold after_draws; do 2 f_equal; lia|].
  split; eapply list_elem_of_lookup_2; eassumption.
Qed.

(** A chromosome whose list is a list of the store. *)
Definition chromosome_valid (w : World (EA.t F)) (c : Chromosome.t) : Prop :=
  (Chromosome.solution c < length (heap w))%nat.

(** The chromosome holds the list of a chromosome of the pool. *)
Definition from_pool (pool : list Chromosome.t) (c : Chromosome.t) : Prop :=
  exists p, p ∈ pool /\ Chromosome.solution c = Chromosome.solution p.

(** The size [create_generation] reaches starting from [n] chromosomes:
    pairs are added while fewer than [generation_size] are there. *)
Definition filled (generation_size : Z) (n : nat) : Z :=
  Z.max (Z.of_nat n) (Z.of_nat n + 2 * ((generation_size - Z.of_nat n + 1) / 2)).

Lemma filled_done g n : g <= Z.of_nat n -> filled g n = Z.of_nat n.
Proof.
  intros Hg. unfold filled.
  assert ((g - Z.of_nat n + 1) / 2 < 1) by (apply Z.div_lt_upper_bound; lia).
  lia.
Qed.

Lemma filled_step g n : Z.of_nat n < g -> filled g (n + 2) = filled g n.
Proof.
  intros Hg. unfold filled. rewrite Nat2Z.inj_add.
  set (d := g - Z.of_nat n).
  replace (g - (Z.of_nat n + Z.of_nat 2) + 1) with (d - 1) by (subst d; lia).
  replace (d + 1) with ((d - 1) + 1 * 2) by lia.
  rewrite Z.div_add by lia.
  assert (0 <= (d - 1) / 2) by (apply Z.div_pos; subst d; lia).
  lia.
Qed.

Lemma create_generation_loop_total fuel pool new_generation w :
  world_ok w ->
  (2 <= length pool)%nat ->
  Forall (chromosome_valid w) pool ->
  EA.generation_size (self w) - Z.of_nat (length new_generation) <= 2 * Z.of_nat fuel ->
  exists children w',
    EA.create_generation_loop fuel pool new_generation w
      = (Ok (new_generation ++ children), w')
    /\ evolves w w'
    /\ length (heap w') = length (heap w)
    /\ Forall (from_pool pool) children
    /\ Z.of_nat (length (new_generation ++ children))
       = filled (EA.generation_size (self w)) (length new_generation).
Proof.
  revert new_generation w.
  induction fuel as [|fuel IH]; intros ng w Hok Hpool Hvalid Hfuel.
  - exists [], w. cbn [EA.create_generation_loop]. unfold bind, get_self.
    destruct (Z.ltb_spec (Z.of_nat (length ng)) (EA.generation_size (self w))); [lia|].
    unfold ret. rewrite app_nil_r. split; [reflexivity|].
    split; [apply evolves_refl; exact Hok|]. split; [reflexivity|].
    split; [constructor|]. symmetry. apply filled_done. lia.
  - cbn [EA.create_generation_loop]. unfold bind at 1, get_self.
    destruct (Z.ltb_spec (Z.of_nat (length ng)) (EA.generation_size (self w))) as [Hlt|Hge].
    2:{ exists [], w. unfold ret. rewrite app_nil_r. split; [reflexivity|].
        split; [apply evolves_refl; exact Hok|]. split; [reflexivity|].
        split; [constructor|]. symmetry. apply filled_done. lia. }
    destruct (sample2_total pool w Hpool) as (p0 & p1 & Hsample & Hp0 & Hp1).
    erewrite bind_ok by exact Hsample. cbv beta iota.
    rewrite Forall_forall in Hvalid.
    pose proof (Hvalid p0 Hp0) as Hv0. pose proof (Hvalid p1 Hp1) as Hv1.
    unfold chromosome_valid in Hv0, Hv1.
    set (w0 := after_draws w 2).
    assert (He0 : evolves w w0) by (apply evolves_after_draws; exact Hok).
    assert (Hl0 : length (heap w0) = length (heap w)) by reflexivity.
    destruct (crossover_total w0 (Chromosome.solution p0) (Chromosome.solution p1))
      as (w1 & Hcross & He1 & Hl1); [apply He0 | lia | lia |].
    erewrite bind_ok by exact Hcross. cbv beta iota.
    rewrite Hl0 in Hl1.
    destruct (mutation_total w1 (Chromosome.solution p0)) as (w2 & Hmut1 & He2 & Hl2);
      [apply He1 | lia |].
    erewrite bind_ok by exact Hmut1.
    rewrite Hl1 in Hl2.
    destruct (mutation_total w2 (Chromosome.solution p1)) as (w3 & Hmut2 & He3 & Hl3);
      [apply He2 | lia |].
    erewrite bind_ok by exact Hmut2.
    rewrite Hl2 in Hl3.
    destruct (fitness_total w3 (Chromosome.solution p0)) as (f1 & w4 & Hfit1 & He4 & Hh4 & _);
      [apply He3 | lia |].
    erewrite bind_ok by exact Hfit1.
    assert (Hl4 : length (heap w4) = length (heap w)) by (rewrite Hh4; exact Hl3).
    destruct (fitness_total w4 (Chromosome.solution p1)) as (f2 & w5 & Hfit2 & He5 & Hh5 & _);
      [apply He4 | lia |].
    erewrite bind_ok by exact Hfit2.
    assert (Hlen5 : length (heap w5) = length (heap w)) by (rewrite Hh5; exact Hl4).
    assert (Hev : evolves w w5).
    { eapply evolves_trans; [exact He0|]. eapply evolves_trans; [exact He1|].
      eapply evolves_trans; [exact He2|]. eapply evolves_trans; [exact He3|].
      eapply evolves_trans; [exact He4 | exact He5]. }
    assert (Hgs : EA.generation_size (self w5) = EA.generation_size (self w)).
    { destruct Hev as (_ & _ & _ & Hset & _). exact (f_equal EA.generation_size Hset). }
    destruct (IH ((ng ++ [Chromosome.mk (Chromosome.solution p0) f1])
                    ++ [Chromosome.mk (Chromosome.solution p1) f2]) w5)
      as (children & w' & Hrun & He' & Hl' & Hfrom & Hsize).
    { apply Hev. }
    { exact Hpool. }
    { apply Forall_forall. intros c Hc. unfold chromosome_valid.
      rewrite Hlen5. apply Hvalid. exact Hc. }
    { rewrite Hgs, !length_app. simpl. lia. }
    exists ([Chromosome.mk (Chromosome.solution p0) f1;
             Chromosome.mk (Chromosome.solution p1) f2] ++ children), w'.
    split; [rewrite Hrun; f_equal; f_equal; rewrite <- !app_assoc; reflexivity|].
    split; [eapply evolves_trans; eassumption|].
    split; [congruence|].
    split.
    + constructor; [exists p0; split; [exact Hp0 | reflexivity]|].
      constructor; [exists p1; split; [exact Hp1 | reflexivity]|]. exact Hfrom.
    + rewrite <- !app_assoc in Hsize. simpl in Hsize.
      replace (ng ++ [_; _] ++ children) with
        (ng ++ Chromosome.mk (Chromosome.solution p0) f1
            :: Chromosome.mk (Chromosome.solution p1) f2 :: children) by reflexivity.
      rewrite Hsize, Hgs, !length_app. simpl length.
      replace (length ng + 1 + 1)%nat with (length ng + 2)%nat by lia.
      apply filled_step. exact Hlt.
Qed.


(** The new generation, its size and where its lists come from. *)
Lemma create_generation_spec (w : World (EA.t F)) (pool : list Chromosome.t) :
  world_ok w ->
  (2 <= length pool)%nat ->
  Forall (chromosome_valid w) pool ->
  exists new_generation w',
    EA.create_generation pool w = (Ok new_generation, w')
    /\ evolves w w'
    /\ length (heap w') = length (heap w)
    /\ Forall (from_pool pool) new_generation
    /\ Z.of_nat (length new_generation)
       = Z.max 0 (2 * ((EA.generation_size (self w) + 1) / 2)).
Proof.
  intros Hok Hpool Hvalid. unfold EA.create_generation. unfold bind, get_self.
  destruct (create_generation_loop_total (Z.to_nat (EA.generation_size (self w)))
              pool [] w Hok Hpool Hvalid) as (g & w' & Hrun & Hev & Hlen & Hfrom & Hsize).
  { simpl. lia. }
  exists g, w'. split; [exact Hrun|]. split; [exact Hev|]. split; [exact Hlen|].
  split; [exact Hfrom|]. simpl in Hsize. rewrite Hsize. unfold filled. simpl.
  rewrite Z.sub_0_r. reflexivity.
Qed.

(** [create_generation] on a pool of at least two chromosomes whose lists are
    in the store completes; it creates no list, every chromosome of the new
    generation holds the list of a chromosome of the pool, and the new
    generation has [generation_size] chromosomes, one more when that number
    is odd, none when it is negative. *)
Theorem create_generation_total (w : World (EA.t F)) (pool : list Chromosome.t) :
  world_ok w ->
  (2 <= length pool)%nat ->
  Forall (chromosome_valid w) pool ->
  exists new_generation w',
    EA.create_generation pool w = (Ok new_generation, w')
    /\ evolves w w'
    /\ length (heap w') = length (heap w)
    /\ Forall (from_pool pool) new_generation
    /\ Z.of_nat (length new_generation)
       = Z.max 0 (2 * ((EA.generation_size (self w) + 1) / 2)).
Proof. exact (create_generation_spec w pool). Qed.

(** The first comprehension of [initial_population]: one new list of [L]
    random bits per element of [ys]. *)
Lemma random_solutions_total {A} (ys : list A) (w : World (EA.t F)) :
  world_ok w ->
  EA.num_literals (self w) = Z.of_nat L ->
  exists w',
    comprehension ys (fun _ =>
      let* bits := comprehension (range (EA.num_literals (self w)))
                     (fun _ => randint 0 1) in
      alloc bits) w
      = (Ok (seq (length (heap w)) (length ys)), w')
    /\ evolves w w'
    /\ length (heap w') = (length (heap w) + length ys)%nat
    /\ EA.top_chromosome (self w') = EA.top_chromosome (self w).
Proof.
  intros Hok Hn. revert w Hok Hn. induction ys as [|y ys IH]; intros w Hok Hn.
  - exists w. simpl. unfold ret. split; [reflexivity|].
    split; [apply evolves_refl; exact Hok|]. split; [lia | reflexivity].
  - cbn [comprehension].
    destruct (random_bits_total (range (EA.num_literals (self w))) w)
      as (bits & Hbits & Hlen & _).
    set (w1 := after_draws w (N.of_nat (length (range (EA.num_literals (self w)))))) in *.
    set (w2 := mkWorld (heap w1 ++ [bits]) (tape w1) (cursor w1) (self w1)).
    assert (Hok2 : world_ok w2).
    { destruct Hok as (Hheap & Hengine & Htop).
      split; [|split; [exact Hengine|]].
      - unfold heap_ok. simpl. apply Forall_app. split; [exact Hheap|].
        constructor; [|constructor]. rewrite Hlen. unfold range.
        rewrite length_map, length_seq, Hn. lia.
      - intros r Hr. simpl. rewrite length_app. simpl.
        pose proof (Htop r Hr). lia. }
    assert (He2 : evolves w w2).
    { split; [exact Hok2|]. split; [simpl; rewrite length_app; lia|].
      split; [reflexivity|]. split; [reflexivity|].
      split; [reflexivity | left; reflexivity]. }
    destruct (IH w2 Hok2 Hn) as (w' & Hrun & Hev & Hlen' & Htop').
    exists w'.
    erewrite bind_ok; cycle 1.
    { erewrite bind_ok by exact Hbits. reflexivity. }
    change (EA.num_literals (self w)) with (EA.num_literals (self w2)).
    fold w2.
    erewrite bind_ok by exact Hrun. unfold ret.
    split.
    { f_equal. f_equal. simpl. f_equal. rewrite length_app. simpl.
      f_equal. lia. }
    split; [eapply evolves_trans; eassumption|].
    split; [rewrite Hlen'; simpl; rewrite length_app; simpl; lia|].
    rewrite Htop'. reflexivity.
Qed.

(** The second comprehension of [initial_population]. *)
Lemma evaluate_all_total (solutions : list loc) (w : World (EA.t F)) :
  world_ok w ->
  Forall (fun r => (r < length (heap w))%nat) solutions ->
  exists population w',
    comprehension solutions (fun solution =>
      let* f := EA.fitness solution in
      ret (Chromosome.mk solution f)) w = (Ok population, w')
    /\ evolves w w'
    /\ heap w' = heap w
    /\ map Chromosome.solution population = solutions.
Proof.
  revert w. induction solutions as [|r rs IH]; intros w Hok Hvalid.
  - exists [], w. simpl. unfold ret. split; [reflexivity|].
    split; [apply evolves_refl; exact Hok|]. split; reflexivity.
  - apply Forall_cons in Hvalid as [Hr Hrs].
    destruct (fitness_total w r Hok Hr) as (f & w1 & Hfit & He1 & Hh1 & _).
    destruct (IH w1) as (population & w' & Hrun & He' & Hh' & Hmap);
      [apply He1 | rewrite Hh1; exact Hrs |].
    exists (Chromosome.mk r f :: population), w'. cbn [comprehension].
    erewrite bind_ok; cycle 1.
    { erewrite bind_ok by exact Hfit. reflexivity. }
    erewrite bind_ok by exact Hrun. unfold ret.
    split; [reflexivity|]. split; [eapply evolves_trans; eassumption|].
    split; [congruence|]. simpl. f_equal. exact Hmap.
Qed.

(** The first population and the lists it is built on. *)
Lemma initial_population_spec (w : World (EA.t F)) :
  world_ok w ->
  EA.num_literals (self w) = Z.of_nat L ->
  exists population w',
    EA.initial_population w = (Ok population, w')
    /\ evolves w w'
    /\ length population = Z.to_nat (EA.generation_size (self w))
    /\ Forall (chromosome_valid w') population
    /\ map Chromosome.solution population
       = seq (length (heap w)) (Z.to_nat (EA.generation_size (self w)))
    /\ length (heap w')
       = (length (heap w) + Z.to_nat (EA.generation_size (self w)))%nat.
Proof.
  intros Hok Hn. unfold EA.initial_population. unfold bind at 1, get_self.
  destruct (random_solutions_total (range (EA.generation_size (self w))) w Hok Hn)
    as (w1 & Hsol & He1 & Hl1 & _).
  erewrite bind_ok by exact Hsol.
  destruct (evaluate_all_total
              (seq (length (heap w)) (length (range (EA.generation_size (self w))))) w1)
    as (population & w' & Hrun & He' & Hh' & Hmap).
  { apply He1. }
  { apply Forall_forall. intros r Hr. apply elem_of_seq in Hr. lia. }
  exists population, w'. split; [exact Hrun|].
  split; [eapply evolves_trans; eassumption|].
  assert (Hcount : length (range (EA.generation_size (self w)))
                   = Z.to_nat (EA.generation_size (self w)))
    by (unfold range; rewrite length_map, length_seq; reflexivity).
  rewrite Hcount in *.
  split; [rewrite <- (length_map Chromosome.solution), Hmap, length_seq; reflexivity|].
  split; [|split; [exact Hmap | rewrite Hh'; exact Hl1]].
  apply Forall_forall. intros c Hc. unfold chromosome_valid.
  assert (Hin : Chromosome.solution c ∈ map Chromosome.solution population)
    by (apply list_elem_of_fmap; exists c; split; [reflexivity | exact Hc]).
  rewrite Hmap in Hin. apply elem_of_seq in Hin. rewrite Hh'. lia.
Qed.



Lemma max_by_fitness_nonempty (chromosomes : list Chromosome.t) :
  chromosomes <> [] -> exists c, EA.max_by_fitness chromosomes = Ok c.
Proof. destruct chromosomes; [contradiction|]. intros _. eexists. reflexivity. Qed.

Lemma selection_subset (chromosomes : list Chromosome.t) x :
  x ∈ EA.selection chromosomes -> x ∈ chromosomes.
Proof.
  intros Hx. destruct (selection_split chromosomes) as (rest & Hperm & _).
  rewrite <- Hperm. apply elem_of_app. left. exact Hx.
Qed.

(** What the loop of [run] may do: as [evolves], but the iteration counter
    grows. *)
Definition progresses (w w' : World (EA.t F)) : Prop :=
  world_ok w'
  /\ (length (heap w) <= length (heap w'))%nat
  /\ settings (self w') = settings (self w)
  /\ EA.current_iteration (self w) <= EA.current_iteration (self w')
  /\ (EA.top_chromosome (self w') = EA.top_chromosome (self w)
      \/ satisfiable (EA.clauses (self w))).

Lemma run_loop_total fuel population (w : World (EA.t F)) :
  world_ok w ->
  2 <= EA.generation_size (self w) ->
  (2 <= length population)%nat ->
  Forall (chromosome_valid w) population ->
  EA.max_iterations (self w) + 1 - EA.current_iteration (self w) <= Z.of_nat fuel ->
  exists population' w',
    EA.run_loop fuel population w = (Ok population', w')
    /\ progresses w w'
    /\ population' <> []
    /\ (EA.top_chromosome (self w') = None ->
        EA.max_iterations (self w') < EA.current_iteration (self w'))
    /\ EA.current_iteration (self w')
       <= Z.max (EA.current_iteration (self w)) (EA.max_iterations (self w) + 1).
Proof.
  revert population w.
  induction fuel as [|fuel IH]; intros population w Hok Hgs Hlen Hvalid Hfuel;
    cbn [EA.run_loop]; unfold EA.stop_condition;
    unfold bind at 1; unfold bind at 1, get_self; unfold ret at 1.
  - destruct (Z.ltb_spec (EA.max_iterations (self w)) (EA.current_iteration (self w)))
      as [Hstop|Hgo]; [|lia].
    cbn [orb]. cbv iota. exists population, w. unfold ret. split; [reflexivity|].
    split; [split; [exact Hok|]; split; [lia|]; split; [reflexivity|];
            split; [lia | left; reflexivity]|].
    split; [intros ->; simpl in Hlen; lia|]. split; [intros _; exact Hstop | lia].
  - assert (Hstay :
        (EA.max_iterations (self w) < EA.current_iteration (self w)
         \/ EA.top_chromosome (self w) <> None) ->
        exists population' w',
          ret population w = (Ok population', w')
          /\ progresses w w' /\ population' <> []
          /\ (EA.top_chromosome (self w') = None ->
              EA.max_iterations (self w') < EA.current_iteration (self w'))
          /\ EA.current_iteration (self w')
             <= Z.max (EA.current_iteration (self w)) (EA.max_iterations (self w) + 1)).
    { intros Hwhy. exists population, w. unfold ret. split; [reflexivity|].
      split; [split; [exact Hok|]; split; [lia|]; split; [reflexivity|];
              split; [lia | left; reflexivity]|].
      split; [intros ->; simpl in Hlen; lia|].
      split; [|lia]. intros Hnone.
      destruct Hwhy as [Hlt|Htop]; [exact Hlt | contradiction]. }
    destruct (Z.ltb_spec (EA.max_iterations (self w)) (EA.current_iteration (self w)))
      as [Hstop|Hgo].
    { cbn [orb]. cbv iota. apply Hstay. left. exact Hstop. }
    destruct (EA.top_chromosome (self w)) as [r|] eqn:Htop.
    { cbn [orb]. cbv iota. apply Hstay. right. discriminate. }
    cbn [orb]. cbv iota. clear Hstay.
    destruct (max_by_fitness_nonempty population) as [best Hbest];
      [intros ->; simpl in Hlen; lia|].
    unfold bind at 1, lift. rewrite Hbest.
    destruct (create_generation_spec w (EA.selection population) Hok)
      as (g & w1 & Hgen & He1 & Hl1 & Hfrom & Hsize).
    { destruct (selection_split population) as (_ & _ & Hsel & _).
      rewrite Hsel. lia. }
    { apply Forall_forall. intros c Hc. rewrite Forall_forall in Hvalid.
      apply Hvalid. apply selection_subset. exact Hc. }
    erewrite bind_ok by exact Hgen.
    unfold bind at 1, get_self. unfold bind at 1, set_self.
    set (w2 := mkWorld (heap w1) (tape w1) (cursor w1)
                 (EA.set_current_iteration (EA.current_iteration (self w1) + 1) (self w1))).
    pose proof He1 as (Hok1 & Hle1 & Htape1 & Hset1 & Hit1 & Htop1).
    assert (Hok2 : world_ok w2).
    { destruct Hok1 as (Hheap1 & Hengine1 & Htopv1).
      split; [exact Hheap1|]. split; [exact Hengine1 | exact Htopv1]. }
    assert (Hset2 : settings (self w2) = settings (self w)) by (rewrite <- Hset1; reflexivity).
    assert (Hgs2 : EA.generation_size (self w2) = EA.generation_size (self w))
      by exact (f_equal EA.generation_size Hset2).
    assert (Hmax2 : EA.max_iterations (self w2) = EA.max_iterations (self w))
      by exact (f_equal EA.max_iterations Hset2).
    assert (Hit2 : EA.current_iteration (self w2) = EA.current_iteration (self w) + 1)
      by (simpl; rewrite Hit1; reflexivity).
    assert (Hglen : (2 <= length g)%nat).
    { assert (Hdiv : EA.generation_size (self w) <= 2 * ((EA.generation_size (self w) + 1) / 2)).
      { pose proof (Z.div_mod (EA.generation_size (self w) + 1) 2).
        pose proof (Z.mod_pos_bound (EA.generation_size (self w) + 1) 2). lia. }
      lia. }
    destruct (IH g w2 Hok2) as (population' & w' & Hrun & Hprog & Hne & Hwhy & Hbound).
    { rewrite Hgs2. exact Hgs. }
    { exact Hglen. }
    { apply Forall_forall. intros c Hc. rewrite Forall_forall in Hfrom.
      destruct (Hfrom c Hc) as (p & Hp & Hsol). unfold chromosome_valid.
      rewrite Hsol. simpl. rewrite Hl1.
      rewrite Forall_forall in Hvalid. apply Hvalid. apply selection_subset. exact Hp. }
    { rewrite Hmax2, Hit2. lia. }
    exists population', w'. split; [exact Hrun|].
    destruct Hprog as (Hok' & Hle' & Hset' & Hit' & Htop').
    split.
    { split; [exact Hok'|]. split; [simpl in Hle'; lia|]. split; [congruence|].
      split; [lia|].
      destruct Htop' as [Htop'|Hsat].
      - destruct Htop1 as [Htop1|Hsat]; [|right; exact Hsat].
        left. rewrite Htop'. exact Htop1.
      - right. rewrite <- (settings_clauses _ _ Hset2). exact Hsat. }
    split; [exact Hne|]. split; [exact Hwhy|]. rewrite Hit2, Hmax2 in Hbound. lia.
Qed.


(** The outcome of [run] on a well-formed engine. *)
Lemma run_spec (w : World (EA.t F)) :
  world_ok w ->
  EA.num_literals (self w) = Z.of_nat L ->
  2 <= EA.generation_size (self w) ->
  exists result w',
    EA.run w = (Ok result, w')
    /\ EA.current_iteration (self w')
       <= Z.max (EA.current_iteration (self w)) (EA.max_iterations (self w) + 1)
    /\ match result with
       | Some c =>
           EA.top_chromosome (self w') = Some (Chromosome.solution c)
           /\ (EA.top_chromosome (self w) = None -> satisfiable (EA.clauses (self w)))
       | None =>
           EA.top_chromosome (self w') = None
           /\ EA.max_iterations (self w') < EA.current_iteration (self w')
       end.
Proof.
  intros Hok Hn Hgs. unfold EA.run.
  destruct (initial_population_spec w Hok Hn)
    as (population & w1 & Hinit & He1 & Hlen1 & Hvalid1 & _).
  erewrite bind_ok by exact Hinit. unfold bind at 1, get_self.
  pose proof He1 as (Hok1 & _ & _ & Hset1 & Hit1 & Htop1).
  assert (Hgs1 : EA.generation_size (self w1) = EA.generation_size (self w))
    by exact (f_equal EA.generation_size Hset1).
  assert (Hmax1 : EA.max_iterations (self w1) = EA.max_iterations (self w))
    by exact (f_equal EA.max_iterations Hset1).
  destruct (run_loop_total
              (Z.to_nat (EA.max_iterations (self w1) + 1 - EA.current_iteration (self w1)))
              population w1 Hok1)
    as (population' & w2 & Hloop & Hprog & Hne & Hwhy & Hbound);
    [lia | lia | exact Hvalid1 | lia |].
  erewrite bind_ok by exact Hloop. unfold bind at 1, get_self.
  destruct Hprog as (Hok2 & _ & Hset2 & _ & Htop2).
  assert (Hsat : EA.top_chromosome (self w2) = EA.top_chromosome (self w)
                 \/ satisfiable (EA.clauses (self w))).
  { destruct Htop2 as [Htop2|Hsat];
      [|right; rewrite <- (settings_clauses _ _ Hset1); exact Hsat].
    destruct Htop1 as [Htop1|Hsat]; [left; congruence | right; exact Hsat]. }
  destruct (EA.top_chromosome (self w2)) as [r|] eqn:Htop.
  - assert (Hr : (r < length (heap w2))%nat) by (apply Hok2; exact Htop).
    destruct (world_ok_lookup w2 r Hok2 Hr) as (v & Hv & Hlv).
    erewrite bind_ok by (apply len_eq; exact Hv).
    destruct (Z.eqb_spec (Z.of_nat (length v)) 0) as [Hzero|_]; [lia|].
    destruct (fitness_total w2 r Hok2 Hr) as (f & w3 & Hfit & He3 & _ & _ & _ & Htop3).
    erewrite bind_ok by exact Hfit.
    exists (Some (Chromosome.mk r f)), w3. unfold ret. split; [reflexivity|].
    destruct He3 as (_ & _ & _ & _ & Hit3 & _).
    split; [rewrite Hit3; rewrite Hmax1, Hit1 in Hbound; exact Hbound|].
    split.
    + simpl. destruct Htop3 as [Htop3|Htop3]; [rewrite Htop3; exact Htop | exact Htop3].
    + intros Hnone. destruct Hsat as [Hsame|Hsat]; [congruence | exact Hsat].
  - destruct (max_by_fitness_nonempty population' Hne) as [best Hbest].
    unfold bind, lift. rewrite Hbest.
    exists None, w2. unfold ret. split; [reflexivity|].
    split; [rewrite Hmax1, Hit1 in Hbound; exact Hbound|].
    split; [exact Htop | apply Hwhy; reflexivity].
Qed.

(** [run] on well-formed clauses over [L >= 1] variables, with a population
    of at least two: the call completes, within the iteration budget.  It
    returns a chromosome exactly when an optimum is recorded at the end, which
    happens only for a satisfiable formula; otherwise, with the budget used
    up, it returns [None]. *)
Theorem run_total (w : World (EA.t F)) :
  world_ok w ->
  EA.num_literals (self w) = Z.of_nat L ->
  2 <= EA.generation_size (self w) ->
  exists result w',
    EA.run w = (Ok result, w')
    /\ EA.current_iteration (self w')
       <= Z.max (EA.current_iteration (self w)) (EA.max_iterations (self w) + 1)
    /\ match result with
       | Some c =>
           EA.top_chromosome (self w') = Some (Chromosome.solution c)
           /\ (EA.top_chromosome (self w) = None -> satisfiable (EA.clauses (self w)))
       | None =>
           EA.top_chromosome (self w') = None
           /\ EA.max_iterations (self w') < EA.current_iteration (self w')
       end.
Proof. exact (run_spec w). Qed.

End GeneticEngine.

(** [EA.__init__] builds an engine the lemmas apply to. *)
Lemma init_world_ok {F} `{PyFloat F} (L : nat) clauses tape cursor :
  Forall (well_formed L) clauses ->
  world_ok L (mkWorld [] tape cursor (EA.init clauses (Z.of_nat L))).
Proof.
  intros Hwf. split; [constructor|]. split; [split; [exact Hwf | reflexivity]|].
  intros r Hr. discriminate Hr.
Qed.

(** No assignment satisfies both [[1]] and [[-1]]. *)
Lemma contradiction_unsatisfiable : ~ satisfiable 1 [[1]; [-1]].
Proof.
  intros (v & Hlen & Hall).
  destruct v as [|x [|y v]]; try discriminate Hlen.
  apply Forall_cons in Hall as [H1 Hall]. apply Forall_cons in Hall as [H2 _].
  unfold satisfied in H1, H2.
  change (EA.is_clause_satisfied [x] [1])
    with (if x =? 1 then Ok true else Ok false) in H1.
  change (EA.is_clause_satisfied [x] [-1])
    with (if 1 - x =? 1 then Ok true else Ok false) in H2.
  destruct (Z.eqb_spec x 1) as [Hx|Hx]; [|discriminate H1].
  destruct (Z.eqb_spec (1 - x) 1) as [Hx'|Hx']; [lia | discriminate H2].
Qed.

(** C1.  On the unsatisfiable formula [[1], [-1]], whatever the random source
    yields, no optimum is ever recorded, the iteration budget runs out, and
    [run] returns [None] instead of the best chromosome of the last
    population. *)
Theorem run_returns_none {F} `{PyFloat F} (tape : N -> N) (cursor : N) :
  fst (EA.run (mkWorld [] tape cursor (EA.init (F := F) [[1]; [-1]] 1))) = Ok None.
Proof.
  destruct (run_spec 1 (le_n 1) (mkWorld [] tape cursor (EA.init [[1]; [-1]] 1)))
    as (result & w' & Hrun & _ & Hresult).
  - apply (init_world_ok 1).
    repeat constructor; unfold literal_in_range; simpl; lia.
  - reflexivity.
  - simpl. lia.
  - rewrite Hrun. simpl. destruct result as [c|]; [|reflexivity].
    destruct Hresult as [_ Hsat]. exfalso.
    apply contradiction_unsatisfiable. apply Hsat. reflexivity.
Qed.

(** The pool of one chromosome. *)
Lemma create_generation_small_pool_witness :
  EA.create_generation [Chromosome.mk O 0] ea_reproduction
  = (Raise ValueError, ea_reproduction).
Proof. apply create_generation_small_pool; [simpl; lia | reflexivity]. Defined.

Lemma ea_reproduction_ok : world_ok 2 ea_reproduction.
Proof.
  split; [repeat constructor|]. split.
  - split; [|reflexivity]. repeat constructor; unfold literal_in_range; simpl; lia.
  - intros r Hr. discriminate Hr.
Qed.

(** The two parents [[0; 0]] and [[1; 1]]: a generation of 100 chromosomes,
    no new list. *)
Lemma create_generation_total_witness :
  exists new_generation w',
    EA.create_generation ea_reproduction_pool ea_reproduction = (Ok new_generation, w')
    /\ evolves 2 ea_reproduction w'
    /\ length (heap w') = 2%nat
    /\ Forall (from_pool ea_reproduction_pool) new_generation
    /\ Z.of_nat (length new_generation) = 100.
Proof.
  apply (create_generation_total 2); [lia | apply ea_reproduction_ok | simpl; lia |].
  repeat constructor.
Defined.

Lemma ea_contradiction_ok : world_ok 1 ea_contradiction.
Proof.
  apply (init_world_ok 1). repeat constructor; unfold literal_in_range; simpl; lia.
Qed.


(** The engine on [[1], [-1]]. *)
Lemma run_total_witness :
  exists result w',
    EA.run ea_contradiction = (Ok result, w')
    /\ EA.current_iteration (self w') <= 1001
    /\ match result with
       | Some c =>
           EA.top_chromosome (self w') = Some (Chromosome.solution c)
           /\ (EA.top_chromosome (self ea_contradiction) = None ->
               satisfiable 1 [[1]; [-1]])
       | None =>
           EA.top_chromosome (self w') = None
           /\ EA.max_iterations (self w') < EA.current_iteration (self w')
       end.
Proof.
  apply (run_total 1); [lia | apply ea_contradiction_ok | reflexivity | simpl; lia].
Defined.

(** ** Steps along a preorder *)

Section Steps.
Context {T : Type} (R : World T -> World T -> Prop).
Hypothesis R_refl : forall w, R w w.
Hypothesis R_trans : forall w1 w2 w3, R w1 w2 -> R w2 w3 -> R w1 w3.

(** Whatever its outcome, [m] takes a world to a world related by [R]. *)
Definition steps {A} (m : M T A) : Prop := forall w, R w (snd (m w)).

Lemma steps_ret {A} (a : A) : steps (ret a).
Proof. intros w. apply R_refl. Qed.

Lemma steps_lift {A} (r : res A) : steps (lift r).
Proof. intros w. apply R_refl. Qed.

Lemma steps_raise {A} e : steps (@raise T A e).
Proof. intros w. apply R_refl. Qed.

Lemma steps_stuck {A} : steps (@stuck T A).
Proof. intros w. apply R_refl. Qed.

Lemma steps_get_self : steps get_self.
Proof. intros w. apply R_refl. Qed.

Lemma steps_bind {A B} (m : M T A) (k : A -> M T B) :
  steps m -> (forall a, steps (k a)) -> steps (bind m k).
Proof.
  intros Hm Hk w. unfold bind. specialize (Hm w).
  destruct (m w) as [[a|e|] w1]; simpl in *; [|assumption..].
  eapply R_trans; [exact Hm | apply Hk].
Qed.

Lemma steps_for_each {A} (xs : list A) (body : A -> M T unit) :
  (forall x, steps (body x)) -> steps (for_each xs body).
Proof.
  intros Hbody. induction xs as [|x xs IH]; simpl.
  - apply steps_ret.
  - apply steps_bind; [apply Hbody | intros _; exact IH].
Qed.

Lemma steps_comprehension {A B} (xs : list A) (f : A -> M T B) :
  (forall x, steps (f x)) -> steps (comprehension xs f).
Proof.
  intros Hf. induction xs as [|x xs IH]; simpl.
  - apply steps_ret.
  - apply steps_bind; [apply Hf|]. intros y.
    apply steps_bind; [exact IH|]. intros ys. apply steps_ret.
Qed.

(** A computation that leaves the object [self] alone. *)
Lemma steps_keeps_self {A} (m : M T A) :
  (forall w w', self w' = self w -> R w w') ->
  keeps self m -> steps m.
Proof. intros Hself Hm w. apply Hself. apply Hm. Qed.

Lemma steps_with_self {A} (k : T -> M T A) :
  (forall w, R w (snd (k (self w) w))) -> steps (bind get_self k).
Proof. intros Hk w. exact (Hk w). Qed.

End Steps.

Ltac frame_self := repeat frame_step; try assumption.

(** Computations of the swarm engine that leave the object alone. *)
Section KeepsSelf.
Context {F : Type} `{PyFloat F}.

Lemma keeps_self_fitness r : keeps self (PSO.fitness (F := F) r).
Proof. intros w. rewrite pso_fitness_world. reflexivity. Qed.

Lemma keeps_self_update_velocity {T} (p : Particle.t F) g w0 c1 c2 :
  keeps (T := T) self (Particle.update_velocity p g w0 c1 c2).
Proof. unfold Particle.update_velocity, Particle.velocity_component. frame_self. Qed.

Lemma keeps_self_particle k : keeps self (PSO.particle (F := F) k).
Proof. unfold PSO.particle. frame_self. Qed.

Lemma keeps_self_flip_step r i imp nbr : keeps self (PSO.flip_step (F := F) r i imp nbr).
Proof.
  unfold PSO.flip_step.
  apply keeps_bind; [apply keeps_self_fitness|]. intros fb.
  apply keeps_bind; [frame_self|]. intros _.
  apply keeps_bind; [apply keeps_self_fitness|]. intros fa.
  frame_self.
Qed.

Lemma keeps_self_sweep indices r imp nbr :
  keeps self (PSO.sweep (F := F) indices r imp nbr).
Proof.
  revert imp nbr. induction indices as [|i rest IH]; intros imp nbr; simpl.
  - apply keeps_ret.
  - apply keeps_bind; [apply keeps_self_flip_step|]. intros [imp' nbr']. apply IH.
Qed.

Lemma keeps_self_local_search_loop fuel r max_flip imp nbr :
  keeps self (PSO.local_search_loop (F := F) fuel r max_flip imp nbr).
Proof.
  revert imp nbr. induction fuel as [|fuel IH]; intros imp nbr; simpl.
  - destruct (_ && _); [apply keeps_stuck | apply keeps_ret].
  - destruct (_ && _); [|apply keeps_ret].
    apply keeps_bind; [apply keeps_get_self|]. intros s.
    apply keeps_bind; [apply keeps_self_sweep|]. intros [imp' nbr']. apply IH.
Qed.

Lemma keeps_self_local_search k max_flip :
  keeps self (PSO.local_search (F := F) k max_flip).
Proof.
  unfold PSO.local_search.
  apply keeps_bind; [apply keeps_self_particle|]. intros p.
  apply keeps_self_local_search_loop.
Qed.

Lemma keeps_self_num_satisfied_clauses r :
  keeps self (PSO.num_satisfied_clauses (F := F) r).
Proof. intros w. rewrite num_satisfied_clauses_world. reflexivity. Qed.

End KeepsSelf.

(** ** The recorded best fitness of the swarm *)

Section GlobalBestFitness.
Context {F : Type} `{PyFloat F}.

(** The field [global_best_fitness] has not gone down from [w] to [w']. *)
Definition fitness_kept (w w' : World (PSO.t F)) : Prop :=
  PSO.global_best_fitness (self w) <= PSO.global_best_fitness (self w').

Lemma fitness_kept_refl w : fitness_kept w w.
Proof. unfold fitness_kept. lia. Qed.

Lemma fitness_kept_trans w1 w2 w3 :
  fitness_kept w1 w2 -> fitness_kept w2 w3 -> fitness_kept w1 w3.
Proof. unfold fitness_kept. lia. Qed.

Lemma fitness_kept_self w w' : self w' = self w -> fitness_kept w w'.
Proof. unfold fitness_kept. intros ->. lia. Qed.

Local Hint Resolve fitness_kept_refl fitness_kept_trans : core.

Local Abbreviation rises := (steps fitness_kept).

Lemma rises_keeps {A} (m : M (PSO.t F) A) : keeps self m -> rises m.
Proof. apply steps_keeps_self. exact fitness_kept_self. Qed.

Lemma rises_bind {A B} (m : M (PSO.t F) A) (k : A -> M (PSO.t F) B) :
  rises m -> (forall a, rises (k a)) -> rises (bind m k).
Proof. apply steps_bind; auto. exact fitness_kept_trans. Qed.

Lemma rises_for_each {A} (xs : list A) (body : A -> M (PSO.t F) unit) :
  (forall x, rises (body x)) -> rises (for_each xs body).
Proof. apply steps_for_each; auto. exact fitness_kept_trans. Qed.

Lemma rises_ret {A} (a : A) : rises (ret a).
Proof. apply steps_ret. auto. Qed.

Lemma rises_stuck {A} : rises (@stuck (PSO.t F) A).
Proof. apply steps_stuck. auto. Qed.

Lemma rises_set_particle k p : rises (PSO.set_particle k p).
Proof. intros w. unfold fitness_kept. simpl. lia. Qed.

(** The guarded assignment shared by [calc_fitness_and_global_best] and
    [update_global_best]. *)
Lemma rises_record f g :
  rises (let* s := get_self in
         if PSO.global_best_fitness s <? f then
           set_self (PSO.set_global_best_fitness f s) ;;
           let* s := get_self in
           set_self (PSO.set_global_best g s)
         else ret tt).
Proof.
  intros w. unfold fitness_kept. msimpl.
  destruct (Z.ltb_spec (PSO.global_best_fitness (self w)) f); simpl; lia.
Qed.

Lemma rises_calc_fitness_and_global_best :
  rises (PSO.calc_fitness_and_global_best (F := F)).
Proof.
  unfold PSO.calc_fitness_and_global_best.
  apply rises_bind; [apply rises_keeps, keeps_get_self|]. intros s.
  apply rises_for_each. intros k.
  apply rises_bind; [apply rises_keeps, keeps_self_particle|]. intros p.
  apply rises_bind; [apply rises_keeps, keeps_self_fitness|]. intros f.
  apply rises_bind; [apply rises_set_particle|]. intros _.
  apply rises_record.
Qed.

Lemma rises_update_velocities k : rises (PSO.update_velocities (F := F) k).
Proof.
  unfold PSO.update_velocities.
  apply rises_bind; [apply rises_keeps, keeps_self_particle|]. intros p.
  apply rises_bind; [apply rises_keeps, keeps_get_self|]. intros s.
  apply rises_bind; [apply rises_keeps, keeps_self_update_velocity|]. intros p'.
  apply rises_set_particle.
Qed.

Lemma rises_update_personal_best k : rises (PSO.update_personal_best (F := F) k).
Proof.
  unfold PSO.update_personal_best.
  apply rises_bind; [apply rises_keeps, keeps_self_particle|]. intros p.
  apply rises_bind; [apply rises_keeps, keeps_self_fitness|]. intros f.
  destruct (Particle.gtb _ _); [|apply rises_ret].
  apply rises_bind; [apply rises_set_particle|]. intros _.
  apply rises_bind; [apply rises_keeps, keeps_self_particle|]. intros p'.
  apply rises_set_particle.
Qed.

Lemma rises_update_global_best k : rises (PSO.update_global_best (F := F) k).
Proof.
  unfold PSO.update_global_best.
  apply rises_bind; [apply rises_keeps, keeps_self_particle|]. intros p.
  apply rises_bind; [apply rises_keeps, keeps_self_fitness|]. intros f.
  apply rises_record.
Qed.

Lemma rises_update_clauses_weight : rises (PSO.update_clauses_weight (F := F)).
Proof.
  unfold PSO.update_clauses_weight.
  apply rises_bind; [apply rises_keeps, keeps_get_self|]. intros s.
  apply rises_for_each. intros k.
  intros w1. unfold fitness_kept, bind, get_self, deref, lift. simpl.
  destruct (PSO.clauses (self w1) !! k) as [[clause wt]|]; simpl; [|lia].
  destruct (heap w1 !! _); simpl; [|lia].
  destruct (PSO.is_clause_satisfied _ _); simpl; lia.
Qed.

Lemma rises_iteration max_flip : rises (PSO.iteration (F := F) max_flip).
Proof.
  unfold PSO.iteration.
  apply rises_bind; [apply rises_calc_fitness_and_global_best|]. intros _.
  apply rises_bind; [apply rises_keeps, keeps_get_self|]. intros s.
  apply rises_bind.
  { apply rises_for_each. intros k.
    apply rises_bind; [apply rises_update_velocities|]. intros _.
    apply rises_bind; [apply rises_keeps, keeps_self_local_search|]. intros _.
    apply rises_bind; [apply rises_update_personal_best|]. intros _.
    apply rises_update_global_best. }
  intros _.
  apply rises_bind; [apply rises_update_clauses_weight|]. intros _.
  apply rises_bind; [apply rises_keeps, keeps_get_self|]. intros s'.
  apply rises_keeps, keeps_self_num_satisfied_clauses.
Qed.

Lemma rises_run_loop fuel max_flip it ns :
  rises (PSO.run_loop (F := F) fuel max_flip it ns).
Proof.
  revert it ns. induction fuel as [|fuel IH]; intros it ns; simpl;
    (apply rises_bind; [apply rises_keeps, keeps_get_self|]; intros s).
  - destruct (_ || _); [apply rises_ret | apply rises_stuck].
  - destruct (_ || _); [apply rises_ret|].
    apply rises_bind; [apply rises_iteration|]. intros ns'. apply IH.
Qed.

(** The field [global_best_fitness] never goes down: neither in one pass of
    the loop of [run_WPSOSAT] nor over the whole loop, whatever the outcome
    (normal end or exception), although [local_search] and
    [update_clauses_weight] both change the fitness of the recorded list. *)
Theorem global_best_fitness_never_decreases (w : World (PSO.t F)) max_flip :
  PSO.global_best_fitness (self w)
    <= PSO.global_best_fitness (self (snd (PSO.iteration max_flip w)))
  /\ forall fuel it ns,
       PSO.global_best_fitness (self w)
         <= PSO.global_best_fitness (self (snd (PSO.run_loop fuel max_flip it ns w))).
Proof.
  split; [apply rises_iteration|]. intros fuel it ns. apply rises_run_loop.
Qed.

End GlobalBestFitness.

(** ** Personal bests *)

Section PersonalBest.
Context {F : Type} `{PyFloat F}.

(** The particle's [best] is the very list object of its [position], as
    [Particle.__init__] leaves it. *)
Definition aliased (p : Particle.t F) : Prop := Particle.best p = Particle.position p.

(** What no operation of the loop changes in a particle. *)
Definition frame_of (p : Particle.t F) : loc * Z :=
  (Particle.position p, Particle.num_literals p).

(** Every particle's [best] is its [position] object, and [global_best] is
    the [position] object of one of the particles. *)
Definition anchored (w : World (PSO.t F)) : Prop :=
  Forall aliased (PSO.swarm (self w))
  /\ PSO.global_best (self w) ∈ map Particle.position (PSO.swarm (self w)).

(** From [w] to [w'] the particles keep their position objects and sizes,
    and the swarm stays anchored if it was. *)
Definition swarm_kept (w w' : World (PSO.t F)) : Prop :=
  map frame_of (PSO.swarm (self w')) = map frame_of (PSO.swarm (self w))
  /\ (anchored w -> anchored w').

Lemma positions_of_frames (sw sw' : list (Particle.t F)) :
  map frame_of sw' = map frame_of sw ->
  map Particle.position sw' = map Particle.position sw.
Proof.
  intros Hframe. apply (f_equal (map fst)) in Hframe.
  rewrite <- !list_fmap_compose in Hframe. exact Hframe.
Qed.

Lemma swarm_kept_refl w : swarm_kept w w.
Proof. split; [reflexivity | auto]. Qed.

Lemma swarm_kept_trans w1 w2 w3 :
  swarm_kept w1 w2 -> swarm_kept w2 w3 -> swarm_kept w1 w3.
Proof. intros [H1 A1] [H2 A2]. split; [congruence | auto]. Qed.

Lemma swarm_kept_fields w w' :
  PSO.swarm (self w') = PSO.swarm (self w) ->
  PSO.global_best (self w') = PSO.global_best (self w) ->
  swarm_kept w w'.
Proof. intros Hs Hg. unfold swarm_kept, anchored. rewrite Hs, Hg. auto. Qed.

Lemma swarm_kept_self w w' : self w' = self w -> swarm_kept w w'.
Proof. intros Hs. apply swarm_kept_fields; rewrite Hs; reflexivity. Qed.

Local Abbreviation tracks := (steps swarm_kept).

Lemma tracks_keeps {A} (m : M (PSO.t F) A) : keeps self m -> tracks m.
Proof. apply steps_keeps_self. exact swarm_kept_self. Qed.

Lemma tracks_bind {A B} (m : M (PSO.t F) A) (k : A -> M (PSO.t F) B) :
  tracks m -> (forall a, tracks (k a)) -> tracks (bind m k).
Proof. apply steps_bind. exact swarm_kept_trans. Qed.

Lemma tracks_for_each {A} (xs : list A) (body : A -> M (PSO.t F) unit) :
  (forall x, tracks (body x)) -> tracks (for_each xs body).
Proof. apply steps_for_each; [exact swarm_kept_refl | exact swarm_kept_trans]. Qed.

Lemma tracks_ret {A} (a : A) : tracks (ret a).
Proof. apply steps_ret. exact swarm_kept_refl. Qed.

Lemma tracks_stuck {A} : tracks (@stuck (PSO.t F) A).
Proof. apply steps_stuck. exact swarm_kept_refl. Qed.

(** Writing back, at its own place, a particle with the same position. *)
Lemma swarm_kept_set_particle (w : World (PSO.t F)) k p p' :
  PSO.swarm (self w) !! k = Some p ->
  frame_of p' = frame_of p ->
  (aliased p -> aliased p') ->
  swarm_kept w (snd (PSO.set_particle k p' w)).
Proof.
  intros Hp Hframe Halias.
  assert (Hsame : map frame_of (<[k := p']> (PSO.swarm (self w)))
                  = map frame_of (PSO.swarm (self w))).
  { rewrite list_fmap_insert, Hframe. apply list_insert_id.
    rewrite list_lookup_fmap, Hp. reflexivity. }
  split; [exact Hsame|]. intros [Hall Hg]. split; simpl.
  - apply Forall_insert; [exact Hall|].
    apply Halias. rewrite Forall_lookup in Hall. exact (Hall k p Hp).
  - rewrite (positions_of_frames _ _ Hsame). exact Hg.
Qed.

(** The assignments to [global_best_fitness] and [global_best], when the
    new global best is the position of a particle. *)
Lemma swarm_kept_record (w : World (PSO.t F)) f g :
  (anchored w -> g ∈ map Particle.position (PSO.swarm (self w))) ->
  swarm_kept w
    (snd ((let* s := get_self in
           if PSO.global_best_fitness s <? f then
             set_self (PSO.set_global_best_fitness f s) ;;
             let* s := get_self in
             set_self (PSO.set_global_best g s)
           else ret tt) w)).
Proof.
  intros Hg. msimpl.
  destruct (_ <? _); [|apply swarm_kept_refl].
  split; [reflexivity|]. intros Hw. split; [apply Hw | exact (Hg Hw)].
Qed.

Lemma position_in_swarm (sw : list (Particle.t F)) k p :
  sw !! k = Some p -> Particle.position p ∈ map Particle.position sw.
Proof.
  intros Hp. apply list_elem_of_fmap. exists p. split; [reflexivity|].
  eapply list_elem_of_lookup_2. exact Hp.
Qed.

Lemma fitness_run (w : World (PSO.t F)) r :
  PSO.fitness r w = (fst (PSO.fitness r w), w).
Proof.
  rewrite <- (pso_fitness_world w r) at 3. destruct (PSO.fitness r w); reflexivity.
Qed.

Lemma tracks_calc_fitness_and_global_best :
  tracks (PSO.calc_fitness_and_global_best (F := F)).
Proof.
  unfold PSO.calc_fitness_and_global_best.
  apply tracks_bind; [apply tracks_keeps, keeps_get_self|]. intros s.
  apply tracks_for_each. intros k w.
  unfold PSO.particle. msimpl.
  destruct (PSO.swarm (self w) !! k) as [p|] eqn:Hp; [|apply swarm_kept_refl].
  rewrite fitness_run.
  destruct (fst (PSO.fitness (Particle.position p) w)) as [f|e|];
    [|apply swarm_kept_refl..].
  apply swarm_kept_trans
    with (snd (PSO.set_particle k (Particle.set_fitness (Particle.Int f) p) w)).
  - apply (swarm_kept_set_particle w k p); [exact Hp | reflexivity | auto].
  - apply (swarm_kept_record
             (snd (PSO.set_particle k (Particle.set_fitness (Particle.Int f) p) w))).
    intros _. simpl.
    apply (position_in_swarm _ k (Particle.set_fitness (Particle.Int f) p)).
    apply list_lookup_insert_eq. eapply lookup_lt_Some. exact Hp.
Qed.

Lemma update_velocity_result {T} (p p' : Particle.t F) g w0 c1 c2 (w : World T) :
  fst (Particle.update_velocity p g w0 c1 c2 w) = Ok p' ->
  exists v, p' = Particle.set_velocity v p.
Proof.
  unfold Particle.update_velocity.
  erewrite bind_ok by apply random_eq. erewrite bind_ok by apply random_eq.
  unfold bind.
  destruct (comprehension _ _ _) as [[v|e|] w1]; simpl; [|discriminate..].
  intros [= <-]. eauto.
Qed.

Lemma tracks_update_velocities k : tracks (PSO.update_velocities (F := F) k).
Proof.
  intros w. unfold PSO.update_velocities, PSO.particle. msimpl.
  destruct (PSO.swarm (self w) !! k) as [p|] eqn:Hp; [|apply swarm_kept_refl].
  unfold bind.
  pose proof (keeps_self_update_velocity (T := PSO.t F) p
                (PSO.global_best (self w)) (PSO.w (self w)) (PSO.c1 (self w))
                (PSO.c2 (self w)) w) as Hself.
  pose proof (fun p' => update_velocity_result p p' (PSO.global_best (self w))
                (PSO.w (self w)) (PSO.c1 (self w)) (PSO.c2 (self w)) w) as Hres.
  destruct (Particle.update_velocity _ _ _ _ _ w) as [[p'|e|] w1]; simpl in *;
    [|apply swarm_kept_self; exact Hself..].
  destruct (Hres p' eq_refl) as [v ->].
  eapply swarm_kept_trans; [apply swarm_kept_self; exact Hself|].
  apply (swarm_kept_set_particle w1 k p); [rewrite Hself; exact Hp | reflexivity | auto].
Qed.

Lemma tracks_update_personal_best k : tracks (PSO.update_personal_best (F := F) k).
Proof.
  intros w. unfold PSO.update_personal_best, PSO.particle. msimpl.
  destruct (PSO.swarm (self w) !! k) as [p|] eqn:Hp; [|apply swarm_kept_refl].
  rewrite fitness_run.
  destruct (fst (PSO.fitness (Particle.best p) w)) as [f|e|];
    [|apply swarm_kept_refl..].
  destruct (Particle.gtb _ _); [|apply swarm_kept_refl].
  unfold PSO.set_particle. msimpl. cbn [PSO.swarm PSO.set_swarm].
  rewrite list_lookup_insert_eq by (eapply lookup_lt_Some; exact Hp).
  cbn [snd self PSO.swarm PSO.set_swarm]. rewrite list_insert_insert_eq.
  apply (swarm_kept_set_particle w k p); [exact Hp | reflexivity | reflexivity].
Qed.

Lemma tracks_update_global_best k : tracks (PSO.update_global_best (F := F) k).
Proof.
  intros w. unfold PSO.update_global_best, PSO.particle.
  unfold bind at 1 2, get_self.
  destruct (PSO.swarm (self w) !! k) as [p|] eqn:Hp; [|apply swarm_kept_refl].
  unfold ret. unfold bind at 1. rewrite fitness_run.
  destruct (fst (PSO.fitness (Particle.best p) w)) as [f|e|];
    [|apply swarm_kept_refl..].
  apply swarm_kept_record. intros [Hall _].
  rewrite Forall_lookup in Hall. rewrite (Hall k p Hp).
  eapply position_in_swarm. exact Hp.
Qed.

Lemma tracks_update_clauses_weight : tracks (PSO.update_clauses_weight (F := F)).
Proof.
  intros w. destruct (update_clauses_weight_spec w) as (cs' & -> & _).
  apply swarm_kept_fields; reflexivity.
Qed.

Lemma tracks_iteration max_flip : tracks (PSO.iteration (F := F) max_flip).
Proof.
  unfold PSO.iteration.
  apply tracks_bind; [apply tracks_calc_fitness_and_global_best|]. intros _.
  apply tracks_bind; [apply tracks_keeps, keeps_get_self|]. intros s.
  apply tracks_bind.
  { apply tracks_for_each. intros k.
    apply tracks_bind; [apply tracks_update_velocities|]. intros _.
    apply tracks_bind; [apply tracks_keeps, keeps_self_local_search|]. intros _.
    apply tracks_bind; [apply tracks_update_personal_best|]. intros _.
    apply tracks_update_global_best. }
  intros _.
  apply tracks_bind; [apply tracks_update_clauses_weight|]. intros _.
  apply tracks_bind; [apply tracks_keeps, keeps_get_self|]. intros s'.
  apply tracks_keeps, keeps_self_num_satisfied_clauses.
Qed.

Lemma tracks_run_loop fuel max_flip it ns :
  tracks (PSO.run_loop (F := F) fuel max_flip it ns).
Proof.
  revert it ns. induction fuel as [|fuel IH]; intros it ns; simpl;
    (apply tracks_bind; [apply tracks_keeps, keeps_get_self|]; intros s).
  - destruct (_ || _); [apply tracks_ret | apply tracks_stuck].
  - destruct (_ || _); [apply tracks_ret|].
    apply tracks_bind; [apply tracks_iteration|]. intros ns'. apply IH.
Qed.

(** No step of the loop of [run_WPSOSAT] binds a particle's [position] to
    another list ([update_positions] is not called).  In a swarm as
    [PSO.__init__] builds it, where every particle's [best] is its own
    [position] object and [global_best] is the [position] object of a
    particle, this stays so whatever the outcome of the loop: neither the
    personal bests nor the global best are ever records of an earlier
    position, they are the lists the local search rewrites. *)
Theorem personal_best_is_position (w : World (PSO.t F)) fuel max_flip it ns :
  Forall (fun p => Particle.best p = Particle.position p) (PSO.swarm (self w)) ->
  PSO.global_best (self w) ∈ map Particle.position (PSO.swarm (self w)) ->
  let w' := snd (PSO.run_loop fuel max_flip it ns w) in
  map Particle.position (PSO.swarm (self w'))
    = map Particle.position (PSO.swarm (self w))
  /\ Forall (fun p => Particle.best p = Particle.position p) (PSO.swarm (self w'))
  /\ PSO.global_best (self w') ∈ map Particle.position (PSO.swarm (self w')).
Proof.
  intros Hall Hg.
  destruct (tracks_run_loop fuel max_flip it ns w) as [Hframe Hanchored].
  split; [apply positions_of_frames; exact Hframe|].
  apply Hanchored. split; assumption.
Qed.

End PersonalBest.

(** ** The swarm engine on well-formed input *)

(** A comprehension whose function reads the world without changing it. *)
Lemma comprehension_total {T A B} (xs : list A) (f : A -> M T B) (w : World T) :
  (forall x, x ∈ xs -> exists y, f x w = (Ok y, w)) ->
  exists ys, comprehension xs f w = (Ok ys, w) /\ length ys = length xs.
Proof.
  induction xs as [|x xs IH]; intros Hf; simpl.
  - exists []. split; reflexivity.
  - destruct (Hf x) as [y Hy]; [left|].
    destruct IH as (ys & Hys & Hlen); [intros z Hz; apply Hf; right; exact Hz|].
    exists (y :: ys). erewrite bind_ok by exact Hy. erewrite bind_ok by exact Hys.
    split; [reflexivity | simpl; f_equal; exact Hlen].
Qed.

Lemma bind_get_self {T A} (k : T -> M T A) (w : World T) :
  bind get_self k w = k (self w) w.
Proof. reflexivity. Qed.

Lemma length_range n : length (range n) = Z.to_nat n.
Proof. unfold range. rewrite length_map, length_seq. reflexivity. Qed.

Lemma elem_of_range i n : i ∈ range n -> 0 <= i < n.
Proof.
  unfold range. intros Hi. apply list_elem_of_fmap in Hi as (k & -> & Hk).
  apply elem_of_seq in Hk. lia.
Qed.


(** ** Building the swarm *)

Section SwarmInit.
Context {F : Type} `{PyFloat F}.

(** [[2 * random() - 1 for x in xs]]: one draw per element. *)
Lemma random_velocity_total {T A} (xs : list A) (w : World T) :
  exists vs : list F,
    comprehension xs (fun _ =>
      let* r := random in
      ret (f_sub (f_mul (f_of_Z 2) r) (f_of_Z 1))) w
      = (Ok vs, after_draws w (N.of_nat (length xs)))
    /\ length vs = length xs.
Proof.
  revert w. induction xs as [|x xs IH]; intros w.
  - exists []. simpl. unfold ret, after_draws. rewrite N.add_0_r.
    destruct w; simpl. split; reflexivity.
  - destruct (IH (after_draws w 1)) as (vs & Hrun & Hlen).
    eexists (_ :: vs). cbn [comprehension].
    erewrite bind_ok; cycle 1.
    { erewrite bind_ok by apply random_eq. reflexivity. }
    erewrite bind_ok by exact Hrun. unfold ret.
    split; [f_equal; unfold after_draws; simpl; f_equal; lia|].
    simpl. f_equal. exact Hlen.
Qed.

(** [Particle.__init__]: one new list, bound to both [position] and [best];
    two draws per variable. *)
Lemma particle_init_total {T} n (w : World T) :
  exists bits (v : list F),
    Particle.init n w
      = (Ok (Particle.mk n (length (heap w)) (length (heap w)) v Particle.NegInf),
         mkWorld (heap w ++ [bits]) (tape w)
           (cursor w + 2 * N.of_nat (Z.to_nat n)) (self w))
    /\ length bits = Z.to_nat n
    /\ length v = Z.to_nat n
    /\ Forall (fun b => b = 0 \/ b = 1) bits.
Proof.
  destruct (random_bits_total (range n) w) as (bits & Hbits & Hlen & Hbit).
  set (w1 := after_draws w (N.of_nat (length (range n)))) in *.
  set (w2 := mkWorld (heap w1 ++ [bits]) (tape w1) (cursor w1) (self w1)).
  destruct (random_velocity_total (range n) w2) as (v & Hv & Hlenv).
  exists bits, v. unfold Particle.init.
  erewrite bind_ok by exact Hbits.
  rewrite (bind_ok (alloc bits) _ w1 (length (heap w1)) w2 eq_refl).
  erewrite bind_ok by exact Hv.
  rewrite length_range in *.
  split; [|repeat split; assumption].
  unfold ret, after_draws. simpl. rewrite length_range. f_equal. f_equal. lia.
Qed.

(** What [Particle.__init__] leaves in a particle over [n] variables. *)
Definition fresh_particle (n : Z) (r : loc) (p : Particle.t F) : Prop :=
  Particle.position p = r
  /\ Particle.best p = r
  /\ Particle.num_literals p = n
  /\ length (Particle.velocity p) = Z.to_nat n
  /\ Particle.fitness p = Particle.NegInf.

(** [PSO.init_particles]: the i-th particle is built on the i-th new list. *)
Lemma init_particles_total {T A} (ys : list A) n (w : World T) :
  exists (ps : list (Particle.t F)) new,
    comprehension ys (fun _ => Particle.init n) w
      = (Ok ps,
         mkWorld (heap w ++ new) (tape w)
           (cursor w + 2 * N.of_nat (Z.to_nat n) * N.of_nat (length ys)) (self w))
    /\ length ps = length ys
    /\ length new = length ys
    /\ Forall (fun l => length l = Z.to_nat n) new
    /\ (forall i p, ps !! i = Some p -> fresh_particle n (length (heap w) + i)%nat p).
Proof.
  revert w. induction ys as [|y ys IH]; intros w.
  - exists [], []. simpl. unfold ret. rewrite app_nil_r, N.mul_0_r, N.add_0_r.
    destruct w; simpl. split; [reflexivity|]. split; [reflexivity|].
    split; [reflexivity|]. split; [constructor|]. intros i p Hp. discriminate Hp.
  - destruct (particle_init_total n w) as (bits & v & Hinit & Hlen & Hlenv & _).
    set (w1 := mkWorld (heap w ++ [bits]) (tape w)
                 (cursor w + 2 * N.of_nat (Z.to_nat n)) (self w)) in *.
    destruct (IH w1) as (ps & new & Hrun & Hps & Hnew & Hall & Hfresh).
    eexists (_ :: ps), (bits :: new). cbn [comprehension].
    erewrite bind_ok by exact Hinit. erewrite bind_ok by exact Hrun.
    split.
    { unfold ret. simpl. f_equal. f_equal; [rewrite <- app_assoc; reflexivity | lia]. }
    split; [simpl; f_equal; exact Hps|].
    split; [simpl; f_equal; exact Hnew|].
    split; [constructor; assumption|].
    intros [|i] p Hp.
    + injection Hp as <-. rewrite Nat.add_0_r. repeat split. exact Hlenv.
    + specialize (Hfresh i p Hp). simpl in Hfresh.
      rewrite length_app in Hfresh. simpl in Hfresh.
      replace (length (heap w) + S i)%nat with (length (heap w) + 1 + i)%nat by lia.
      exact Hfresh.
Qed.

End SwarmInit.
Section SwarmEngine.
Context {F : Type} `{PyFloat F}.
Variable L : nat.

(** A particle over [L] variables whose lists are among the [n] of the store. *)
Definition particle_ok (n : nat) (p : Particle.t F) : Prop :=
  (Particle.position p < n)%nat
  /\ (Particle.best p < n)%nat
  /\ Particle.num_literals p = Z.of_nat L
  /\ length (Particle.velocity p) = L.

(** Every list of the store is an assignment over [L] variables, the clauses
    name these variables, and the references of the object are in the store. *)
Definition swarm_ok (w : World (PSO.t F)) : Prop :=
  heap_ok L (heap w)
  /\ Forall (well_formed L) (map fst (PSO.clauses (self w)))
  /\ PSO.num_literals (self w) = Z.of_nat L
  /\ Forall (particle_ok (length (heap w))) (PSO.swarm (self w))
  /\ (PSO.global_best (self w) < length (heap w))%nat.

(** What the loop of [run_WPSOSAT] reads and never writes. *)
Definition limits (w : World (PSO.t F)) : Z * Z * nat * nat * list (list Z) :=
  (PSO.num_clauses (self w), PSO.max_iteration (self w),
   length (PSO.swarm (self w)), length (heap w),
   map fst (PSO.clauses (self w))).

(** A step between well-formed worlds. *)
Definition advances (w w' : World (PSO.t F)) : Prop :=
  swarm_ok w' /\ limits w' = limits w.

Lemma advances_refl w : swarm_ok w -> advances w w.
Proof. intros Hok. split; [exact Hok | reflexivity]. Qed.

Lemma advances_trans w1 w2 w3 : advances w1 w2 -> advances w2 w3 -> advances w1 w3.
Proof. intros [_ H1] [Hok H2]. split; [exact Hok | congruence]. Qed.

Lemma swarm_ok_lookup w (r : loc) :
  swarm_ok w -> (r < length (heap w))%nat ->
  exists v, heap w !! r = Some v /\ length v = L.
Proof.
  intros (Hheap & _) Hr.
  destruct (lookup_lt_is_Some_2 (heap w) r Hr) as [v Hv].
  exists v. split; [exact Hv|].
  unfold heap_ok in Hheap. rewrite Forall_lookup in Hheap. eapply Hheap. exact Hv.
Qed.

Lemma swarm_ok_particle w k :
  swarm_ok w -> (k < length (PSO.swarm (self w)))%nat ->
  exists p, PSO.particle k w = (Ok p, w)
    /\ PSO.swarm (self w) !! k = Some p
    /\ particle_ok (length (heap w)) p.
Proof.
  intros (_ & _ & _ & Hswarm & _) Hk.
  destruct (lookup_lt_is_Some_2 _ _ Hk) as [p Hp].
  exists p. unfold PSO.particle. msimpl. rewrite Hp.
  split; [reflexivity|]. split; [reflexivity|].
  rewrite Forall_lookup in Hswarm. exact (Hswarm k p Hp).
Qed.

Lemma swarm_fitness_total w r :
  swarm_ok w -> (r < length (heap w))%nat ->
  exists f, PSO.fitness r w = (Ok f, w).
Proof.
  intros Hok Hr. destruct (swarm_ok_lookup w r Hok Hr) as (v & Hv & Hlen).
  destruct Hok as (_ & Hwf & _).
  destruct (weighted_sum_total v (PSO.clauses (self w)) 0) as [f Hf];
    [rewrite Hlen; exact Hwf|].
  exists f. rewrite (pso_fitness_eq w r v Hv), Hf. reflexivity.
Qed.

(** Writing a well-formed particle back into the swarm. *)
Lemma advances_set_particle w k p :
  swarm_ok w -> particle_ok (length (heap w)) p ->
  advances w (snd (PSO.set_particle k p w)).
Proof.
  intros (Hheap & Hwf & Hn & Hswarm & Hg) Hp.
  split; [|unfold limits; simpl; rewrite length_insert; reflexivity].
  split; [exact Hheap|]. split; [exact Hwf|]. split; [exact Hn|].
  split; [|exact Hg]. simpl.
  destruct (decide (k < length (PSO.swarm (self w)))%nat) as [Hk|Hk].
  - apply Forall_insert; assumption.
  - rewrite list_insert_ge by lia. exact Hswarm.
Qed.

(** Recording a new global best among the lists of the store. *)
Lemma advances_record w f g :
  swarm_ok w -> (g < length (heap w))%nat ->
  advances w (mkWorld (heap w) (tape w) (cursor w)
                (PSO.set_global_best g (PSO.set_global_best_fitness f (self w)))).
Proof.
  intros (Hheap & Hwf & Hn & Hswarm & Hg) Hr.
  split; [|reflexivity]. repeat split; assumption.
Qed.

(** The guarded assignment of [calc_fitness_and_global_best] and
    [update_global_best]. *)
Lemma record_eq (w : World (PSO.t F)) f g :
  (let* s := get_self in
   if PSO.global_best_fitness s <? f then
     set_self (PSO.set_global_best_fitness f s) ;;
     let* s := get_self in
     set_self (PSO.set_global_best g s)
   else ret tt) w
  = (Ok tt,
     if PSO.global_best_fitness (self w) <? f
     then mkWorld (heap w) (tape w) (cursor w)
            (PSO.set_global_best g (PSO.set_global_best_fitness f (self w)))
     else w).
Proof. msimpl. destruct (_ <? _); reflexivity. Qed.

Lemma advances_after_draws w n : swarm_ok w -> advances w (after_draws w n).
Proof. intros Hok. split; [exact Hok | reflexivity]. Qed.

Lemma advances_with_list w r v :
  swarm_ok w -> length v = L -> advances w (with_list w r v).
Proof.
  intros (Hheap & Hwf & Hn & Hswarm & Hg) Hlen.
  split; [|unfold limits; simpl; rewrite length_insert; reflexivity].
  split; [|simpl; rewrite length_insert; repeat split; assumption].
  unfold heap_ok. simpl.
  destruct (decide (r < length (heap w))%nat) as [Hr|Hr].
  - apply Forall_insert; assumption.
  - rewrite list_insert_ge by lia. exact Hheap.
Qed.

(** One pass of the loop of [calc_fitness_and_global_best]. *)
Lemma calc_step_total w k :
  swarm_ok w -> (k < length (PSO.swarm (self w)))%nat ->
  exists w',
    (let* p := PSO.particle k in
     let* f := PSO.fitness (Particle.position p) in
     PSO.set_particle k (Particle.set_fitness (Particle.Int f) p) ;;
     let* s := get_self in
     if PSO.global_best_fitness s <? f then
       set_self (PSO.set_global_best_fitness f s) ;;
       let* s := get_self in
       set_self (PSO.set_global_best (Particle.position p) s)
     else ret tt) w = (Ok tt, w')
    /\ advances w w'.
Proof.
  intros Hok Hk.
  destruct (swarm_ok_particle w k Hok Hk) as (p & Hrun & Hp & Hpok).
  destruct (swarm_fitness_total w (Particle.position p) Hok) as [f Hf]; [apply Hpok|].
  erewrite bind_ok by exact Hrun. erewrite bind_ok by exact Hf.
  set (w1 := snd (PSO.set_particle k (Particle.set_fitness (Particle.Int f) p) w)).
  assert (Hset : advances w w1)
    by exact (advances_set_particle w k
                (Particle.set_fitness (Particle.Int f) p) Hok Hpok).
  rewrite (bind_ok (PSO.set_particle k (Particle.set_fitness (Particle.Int f) p))
             _ w tt w1 eq_refl), record_eq.
  eexists. split; [reflexivity|].
  destruct (_ <? _); [|exact Hset].
  eapply advances_trans; [exact Hset|].
  apply advances_record; [apply Hset|].
  replace (length (heap w1)) with (length (heap w)) by reflexivity. apply Hpok.
Qed.

Lemma calc_fitness_and_global_best_total w :
  swarm_ok w ->
  exists w', PSO.calc_fitness_and_global_best w = (Ok tt, w') /\ advances w w'.
Proof.
  intros Hok. unfold PSO.calc_fitness_and_global_best. unfold bind at 1, get_self.
  apply (for_each_total (advances w)); [|apply advances_refl; exact Hok].
  intros k w1 Hk Hw1. apply elem_of_seq in Hk.
  destruct (calc_step_total w1 k) as (w2 & Hrun & Hw2); [apply Hw1| |].
  { destruct Hw1 as [_ Hlim]. injection Hlim as _ _ Hlen _ _. lia. }
  exists w2. split; [exact Hrun|]. eapply advances_trans; eassumption.
Qed.

Lemma velocity_component_total w (p : Particle.t F) g w0 c1 c2 r1 r2 i :
  swarm_ok w -> particle_ok (length (heap w)) p -> (g < length (heap w))%nat ->
  0 <= i < Z.of_nat L ->
  exists y, Particle.velocity_component p g w0 c1 c2 r1 r2 i w = (Ok y, w).
Proof.
  intros Hok (Hpos & Hbest & Hn & Hvel) Hg Hi.
  destruct (getitem_nonneg (Particle.velocity p) i) as (v & Hv & _); [lia|].
  destruct (swarm_ok_lookup w _ Hok Hbest) as (lb & Hlb & Hlenb).
  destruct (swarm_ok_lookup w _ Hok Hpos) as (lx & Hlx & Hlenx).
  destruct (swarm_ok_lookup w _ Hok Hg) as (lg & Hlg & Hleng).
  destruct (lookup_lt_is_Some_2 lb (Z.to_nat i)) as [b Hb]; [lia|].
  destruct (lookup_lt_is_Some_2 lx (Z.to_nat i)) as [x Hx]; [lia|].
  destruct (lookup_lt_is_Some_2 lg (Z.to_nat i)) as [y Hy]; [lia|].
  unfold Particle.velocity_component.
  erewrite bind_ok by (unfold lift; rewrite Hv; reflexivity).
  erewrite bind_ok by (eapply load_item_eq; [exact Hlb | lia | exact Hb]).
  erewrite bind_ok by (eapply load_item_eq; [exact Hlx | lia | exact Hx]).
  erewrite bind_ok by (eapply load_item_eq; [exact Hlg | lia | exact Hy]).
  erewrite bind_ok by (eapply load_item_eq; [exact Hlx | lia | exact Hx]).
  eexists. reflexivity.
Qed.

Lemma update_velocity_total w (p : Particle.t F) g w0 c1 c2 :
  swarm_ok w -> particle_ok (length (heap w)) p -> (g < length (heap w))%nat ->
  exists v,
    Particle.update_velocity p g w0 c1 c2 w
      = (Ok (Particle.set_velocity v p), after_draws (after_draws w 1) 1)
    /\ length v = L.
Proof.
  intros Hok Hp Hg. unfold Particle.update_velocity.
  erewrite bind_ok by apply random_eq. erewrite bind_ok by apply random_eq.
  set (w2 := after_draws (after_draws w 1) 1).
  destruct (comprehension_total (range (Particle.num_literals p))
              (Particle.velocity_component p g w0 c1 c2
                 (f_unit (tape w (cursor w)))
                 (f_unit (tape (after_draws w 1) (cursor (after_draws w 1))))) w2)
    as (v & Hv & Hlen).
  { intros i Hi. apply elem_of_range in Hi.
    apply velocity_component_total; [apply (advances_after_draws w 2 Hok)
                                    | exact Hp | exact Hg |].
    destruct Hp as (_ & _ & Hn & _). lia. }
  exists v. erewrite bind_ok by exact Hv. split; [reflexivity|].
  rewrite Hlen, length_range. destruct Hp as (_ & _ & -> & _). lia.
Qed.

Lemma update_velocities_total w k :
  swarm_ok w -> (k < length (PSO.swarm (self w)))%nat ->
  exists w', PSO.update_velocities k w = (Ok tt, w') /\ advances w w'.
Proof.
  intros Hok Hk.
  destruct (swarm_ok_particle w k Hok Hk) as (p & Hrun & Hp & Hpok).
  unfold PSO.update_velocities.
  erewrite bind_ok by exact Hrun. unfold bind at 1, get_self.
  destruct (update_velocity_total w p (PSO.global_best (self w)) (PSO.w (self w))
              (PSO.c1 (self w)) (PSO.c2 (self w)) Hok Hpok)
    as (v & Hv & Hlen); [apply Hok|].
  erewrite bind_ok by exact Hv.
  eexists. split; [reflexivity|].
  eapply advances_trans; [apply (advances_after_draws w 1 Hok)|].
  eapply advances_trans;
    [apply (advances_after_draws (after_draws w 1) 1); apply (advances_after_draws w 1 Hok)|].
  apply (advances_set_particle (after_draws (after_draws w 1) 1) k
           (Particle.set_velocity v p)).
  - apply (advances_after_draws w 1 Hok).
  - destruct Hpok as (Hpos & Hbest & Hn & _). repeat split; assumption.
Qed.

Lemma local_search_total w k max_flip :
  swarm_ok w -> (k < length (PSO.swarm (self w)))%nat ->
  exists w', PSO.local_search k max_flip w = (Ok tt, w') /\ advances w w'.
Proof.
  intros Hok Hk.
  destruct (swarm_ok_particle w k Hok Hk) as (p & Hrun & Hp & Hpok).
  destruct (swarm_ok_lookup w (Particle.position p) Hok) as (v & Hv & Hlen);
    [apply Hpok|].
  assert (Hwf : Forall (well_formed (length v)) (map fst (PSO.clauses (self w))))
    by (rewrite Hlen; apply Hok).
  destruct (weighted_sum_total v (PSO.clauses (self w)) 0 Hwf) as [f Hf].
  destruct (local_search_loop_spec (Z.to_nat max_flip) w (Particle.position p) v
              max_flip 1 0 f Hv Hwf) as (v' & f' & Hloop & Hlen' & _).
  { destruct Hok as (_ & _ & -> & _). lia. }
  { exact Hf. }
  { right. lia. }
  unfold PSO.local_search. erewrite bind_ok by exact Hrun.
  eexists. split; [exact Hloop|].
  apply advances_with_list; [exact Hok | congruence].
Qed.

Lemma update_personal_best_total w k :
  swarm_ok w -> (k < length (PSO.swarm (self w)))%nat ->
  exists w', PSO.update_personal_best k w = (Ok tt, w') /\ advances w w'.
Proof.
  intros Hok Hk.
  destruct (swarm_ok_particle w k Hok Hk) as (p & Hrun & Hp & Hpok).
  destruct (swarm_fitness_total w (Particle.best p) Hok) as [f Hf]; [apply Hpok|].
  unfold PSO.update_personal_best.
  erewrite bind_ok by exact Hrun. erewrite bind_ok by exact Hf.
  destruct (Particle.gtb _ _);
    [|exists w; split; [reflexivity | apply advances_refl; exact Hok]].
  set (p1 := Particle.set_fitness (Particle.Int f) p).
  set (w1 := snd (PSO.set_particle k p1 w)).
  assert (Hp1 : particle_ok (length (heap w)) p1) by exact Hpok.
  assert (H1 : advances w w1) by exact (advances_set_particle w k p1 Hok Hp1).
  rewrite (bind_ok (PSO.set_particle k p1) _ w tt w1 eq_refl).
  assert (Hread : PSO.particle k w1 = (Ok p1, w1)).
  { unfold PSO.particle. msimpl. unfold w1. simpl.
    rewrite list_lookup_insert_eq by exact Hk. reflexivity. }
  erewrite bind_ok by exact Hread.
  eexists. split; [reflexivity|].
  eapply advances_trans; [exact H1|].
  apply (advances_set_particle w1 k (Particle.set_best (Particle.position p1) p1));
    [apply H1|].
  destruct Hpok as (Hpos & Hbest & Hn & Hvel). repeat split; assumption.
Qed.

Lemma update_global_best_total w k :
  swarm_ok w -> (k < length (PSO.swarm (self w)))%nat ->
  exists w', PSO.update_global_best k w = (Ok tt, w') /\ advances w w'.
Proof.
  intros Hok Hk.
  destruct (swarm_ok_particle w k Hok Hk) as (p & Hrun & Hp & Hpok).
  destruct (swarm_fitness_total w (Particle.best p) Hok) as [f Hf]; [apply Hpok|].
  unfold PSO.update_global_best.
  erewrite bind_ok by exact Hrun. erewrite bind_ok by exact Hf.
  rewrite record_eq. eexists. split; [reflexivity|].
  destruct (_ <? _); [|apply advances_refl; exact Hok].
  apply advances_record; [exact Hok | apply Hpok].
Qed.

(** One pass of the loop of [update_clauses_weight], on the clause at
    position [k]. *)
Lemma reweigh_total w k :
  swarm_ok w -> (k < length (PSO.clauses (self w)))%nat ->
  exists w', reweigh k w = (Ok tt, w')
    /\ advances w w'
    /\ length (PSO.clauses (self w')) = length (PSO.clauses (self w)).
Proof.
  intros Hok Hk.
  destruct (lookup_lt_is_Some_2 _ _ Hk) as [[clause wt] Hc].
  destruct (swarm_ok_lookup w (PSO.global_best (self w)) Hok) as (vl & Hvl & Hlen);
    [apply Hok|].
  destruct Hok as (Hheap & Hwf & Hn & Hswarm & Hg).
  destruct (is_clause_satisfied_total vl clause) as [b Hb].
  { rewrite Hlen. rewrite Forall_lookup in Hwf. apply (Hwf k).
    rewrite list_lookup_fmap, Hc. reflexivity. }
  unfold reweigh, deref. msimpl. rewrite Hc. cbv beta iota.
  rewrite Hvl.
  rewrite pso_is_clause_satisfied_eq, Hb.
  eexists. split; [reflexivity|].
  split; [|simpl; apply length_insert].
  assert (Hfst : map fst (<[k := (clause, wt + 1 - Z.b2z b)]> (PSO.clauses (self w)))
                 = map fst (PSO.clauses (self w))).
  { rewrite list_fmap_insert. simpl. apply list_insert_id.
    rewrite list_lookup_fmap, Hc. reflexivity. }
  split; [|unfold limits; simpl; rewrite Hfst; reflexivity].
  split; [exact Hheap|]. split; [|repeat split; assumption].
  simpl. rewrite Hfst. exact Hwf.
Qed.

Lemma update_clauses_weight_total w :
  swarm_ok w ->
  exists w', PSO.update_clauses_weight w = (Ok tt, w') /\ advances w w'.
Proof.
  intros Hok. unfold PSO.update_clauses_weight. unfold bind at 1, get_self.
  destruct (for_each_total
              (fun w1 => advances w w1
                 /\ length (PSO.clauses (self w1)) = length (PSO.clauses (self w)))
              (seq 0 (length (PSO.clauses (self w)))) reweigh w)
    as (w' & Hrun & Hadv & _).
  - intros k w1 Hk [Hadv Hlen]. apply elem_of_seq in Hk.
    destruct (reweigh_total w1 k) as (w2 & Hrun & Hadv2 & Hlen2);
      [apply Hadv | lia |].
    exists w2. split; [exact Hrun|].
    split; [eapply advances_trans; eassumption | congruence].
  - split; [apply advances_refl; exact Hok | reflexivity].
  - exists w'. split; [exact Hrun | exact Hadv].
Qed.

Lemma num_satisfied_clauses_total w r :
  swarm_ok w -> (r < length (heap w))%nat ->
  exists n, PSO.num_satisfied_clauses r w = (Ok n, w)
    /\ 0 <= n <= Z.of_nat (length (PSO.clauses (self w))).
Proof.
  intros Hok Hr. destruct (swarm_ok_lookup w r Hok Hr) as (v & Hv & Hlen).
  destruct (pso_count_clauses_spec v (PSO.clauses (self w)) 0) as (n & Hn & Hrange & _).
  { rewrite Hlen. apply Hok. }
  exists n. split; [|exact Hrange].
  unfold PSO.num_satisfied_clauses, deref. msimpl. rewrite Hv, Hn. reflexivity.
Qed.

(** The four steps on the particle at position [k]. *)
Lemma particle_steps_total w k max_flip :
  swarm_ok w -> (k < length (PSO.swarm (self w)))%nat ->
  exists w',
    (PSO.update_velocities k ;;
     PSO.local_search k max_flip ;;
     PSO.update_personal_best k ;;
     PSO.update_global_best k) w = (Ok tt, w')
    /\ advances w w'.
Proof.
  intros Hok Hk.
  assert (Hlen : forall w1, advances w w1 ->
            (k < length (PSO.swarm (self w1)))%nat).
  { intros w1 [_ Hlim]. injection Hlim as _ _ Hl _ _. lia. }
  destruct (update_velocities_total w k Hok Hk) as (w1 & Hrun1 & H1).
  destruct (local_search_total w1 k max_flip) as (w2 & Hrun2 & H2);
    [apply H1 | apply Hlen; exact H1 |].
  pose proof (advances_trans _ _ _ H1 H2) as H12.
  destruct (update_personal_best_total w2 k) as (w3 & Hrun3 & H3);
    [apply H2 | apply Hlen; exact H12 |].
  pose proof (advances_trans _ _ _ H12 H3) as H13.
  destruct (update_global_best_total w3 k) as (w4 & Hrun4 & H4);
    [apply H3 | apply Hlen; exact H13 |].
  exists w4.
  erewrite bind_ok by exact Hrun1. erewrite bind_ok by exact Hrun2.
  erewrite bind_ok by exact Hrun3.
  split; [exact Hrun4 | eapply advances_trans; eassumption].
Qed.

(** One pass of the loop of [run_WPSOSAT] completes, and what it returns is
    the number of clauses the global best satisfies at the end of the pass. *)
Lemma iteration_total w max_flip :
  swarm_ok w ->
  exists n w',
    PSO.iteration max_flip w = (Ok n, w')
    /\ advances w w'
    /\ 0 <= n <= Z.of_nat (length (PSO.clauses (self w')))
    /\ PSO.num_satisfied_clauses (PSO.global_best (self w')) w' = (Ok n, w').
Proof.
  intros Hok. unfold PSO.iteration.
  destruct (calc_fitness_and_global_best_total w Hok) as (w1 & Hrun1 & H1).
  erewrite bind_ok by exact Hrun1. unfold bind at 1, get_self.
  destruct (for_each_total (advances w1) (seq 0 (length (PSO.swarm (self w1))))
              (fun k => PSO.update_velocities k ;;
                        PSO.local_search k max_flip ;;
                        PSO.update_personal_best k ;;
                        PSO.update_global_best k) w1)
    as (w2 & Hrun2 & H2).
  { intros k wa Hk Ha. apply elem_of_seq in Hk.
    destruct (particle_steps_total wa k max_flip) as (wb & Hrun & Hb); [apply Ha | |].
    { destruct Ha as [_ Hlim]. injection Hlim as _ _ Hl _ _. lia. }
    exists wb. split; [exact Hrun | eapply advances_trans; eassumption]. }
  { apply advances_refl. apply H1. }
  erewrite bind_ok by exact Hrun2.
  destruct (update_clauses_weight_total w2) as (w3 & Hrun3 & H3); [apply H2|].
  erewrite bind_ok by exact Hrun3. unfold bind at 1, get_self.
  destruct (num_satisfied_clauses_total w3 (PSO.global_best (self w3)))
    as (n & Hn & Hrange); [apply H3 | apply H3 |].
  exists n, w3. split; [exact Hn|].
  split; [|split; [exact Hrange | exact Hn]].
  eapply advances_trans; [exact H1|]. eapply advances_trans; eassumption.
Qed.

(** The loop of [run_WPSOSAT] from iteration count [it]. *)
Lemma swarm_run_loop_total fuel w max_flip it ns :
  swarm_ok w ->
  PSO.max_iteration (self w) - it <= Z.of_nat fuel ->
  exists ns' it' w',
    PSO.run_loop fuel max_flip it ns w = (Ok (ns', it'), w')
    /\ advances w w'
    /\ it <= it' <= Z.max it (PSO.max_iteration (self w))
    /\ (ns' = PSO.num_clauses (self w) \/ PSO.max_iteration (self w) <= it')
    /\ (it' = it -> ns' = ns /\ w' = w)
    /\ (it < it' ->
        PSO.num_satisfied_clauses (PSO.global_best (self w')) w' = (Ok ns', w')).
Proof.
  revert w it ns. induction fuel as [|fuel IH]; intros w it ns Hok Hfuel;
    cbn [PSO.run_loop]; unfold bind at 1, get_self.
  - destruct (Z.eqb_spec ns (PSO.num_clauses (self w))) as [Hns|Hns]; simpl.
    + exists ns, it, w. split; [reflexivity|].
      split; [apply advances_refl; exact Hok|]. repeat split; try lia; auto.
    + destruct (Z.leb_spec (PSO.max_iteration (self w)) it); [|lia].
      exists ns, it, w. split; [reflexivity|].
      split; [apply advances_refl; exact Hok|]. repeat split; try lia; auto.
  - destruct (Z.eqb_spec ns (PSO.num_clauses (self w))) as [Hns|Hns]; simpl.
    + exists ns, it, w. split; [reflexivity|].
      split; [apply advances_refl; exact Hok|]. repeat split; try lia; auto.
    + destruct (Z.leb_spec (PSO.max_iteration (self w)) it).
      * exists ns, it, w. split; [reflexivity|].
        split; [apply advances_refl; exact Hok|]. repeat split; try lia; auto.
      * destruct (iteration_total w max_flip Hok) as (n & w1 & Hrun & H1 & _ & Hn).
        assert (Hlim : PSO.num_clauses (self w1) = PSO.num_clauses (self w)
                       /\ PSO.max_iteration (self w1) = PSO.max_iteration (self w)).
        { destruct H1 as [_ Hlim]. injection Hlim as Hc Hm _ _ _. auto. }
        destruct Hlim as [Hc Hm].
        destruct (IH w1 (it + 1) n) as (ns' & it' & w' & Hloop & H' & Hit & Hexit & Hsame & Hcount);
          [apply H1 | lia |].
        exists ns', it', w'. erewrite bind_ok by exact Hrun.
        split; [exact Hloop|].
        split; [eapply advances_trans; eassumption|].
        split; [lia|]. split; [rewrite <- Hc, <- Hm; exact Hexit|].
        split; [lia|]. intros _.
        destruct (Z.eq_dec it' (it + 1)) as [Heq|Hne].
        -- destruct (Hsame Heq) as [-> ->]. exact Hn.
        -- apply Hcount. lia.
Qed.

Lemma positions_in_order (ps : list (Particle.t F)) n (a : nat) :
  (forall i p, ps !! i = Some p -> fresh_particle n (a + i)%nat p) ->
  map Particle.position ps = seq a (length ps)
  /\ Forall (fun p => Particle.best p = Particle.position p) ps.
Proof.
  revert a. induction ps as [|p ps IH]; intros a Hfresh; simpl.
  - split; [reflexivity | constructor].
  - destruct (Hfresh O p eq_refl) as (Hpos & Hbest & _).
    rewrite Nat.add_0_r in Hpos, Hbest.
    destruct (IH (S a)) as [Hmap Hall].
    { intros i q Hq. replace (S a + i)%nat with (a + S i)%nat by lia.
      apply Hfresh. exact Hq. }
    split; [f_equal; assumption|].
    constructor; [congruence | exact Hall].
Qed.

(** [PSO.__init__] on a formula over [L] variables, with at least one
    particle. *)
Lemma swarm_init_total (cs : list PSO.wclause) nc np mi w0 c1 c2 (w : World (PSO.t F)) :
  heap_ok L (heap w) ->
  Forall (well_formed L) (map fst cs) ->
  1 <= np ->
  exists w',
    PSO.init (cs, Z.of_nat L, nc) np mi w0 c1 c2 w = (Ok tt, w')
    /\ swarm_ok w'
    /\ PSO.clauses (self w') = cs
    /\ PSO.num_clauses (self w') = nc
    /\ PSO.max_iteration (self w') = mi
    /\ take (length (heap w)) (heap w') = heap w
    /\ length (heap w') = (length (heap w) + Z.to_nat np)%nat
    /\ map Particle.position (PSO.swarm (self w')) = seq (length (heap w)) (Z.to_nat np)
    /\ Forall (fun p => Particle.best p = Particle.position p) (PSO.swarm (self w'))
    /\ PSO.global_best (self w') = length (heap w)
    /\ PSO.fitness (PSO.global_best (self w')) w'
       = (Ok (PSO.global_best_fitness (self w')), w').
Proof.
  intros Hheap Hwf Hnp. unfold PSO.init, PSO.init_particles.
  set (s0 := PSO.mk cs (Z.of_nat L) nc np mi w0 c1 c2 [] O 0).
  set (w1 := mkWorld (heap w) (tape w) (cursor w) s0).
  rewrite (bind_ok (set_self s0) _ w tt w1 eq_refl).
  destruct (init_particles_total (F := F) (range np) (Z.of_nat L) w1)
    as (ps & new & Hrun & Hps & Hnew & Hall & Hfresh).
  erewrite bind_ok by exact Hrun.
  rewrite length_range in Hps, Hnew.
  change (heap w1) with (heap w) in Hfresh.
  match goal with
  | |- context [bind _ _ ?x] => set (w2 := x)
  end.
  set (w3 := mkWorld (heap w2) (tape w2) (cursor w2) (PSO.set_swarm ps (self w2))).
  rewrite (bind_ok (let* s := get_self in set_self (PSO.set_swarm ps s)) _ w2 tt w3 eq_refl).
  destruct ps as [|p ps']; [simpl in Hps; lia|].
  rewrite (bind_ok (ret p) _ w3 p w3 eq_refl).
  set (w4 := mkWorld (heap w3) (tape w3) (cursor w3)
               (PSO.set_global_best (Particle.position p) (self w3))).
  rewrite (bind_ok (let* s := get_self in
                    set_self (PSO.set_global_best (Particle.position p) s))
             _ w3 tt w4 eq_refl).
  destruct (positions_in_order (p :: ps') (Z.of_nat L) (length (heap w)) Hfresh)
    as [Hpositions Haliased].
  assert (Hfirst : Particle.position p = length (heap w)).
  { destruct (Hfresh O p eq_refl) as (Hpos & _). rewrite Nat.add_0_r in Hpos. exact Hpos. }
  assert (Hok4 : swarm_ok w4).
  { split.
    { unfold heap_ok. simpl. apply Forall_app. split; [exact Hheap|].
      eapply Forall_impl; [exact Hall|]. simpl. intros l Hl. lia. }
    split; [exact Hwf|]. split; [reflexivity|].
    split; [|simpl; rewrite Hfirst, length_app; lia].
    simpl. rewrite length_app. apply Forall_lookup. intros i q Hq.
    destruct (Hfresh i q Hq) as (Hpos & Hbest & Hn & Hvel & _).
    apply lookup_lt_Some in Hq. rewrite Hps in Hq.
    split; [lia|]. split; [lia|]. split; [exact Hn|]. lia. }
  destruct (swarm_fitness_total w4 (Particle.position p) Hok4) as [f Hf];
    [apply Hok4|].
  erewrite bind_ok by exact Hf.
  eexists. split; [reflexivity|].
  split. { destruct Hok4 as (? & ? & ? & ? & ?). repeat split; assumption. }
  split; [reflexivity|]. split; [reflexivity|]. split; [reflexivity|].
  split; [simpl; apply take_app_length|].
  split; [simpl; rewrite length_app; lia|].
  split; [rewrite <- Hps; exact Hpositions|].
  split; [exact Haliased|]. split; [exact Hfirst|].
  simpl.
  destruct (swarm_ok_lookup w4 (Particle.position p) Hok4) as (v & Hv & _);
    [apply Hok4|].
  rewrite (pso_fitness_eq w4 _ v Hv) in Hf.
  erewrite pso_fitness_eq by exact Hv. simpl in *.
  injection Hf as ->. reflexivity.
Qed.

(** [run_WPSOSAT] on a formula over [L] variables, with at least one
    particle. *)
Lemma run_WPSOSAT_spec (cs : list PSO.wclause) nc np mi max_flip w0 c1 c2
    (w : World (PSO.t F)) :
  heap_ok L (heap w) ->
  Forall (well_formed L) (map fst cs) ->
  1 <= np ->
  exists ns it w',
    PSO.run_WPSOSAT (cs, Z.of_nat L, nc) np mi max_flip w0 c1 c2 w = (Ok (ns, it), w')
    /\ swarm_ok w'
    /\ 0 <= it <= Z.max 0 mi
    /\ (ns = nc \/ mi <= it)
    /\ 0 <= ns <= Z.of_nat (length cs)
    /\ (it = 0 -> ns = 0)
    /\ (0 < it ->
        PSO.num_satisfied_clauses (PSO.global_best (self w')) w' = (Ok ns, w'))
    /\ map fst (PSO.clauses (self w')) = map fst cs
    /\ map Particle.position (PSO.swarm (self w'))
       = seq (length (heap w)) (Z.to_nat np)
    /\ Forall (fun p => Particle.best p = Particle.position p) (PSO.swarm (self w'))
    /\ PSO.global_best (self w') ∈ map Particle.position (PSO.swarm (self w')).
Proof.
  intros Hheap Hwf Hnp. unfold PSO.run_WPSOSAT.
  destruct (swarm_init_total cs nc np mi w0 c1 c2 w Hheap Hwf Hnp)
    as (w1 & Hinit & Hok1 & Hcs & Hnc & Hmi & _ & _ & Hpos & Hbest & Hg & _).
  erewrite bind_ok by exact Hinit.
  destruct (tracks_run_loop (Z.to_nat mi) max_flip 0 0 w1) as [Hframe Hanchored].
  apply positions_of_frames in Hframe.
  destruct (swarm_run_loop_total (Z.to_nat mi) w1 max_flip 0 0 Hok1)
    as (ns & it & w' & Hloop & [Hok' Hlim] & Hit & Hexit & Hsame & Hcount); [lia|].
  injection Hlim as _ _ Hswarm _ Hfst.
  exists ns, it, w'. split; [exact Hloop|]. split; [exact Hok'|].
  rewrite Hmi in Hit. split; [exact Hit|].
  rewrite Hnc, Hmi in Hexit. split; [exact Hexit|].
  assert (Hlen : length (PSO.clauses (self w')) = length cs).
  { rewrite <- (length_map fst), Hfst, Hcs, length_map. reflexivity. }
  split.
  { destruct (Z.eq_dec it 0) as [H0|H0]; [destruct (Hsame H0) as [-> _]; lia|].
    destruct (num_satisfied_clauses_total w' (PSO.global_best (self w')) Hok')
      as (n & Hn & Hrange); [apply Hok'|].
    rewrite Hcount in Hn by lia. injection Hn as ->. lia. }
  split; [intros H0; apply Hsame; exact H0|].
  split; [exact Hcount|]. split; [rewrite Hfst, Hcs; reflexivity|].
  rewrite Hloop in Hframe, Hanchored. cbn [snd] in Hframe, Hanchored.
  split; [rewrite Hframe; exact Hpos|].
  apply Hanchored. split; [exact Hbest|].
  rewrite Hg, Hpos. apply elem_of_seq. lia.
Qed.

(** One pass of the loop of [run_WPSOSAT] on a well-formed swarm over [L]
    variables completes normally: no list is indexed out of range, the local
    search stays within its budget.  The swarm stays well formed, the store
    keeps its size (no list is created), the literals of the clauses,
    [num_clauses], [max_iteration] and the number of particles stay, and the
    result is the number of clauses the global best satisfies at the end of
    the pass. *)
Theorem swarm_iteration_total (w : World (PSO.t F)) max_flip :
  swarm_ok w ->
  exists n w',
    PSO.iteration max_flip w = (Ok n, w')
    /\ advances w w'
    /\ 0 <= n <= Z.of_nat (length (PSO.clauses (self w')))
    /\ PSO.num_satisfied_clauses (PSO.global_best (self w')) w' = (Ok n, w').
Proof. exact (iteration_total w max_flip). Qed.

(** [PSO.__init__] on a formula over [L] variables and at least one particle
    completes normally.  It appends one new list of [L] bits per particle to
    the store, the i-th particle holding the i-th new list as both [position]
    and [best]; [global_best] is the position list of the first particle and
    [global_best_fitness] its weighted fitness. *)
Theorem init_builds_swarm (cs : list PSO.wclause) nc np mi w0 c1 c2
    (w : World (PSO.t F)) :
  heap_ok L (heap w) ->
  Forall (well_formed L) (map fst cs) ->
  1 <= np ->
  exists w',
    PSO.init (cs, Z.of_nat L, nc) np mi w0 c1 c2 w = (Ok tt, w')
    /\ swarm_ok w'
    /\ PSO.clauses (self w') = cs
    /\ PSO.num_clauses (self w') = nc
    /\ PSO.max_iteration (self w') = mi
    /\ take (length (heap w)) (heap w') = heap w
    /\ length (heap w') = (length (heap w) + Z.to_nat np)%nat
    /\ map Particle.position (PSO.swarm (self w')) = seq (length (heap w)) (Z.to_nat np)
    /\ Forall (fun p => Particle.best p = Particle.position p) (PSO.swarm (self w'))
    /\ PSO.global_best (self w') = length (heap w)
    /\ PSO.fitness (PSO.global_best (self w')) w'
       = (Ok (PSO.global_best_fitness (self w')), w').
Proof. exact (swarm_init_total cs nc np mi w0 c1 c2 w). Qed.

(** [run_WPSOSAT] on a formula over [L] variables and at least one particle
    always completes normally, after at most [max_iteration] passes.  It
    stops early only with [num_satisfied_clauses = num_clauses]; the count it
    reports is 0 if no pass ran and otherwise the number of clauses the final
    global best satisfies.  At the end every particle still holds the list it
    was created with, as [position] and as [best], and [global_best] is one
    of these lists. *)
Theorem run_WPSOSAT_total (cs : list PSO.wclause) nc np mi max_flip w0 c1 c2
    (w : World (PSO.t F)) :
  heap_ok L (heap w) ->
  Forall (well_formed L) (map fst cs) ->
  1 <= np ->
  exists ns it w',
    PSO.run_WPSOSAT (cs, Z.of_nat L, nc) np mi max_flip w0 c1 c2 w = (Ok (ns, it), w')
    /\ swarm_ok w'
    /\ 0 <= it <= Z.max 0 mi
    /\ (ns = nc \/ mi <= it)
    /\ 0 <= ns <= Z.of_nat (length cs)
    /\ (it = 0 -> ns = 0)
    /\ (0 < it ->
        PSO.num_satisfied_clauses (PSO.global_best (self w')) w' = (Ok ns, w'))
    /\ map fst (PSO.clauses (self w')) = map fst cs
    /\ map Particle.position (PSO.swarm (self w'))
       = seq (length (heap w)) (Z.to_nat np)
    /\ Forall (fun p => Particle.best p = Particle.position p) (PSO.swarm (self w'))
    /\ PSO.global_best (self w') ∈ map Particle.position (PSO.swarm (self w')).
Proof. exact (run_WPSOSAT_spec cs nc np mi max_flip w0 c1 c2 w). Qed.

(** ** The personal best inside the loop *)

(** [iteration] with the call of [update_personal_best] left out. *)
Definition iteration_without_personal_best (max_flip : Z) : M (PSO.t F) Z :=
  PSO.calc_fitness_and_global_best ;;
  let* s := get_self in
  for_each (seq 0 (length (PSO.swarm s))) (fun k =>
    PSO.update_velocities k ;;
    PSO.local_search k max_flip ;;
    PSO.update_global_best k) ;;
  PSO.update_clauses_weight ;;
  let* s := get_self in
  PSO.num_satisfied_clauses (PSO.global_best s).

(** A well-formed swarm as [PSO.__init__] builds it: every particle's [best]
    is its [position] object, and no two particles share a list. *)
Definition poised (w : World (PSO.t F)) : Prop :=
  swarm_ok w
  /\ Forall (fun p => Particle.best p = Particle.position p) (PSO.swarm (self w))
  /\ NoDup (map Particle.position (PSO.swarm (self w))).

(** The fitness field of the particle [p] is at most the present weighted
    fitness of its position list. *)
Definition recorded_below (w : World (PSO.t F)) (p : Particle.t F) : Prop :=
  exists f0 v f,
    Particle.fitness p = Particle.Int f0
    /\ heap w !! Particle.position p = Some v
    /\ PSO.weighted_sum (PSO.clauses (self w)) v 0 = Ok f
    /\ f0 <= f.

(** This holds of the particles at the positions [P] selects. *)
Definition recorded (P : nat -> Prop) (w : World (PSO.t F)) : Prop :=
  forall j p, P j -> PSO.swarm (self w) !! j = Some p -> recorded_below w p.

(** The world after the particle at [k] has been replaced by [p'] and the
    global best and its fitness have been assigned. *)
Definition after_step (w : World (PSO.t F)) (c : N) (k : nat) (p' : Particle.t F)
    (g : loc) (gf : Z) : World (PSO.t F) :=
  mkWorld (heap w) (tape w) c
    (PSO.set_global_best g
       (PSO.set_global_best_fitness gf
          (PSO.set_swarm (<[k := p']> (PSO.swarm (self w))) (self w)))).

Lemma poised_after_step w c k p p' g gf :
  poised w ->
  PSO.swarm (self w) !! k = Some p ->
  Particle.position p' = Particle.position p ->
  Particle.best p' = Particle.best p ->
  Particle.num_literals p' = Particle.num_literals p ->
  length (Particle.velocity p') = L ->
  g = PSO.global_best (self w) \/ g = Particle.position p ->
  poised (after_step w c k p' g gf).
Proof.
  intros ((Hheap & Hwf & Hn & Hswarm & Hg) & Hall & Hdup) Hp Hpos Hbest Hnum Hvel Hgb.
  pose proof Hswarm as Hswarm'. rewrite Forall_lookup in Hswarm'.
  destruct (Hswarm' k p Hp) as (Hp1 & Hp2 & Hp3 & Hp4).
  pose proof Hall as Hall'. rewrite Forall_lookup in Hall'.
  specialize (Hall' k p Hp).
  split; [|split].
  - split; [exact Hheap|]. split; [exact Hwf|]. split; [exact Hn|].
    split; simpl.
    + apply Forall_insert; [exact Hswarm|].
      split; [lia|]. split; [lia|]. split; [congruence | exact Hvel].
    + destruct Hgb as [-> | ->]; assumption.
  - simpl. apply Forall_insert; [exact Hall | congruence].
  - simpl. rewrite list_fmap_insert, Hpos, list_insert_id; [exact Hdup|].
    rewrite list_lookup_fmap, Hp. reflexivity.
Qed.

Lemma recorded_after_step P w c k p p' g gf :
  recorded P w ->
  PSO.swarm (self w) !! k = Some p ->
  Particle.position p' = Particle.position p ->
  (P k -> recorded_below w p') ->
  recorded P (after_step w c k p' g gf).
Proof.
  intros Hrec Hp Hpos Hk j q Hj Hq. simpl in Hq.
  destruct (decide (j = k)) as [->|Hne].
  - rewrite list_lookup_insert_eq in Hq by (eapply lookup_lt_Some; exact Hp).
    injection Hq as <-. exact (Hk Hj).
  - rewrite list_lookup_insert_ne in Hq by congruence. exact (Hrec j q Hj Hq).
Qed.

(** The body of the loop of [calc_fitness_and_global_best]. *)
Definition calc_body (k : nat) : M (PSO.t F) unit :=
  let* p := PSO.particle k in
  let* f := PSO.fitness (Particle.position p) in
  PSO.set_particle k (Particle.set_fitness (Particle.Int f) p) ;;
  let* s := get_self in
  if PSO.global_best_fitness s <? f then
    set_self (PSO.set_global_best_fitness f s) ;;
    let* s := get_self in
    set_self (PSO.set_global_best (Particle.position p) s)
  else ret tt.

Lemma calc_body_eq w k p v f :
  PSO.swarm (self w) !! k = Some p ->
  heap w !! Particle.position p = Some v ->
  PSO.weighted_sum (PSO.clauses (self w)) v 0 = Ok f ->
  exists g gf,
    calc_body k w
      = (Ok tt, after_step w (cursor w) k (Particle.set_fitness (Particle.Int f) p) g gf)
    /\ (g = PSO.global_best (self w) \/ g = Particle.position p).
Proof.
  intros Hp Hv Hf. unfold calc_body, PSO.particle, PSO.set_particle.
  unfold bind at 1 2, get_self. rewrite Hp. unfold ret.
  erewrite bind_ok by (rewrite (pso_fitness_eq w _ v Hv), Hf; reflexivity).
  msimpl.
  destruct (_ <? _).
  - exists (Particle.position p), f. split; [reflexivity | right; reflexivity].
  - exists (PSO.global_best (self w)), (PSO.global_best_fitness (self w)).
    split; [reflexivity | left; reflexivity].
Qed.

(** [calc_fitness_and_global_best] leaves in every particle the weighted
    fitness of its position list. *)
Lemma calc_loop_settled n k w :
  poised w ->
  recorded (fun j => (j < k)%nat) w ->
  (k + n)%nat = length (PSO.swarm (self w)) ->
  exists w',
    for_each (seq k n) calc_body w = (Ok tt, w')
    /\ poised w'
    /\ recorded (fun _ => True) w'
    /\ length (PSO.swarm (self w')) = length (PSO.swarm (self w)).
Proof.
  revert k w. induction n as [|n IH]; intros k w Hw Hrec Hlen.
  - exists w. split; [reflexivity|]. split; [exact Hw|]. split; [|reflexivity].
    intros j p _ Hp. apply (Hrec j p); [|exact Hp].
    apply lookup_lt_Some in Hp. lia.
  - cbn [seq for_each].
    destruct (lookup_lt_is_Some_2 (PSO.swarm (self w)) k) as [p Hp]; [lia|].
    destruct Hw as (Hok & Hall & Hdup).
    pose proof Hok as (_ & _ & _ & Hswarm & _).
    rewrite Forall_lookup in Hswarm. destruct (Hswarm k p Hp) as (Hpos & _ & _ & Hvel).
    destruct (swarm_ok_lookup w (Particle.position p) Hok Hpos) as (v & Hv & Hlv).
    destruct (weighted_sum_total v (PSO.clauses (self w)) 0) as [f Hf];
      [rewrite Hlv; apply Hok|].
    destruct (calc_body_eq w k p v f Hp Hv Hf) as (g & gf & Hrun & Hg).
    erewrite bind_ok by exact Hrun.
    destruct (IH (S k) (after_step w (cursor w) k
                          (Particle.set_fitness (Particle.Int f) p) g gf))
      as (w' & Hloop & Hw' & Hrec' & Hlen').
    + apply (poised_after_step w (cursor w) k p); auto.
      split; [exact Hok|]. split; assumption.
    + intros j q Hj Hq. simpl in Hq.
      destruct (decide (j = k)) as [->|Hne].
      * rewrite list_lookup_insert_eq in Hq by (eapply lookup_lt_Some; exact Hp).
        injection Hq as <-. exists f, v, f.
        split; [reflexivity|]. split; [exact Hv|]. split; [exact Hf | lia].
      * rewrite list_lookup_insert_ne in Hq by congruence.
        destruct (Hrec j q) as (f0 & v0 & f1 & H1 & H2 & H3 & H4); [lia | exact Hq |].
        exists f0, v0, f1. repeat split; assumption.
    + simpl. rewrite length_insert. lia.
    + exists w'. split; [exact Hloop|]. split; [exact Hw'|]. split; [exact Hrec'|].
      rewrite Hlen'. simpl. apply length_insert.
Qed.

Lemma update_velocities_eq w k p :
  swarm_ok w -> PSO.swarm (self w) !! k = Some p ->
  exists v,
    PSO.update_velocities k w
      = (Ok tt, after_step w (cursor w + 1 + 1) k (Particle.set_velocity v p)
                  (PSO.global_best (self w)) (PSO.global_best_fitness (self w)))
    /\ length v = L.
Proof.
  intros Hok Hp.
  pose proof Hok as (_ & _ & _ & Hswarm & Hg).
  rewrite Forall_lookup in Hswarm. specialize (Hswarm k p Hp).
  destruct (update_velocity_total w p (PSO.global_best (self w)) (PSO.w (self w))
              (PSO.c1 (self w)) (PSO.c2 (self w)) Hok Hswarm Hg) as (v & Hv & Hlen).
  exists v. split; [|exact Hlen].
  unfold PSO.update_velocities, PSO.particle.
  unfold bind at 1 2, get_self. rewrite Hp. unfold ret.
  unfold bind at 1, get_self.
  erewrite bind_ok by exact Hv. reflexivity.
Qed.

Lemma update_global_best_eq w k p v f :
  PSO.swarm (self w) !! k = Some p ->
  heap w !! Particle.best p = Some v ->
  PSO.weighted_sum (PSO.clauses (self w)) v 0 = Ok f ->
  exists g gf,
    PSO.update_global_best k w = (Ok tt, after_step w (cursor w) k p g gf)
    /\ (g = PSO.global_best (self w) \/ g = Particle.best p).
Proof.
  intros Hp Hv Hf. unfold PSO.update_global_best, PSO.particle.
  unfold bind at 1 2, get_self. rewrite Hp. unfold ret.
  erewrite bind_ok by (rewrite (pso_fitness_eq w _ v Hv), Hf; reflexivity).
  rewrite record_eq. unfold after_step. rewrite (list_insert_id _ _ _ Hp).
  destruct (_ <? _).
  - exists (Particle.best p), f. split; [|right; reflexivity].
    destruct w as [h t c []]. reflexivity.
  - exists (PSO.global_best (self w)), (PSO.global_best_fitness (self w)).
    split; [|left; reflexivity].
    destruct w as [h t c []]. reflexivity.
Qed.

(** With the recorded fitness at most the fitness of the position list, which
    is also the [best] list, [update_personal_best] changes nothing. *)
Lemma update_personal_best_idle w k p :
  PSO.swarm (self w) !! k = Some p ->
  Particle.best p = Particle.position p ->
  recorded_below w p ->
  PSO.update_personal_best k w = (Ok tt, w).
Proof.
  intros Hp Hbest (f0 & v & f & Hfit & Hv & Hf & Hle).
  unfold PSO.update_personal_best, PSO.particle.
  unfold bind at 1 2, get_self. rewrite Hp. unfold ret.
  erewrite bind_ok by (rewrite Hbest, (pso_fitness_eq w _ v Hv), Hf; reflexivity).
  rewrite Hfit. unfold Particle.gtb.
  destruct (Z.ltb_spec f f0); [lia | reflexivity].
Qed.

(** The local search on the particle at [k] keeps what is recorded about the
    particles from [k] on. *)
Lemma recorded_with_list w k p v' f f' v :
  NoDup (map Particle.position (PSO.swarm (self w))) ->
  PSO.swarm (self w) !! k = Some p ->
  heap w !! Particle.position p = Some v ->
  PSO.weighted_sum (PSO.clauses (self w)) v 0 = Ok f ->
  PSO.weighted_sum (PSO.clauses (self w)) v' 0 = Ok f' ->
  f <= f' ->
  recorded (fun j => (k <= j)%nat) w ->
  recorded (fun j => (k <= j)%nat) (with_list w (Particle.position p) v').
Proof.
  intros Hdup Hp Hv Hf Hf' Hle Hrec j q Hj Hq. simpl in Hq.
  destruct (Hrec j q Hj Hq) as (f0 & vq & fq & Hfit & Hvq & Hfq & Hle0).
  destruct (decide (j = k)) as [->|Hne].
  - assert (q = p) as -> by congruence.
    exists f0, v', f'. split; [exact Hfit|].
    split; [apply (with_list_lookup w _ v v' Hv)|]. split; [exact Hf'|].
    assert (fq = f) by congruence. lia.
  - exists f0, vq, fq. split; [exact Hfit|]. split; [|split; assumption].
    simpl. rewrite list_lookup_insert_ne; [exact Hvq|].
    intros Heq. apply Hne.
    eapply (NoDup_lookup _ j k); [exact Hdup | |].
    + rewrite list_lookup_fmap, Hq. reflexivity.
    + rewrite list_lookup_fmap, Hp. simpl. f_equal. exact Heq.
Qed.

(** The steps on the particle at [k], with and without
    [update_personal_best]. *)
Lemma particle_steps_same w k max_flip :
  poised w ->
  recorded (fun j => (k <= j)%nat) w ->
  (k < length (PSO.swarm (self w)))%nat ->
  exists w',
    (PSO.update_velocities k ;;
     PSO.local_search k max_flip ;;
     PSO.update_personal_best k ;;
     PSO.update_global_best k) w = (Ok tt, w')
    /\ (PSO.update_velocities k ;;
        PSO.local_search k max_flip ;;
        PSO.update_global_best k) w = (Ok tt, w')
    /\ poised w'
    /\ recorded (fun j => (S k <= j)%nat) w'
    /\ length (PSO.swarm (self w')) = length (PSO.swarm (self w)).
Proof.
  intros Hw Hrec Hk.
  destruct (lookup_lt_is_Some_2 (PSO.swarm (self w)) k Hk) as [p Hp].
  pose proof Hw as (Hok & Hall & Hdup).
  pose proof Hall as Hbest. rewrite Forall_lookup in Hbest. specialize (Hbest k p Hp).
  destruct (Hrec k p (le_n k) Hp) as (f0 & v & f & Hfit & Hv & Hf & Hle0).
  (* the velocity *)
  destruct (update_velocities_eq w k p Hok Hp) as (vel & Hrun1 & Hvel).
  set (p1 := Particle.set_velocity vel p).
  set (w1 := after_step w (cursor w + 1 + 1) k p1 (PSO.global_best (self w))
               (PSO.global_best_fitness (self w))) in *.
  assert (Hw1 : poised w1).
  { apply (poised_after_step w _ k p); auto. }
  assert (Hp1 : PSO.swarm (self w1) !! k = Some p1).
  { simpl. apply list_lookup_insert_eq. exact Hk. }
  assert (Hrec1 : recorded (fun j => (k <= j)%nat) w1).
  { apply (recorded_after_step _ w _ k p); [exact Hrec | exact Hp | reflexivity|].
    intros _. exists f0, v, f. repeat split; assumption. }
  (* the local search *)
  pose proof Hw1 as (Hok1 & Hall1 & Hdup1).
  assert (Hwf1 : Forall (well_formed (length v)) (map fst (PSO.clauses (self w1)))).
  { destruct (swarm_ok_lookup w (Particle.position p) Hok) as (v0 & Hv0 & Hlen0).
    { eapply lookup_lt_Some. exact Hv. }
    assert (v0 = v) as -> by congruence. rewrite Hlen0. apply Hok. }
  destruct (local_search_loop_spec (Z.to_nat max_flip) w1 (Particle.position p1) v
              max_flip 1 0 f Hv Hwf1) as (v' & f' & Hloop & Hlen' & Hf' & Hle').
  { destruct (swarm_ok_lookup w (Particle.position p) Hok) as (v0 & Hv0 & Hlen0).
    { eapply lookup_lt_Some. exact Hv. }
    assert (v0 = v) as -> by congruence.
    destruct Hok as (_ & _ & Hn & _). simpl. rewrite Hn. lia. }
  { exact Hf. }
  { right. lia. }
  set (w2 := with_list w1 (Particle.position p1) v') in *.
  assert (Hrun2 : PSO.local_search k max_flip w1 = (Ok tt, w2)).
  { unfold PSO.local_search, PSO.particle. unfold bind at 1 2, get_self.
    rewrite Hp1. exact Hloop. }
  assert (Hw2 : poised w2).
  { split; [|split; [exact Hall1 | exact Hdup1]].
    apply (advances_with_list w1); [exact Hok1|].
    rewrite Hlen'.
    destruct (swarm_ok_lookup w (Particle.position p) Hok) as (v0 & Hv0 & Hlen0).
    { eapply lookup_lt_Some. exact Hv. }
    congruence. }
  assert (Hrec2 : recorded (fun j => (k <= j)%nat) w2).
  { apply (recorded_with_list w1 k p1 v' f f' v); assumption. }
  (* the personal best *)
  assert (Hrun3 : PSO.update_personal_best k w2 = (Ok tt, w2)).
  { apply (update_personal_best_idle w2 k p1); [exact Hp1 | exact Hbest|].
    apply (Hrec2 k p1 (le_n k)). exact Hp1. }
  (* the global best *)
  destruct (update_global_best_eq w2 k p1 v' f') as (g & gf & Hrun4 & Hg).
  { exact Hp1. }
  { change (Particle.best p1) with (Particle.best p). rewrite Hbest.
    apply (with_list_lookup w1 _ v v'). exact Hv. }
  { exact Hf'. }
  set (w3 := after_step w2 (cursor w2) k p1 g gf) in *.
  exists w3.
  split.
  { erewrite bind_ok by exact Hrun1. erewrite bind_ok by exact Hrun2.
    erewrite bind_ok by exact Hrun3. exact Hrun4. }
  split.
  { erewrite bind_ok by exact Hrun1. erewrite bind_ok by exact Hrun2. exact Hrun4. }
  split.
  { apply (poised_after_step w2 _ k p1); auto.
    destruct Hg as [->| ->]; [left; reflexivity | right].
    change (Particle.best p1) with (Particle.best p). exact Hbest. }
  split.
  { intros j q Hj Hq.
    apply (recorded_after_step (fun j => (k <= j)%nat) w2 (cursor w2) k p1 p1 g gf
             Hrec2 Hp1 eq_refl (fun _ => Hrec2 k p1 (le_n k) Hp1) j q);
      [lia | exact Hq]. }
  simpl. rewrite !length_insert. reflexivity.
Qed.

Lemma particle_loop_same n k w max_flip :
  poised w ->
  recorded (fun j => (k <= j)%nat) w ->
  (k + n)%nat = length (PSO.swarm (self w)) ->
  exists w',
    for_each (seq k n) (fun k =>
      PSO.update_velocities k ;;
      PSO.local_search k max_flip ;;
      PSO.update_personal_best k ;;
      PSO.update_global_best k) w = (Ok tt, w')
    /\ for_each (seq k n) (fun k =>
         PSO.update_velocities k ;;
         PSO.local_search k max_flip ;;
         PSO.update_global_best k) w = (Ok tt, w')
    /\ poised w'.
Proof.
  revert k w. induction n as [|n IH]; intros k w Hw Hrec Hlen.
  - exists w. repeat split; apply Hw.
  - cbn [seq for_each].
    destruct (particle_steps_same w k max_flip Hw Hrec) as (w1 & Ha & Hb & Hw1 & Hrec1 & Hlen1);
      [lia|].
    destruct (IH (S k) w1 Hw1 Hrec1) as (w' & Ha' & Hb' & Hw'); [lia|].
    exists w'. erewrite bind_ok by exact Ha. erewrite (bind_ok _ _ w) by exact Hb.
    repeat split; try assumption; apply Hw'.
Qed.

Lemma iteration_same w max_flip :
  poised w ->
  PSO.iteration max_flip w = iteration_without_personal_best max_flip w
  /\ poised (snd (PSO.iteration max_flip w)).
Proof.
  intros Hw.
  assert (Hcalc : exists w1,
            PSO.calc_fitness_and_global_best w = (Ok tt, w1)
            /\ poised w1 /\ recorded (fun _ => True) w1).
  { unfold PSO.calc_fitness_and_global_best. unfold bind at 1, get_self.
    destruct (calc_loop_settled (length (PSO.swarm (self w))) 0 w Hw)
      as (w1 & Hrun & Hw1 & Hrec & _); [intros j p Hj; lia | reflexivity |].
    exists w1. split; [exact Hrun|]. split; assumption. }
  destruct Hcalc as (w1 & Hrun1 & Hw1 & Hrec1).
  destruct (particle_loop_same (length (PSO.swarm (self w1))) 0 w1 max_flip Hw1)
    as (w2 & Ha & Hb & Hw2); [intros j p _; apply Hrec1; exact I | reflexivity |].
  destruct Hw2 as (Hok2 & Hall2 & Hdup2).
  destruct (update_clauses_weight_total w2 Hok2) as (w3 & Hrun3 & Hok3 & _).
  pose proof (update_clauses_weight_spec w2) as (cs' & Hw3 & _).
  rewrite Hrun3 in Hw3. cbn [snd] in Hw3.
  assert (Hleft : PSO.iteration max_flip w
                  = PSO.num_satisfied_clauses (PSO.global_best (self w3)) w3).
  { unfold PSO.iteration.
    erewrite bind_ok by exact Hrun1. rewrite bind_get_self.
    erewrite bind_ok by exact Ha. erewrite bind_ok by exact Hrun3.
    reflexivity. }
  assert (Hright : iteration_without_personal_best max_flip w
                   = PSO.num_satisfied_clauses (PSO.global_best (self w3)) w3).
  { unfold iteration_without_personal_best.
    erewrite bind_ok by exact Hrun1. rewrite bind_get_self.
    erewrite bind_ok by exact Hb. erewrite bind_ok by exact Hrun3.
    reflexivity. }
  split; [congruence|].
  rewrite Hleft, num_satisfied_clauses_world.
  split; [exact Hok3|]. rewrite Hw3. split; assumption.
Qed.

(** In a swarm as [PSO.__init__] builds it (well formed, every particle's
    [best] being its own [position] list, no list shared by two particles),
    [update_personal_best] never changes anything inside the loop of
    [run_WPSOSAT]: when it is called, the fitness recorded for the particle
    by [calc_fitness_and_global_best] is at most the fitness of its list,
    which the local search has only improved, so the test
    [particle.fitness > p_best_fit] fails.  A pass of the loop is the pass
    without that call, and it leaves the swarm in the same condition. *)
Theorem update_personal_best_never_fires (w : World (PSO.t F)) max_flip :
  swarm_ok w ->
  Forall (fun p => Particle.best p = Particle.position p) (PSO.swarm (self w)) ->
  NoDup (map Particle.position (PSO.swarm (self w))) ->
  PSO.iteration max_flip w = iteration_without_personal_best max_flip w
  /\ poised (snd (PSO.iteration max_flip w)).
Proof.
  intros Hok Hall Hdup. apply iteration_same. split; [exact Hok|]. split; assumption.
Qed.

(** Nothing checks the clause count of the header against the clauses read:
    when it is not a possible number of satisfied clauses, the loop of
    [run_WPSOSAT] cannot stop early and runs all [max_iteration] passes,
    also after the global best satisfies every clause. *)
Theorem run_WPSOSAT_wrong_header (cs : list PSO.wclause) nc np mi max_flip w0 c1 c2
    (w : World (PSO.t F)) :
  heap_ok L (heap w) ->
  Forall (well_formed L) (map fst cs) ->
  1 <= np ->
  nc < 0 \/ Z.of_nat (length cs) < nc ->
  exists ns w',
    PSO.run_WPSOSAT (cs, Z.of_nat L, nc) np mi max_flip w0 c1 c2 w
      = (Ok (ns, Z.max 0 mi), w').
Proof.
  intros Hheap Hwf Hnp Hnc.
  destruct (run_WPSOSAT_spec cs nc np mi max_flip w0 c1 c2 w Hheap Hwf Hnp)
    as (ns & it & w' & Hrun & _ & Hit & Hexit & Hns & _).
  exists ns, w'. rewrite Hrun.
  assert (it = Z.max 0 mi) as -> by lia. reflexivity.
Qed.

End SwarmEngine.

(** ** The weighted fitness and the number of satisfied clauses *)

Section WeightedFitness.
Context {F : Type} `{PyFloat F}.

(** The sum of the weights of all clauses. *)
Definition total_weight (cs : list PSO.wclause) : Z :=
  foldr (fun cw acc => snd cw + acc) 0 cs.

(** Both sums over the same clauses and the same valuation. *)
Lemma weighted_sum_bounds v (cs : list PSO.wclause) acc count :
  Forall (well_formed (length v)) (map fst cs) ->
  weights_at_least_one cs ->
  exists f n,
    PSO.weighted_sum cs v acc = Ok (acc + f)
    /\ PSO.count_clauses cs v count = Ok (count + n)
    /\ 0 <= n <= f
    /\ f <= total_weight cs
    /\ (f = total_weight cs <-> n = Z.of_nat (length cs))
    /\ (Forall (fun cw => snd cw = 1) cs -> f = n).
Proof.
  revert acc count. induction cs as [|[c wt] cs IH]; intros acc count Hwf Hone.
  - exists 0, 0. simpl. rewrite !Z.add_0_r. repeat split; auto; lia.
  - simpl in Hwf. apply Forall_cons in Hwf as [Hc Hwf].
    apply Forall_cons in Hone as [Hwt Hone]. simpl in Hwt.
    destruct (is_clause_satisfied_total v c Hc) as [b Hb].
    destruct (IH (acc + wt * Z.b2z b) (count + Z.b2z b) Hwf Hone)
      as (f & n & Hf & Hn & Hrange & Htotal & Hfull & Hunit).
    exists (wt * Z.b2z b + f), (Z.b2z b + n).
    cbn [PSO.weighted_sum PSO.count_clauses].
    rewrite pso_is_clause_satisfied_eq, Hb. simpl rbind.
    rewrite Hf, Hn. split; [f_equal; lia|]. split; [f_equal; lia|].
    cbn [total_weight foldr snd]. fold (total_weight cs). rewrite length_cons.
    assert (Hn' : n <= Z.of_nat (length cs)).
    { destruct (pso_count_clauses_spec v cs (count + Z.b2z b) Hwf) as (k & Hk & Hr & _).
      rewrite Hk in Hn. injection Hn as Hn. lia. }
    destruct b; simpl Z.b2z.
    + split; [lia|]. split; [lia|]. split; [lia|].
      intros Hall. apply Forall_cons in Hall as [Hw1 Hall]. simpl in Hw1.
      specialize (Hunit Hall). lia.
    + split; [lia|]. split; [lia|]. split; [lia|].
      intros Hall. apply Forall_cons in Hall as [Hw1 Hall].
      specialize (Hunit Hall). lia.
Qed.

(** Once every weight is at least 1, which [w_clauses_from_file] sets up and
    [update_clauses_weight] keeps, the weighted fitness of an assignment lies
    between the number of clauses it satisfies and the total weight, reaches
    the total weight exactly when every clause is satisfied, and is the
    number of satisfied clauses as long as every weight is 1. *)
Theorem weighted_fitness_bounds (w : World (PSO.t F)) (r : loc) (v : list Z) :
  heap w !! r = Some v ->
  Forall (well_formed (length v)) (map fst (PSO.clauses (self w))) ->
  weights_at_least_one (PSO.clauses (self w)) ->
  exists f n,
    PSO.fitness r w = (Ok f, w)
    /\ PSO.num_satisfied_clauses r w = (Ok n, w)
    /\ 0 <= n <= f
    /\ f <= total_weight (PSO.clauses (self w))
    /\ (f = total_weight (PSO.clauses (self w))
        <-> n = Z.of_nat (length (PSO.clauses (self w))))
    /\ (Forall (fun cw => snd cw = 1) (PSO.clauses (self w)) -> f = n).
Proof.
  intros Hv Hwf Hone.
  destruct (weighted_sum_bounds v (PSO.clauses (self w)) 0 0 Hwf Hone)
    as (f & n & Hf & Hn & Hrest).
  exists f, n. rewrite (pso_fitness_eq w r v Hv), Hf.
  split; [reflexivity|]. split; [|exact Hrest].
  unfold PSO.num_satisfied_clauses, deref. msimpl. rewrite Hv, Hn. reflexivity.
Qed.

End WeightedFitness.

(** [Particle.__init__] always completes: it creates exactly one list, of
    [max(n, 0)] bits, binds it to both [position] and [best], draws the same
    number of velocity components and consumes two outputs of the random
    source per variable; the fitness field starts at minus infinity. *)
Theorem particle_init_effect {F} `{PyFloat F} {T} (n : Z) (w : World T) :
  exists bits (v : list F),
    Particle.init n w
      = (Ok (Particle.mk n (length (heap w)) (length (heap w)) v Particle.NegInf),
         mkWorld (heap w ++ [bits]) (tape w)
           (cursor w + 2 * N.of_nat (Z.to_nat n)) (self w))
    /\ length bits = Z.to_nat n
    /\ length v = Z.to_nat n
    /\ Forall (fun b => b = 0 \/ b = 1) bits.
Proof. exact (particle_init_total n w). Qed.

(** With no particle ([num_particles <= 0]) [PSO.__init__] raises IndexError
    on [self.swarm[0]], and so does [run_WPSOSAT]; nothing was drawn or
    created. *)
Theorem init_without_particles {F} `{PyFloat F} (parsed : list PSO.wclause * Z * Z)
    (np mi max_flip : Z) (w0 c1 c2 : F) (w : World (PSO.t F)) :
  np <= 0 ->
  fst (PSO.init parsed np mi w0 c1 c2 w) = Raise IndexError
  /\ fst (PSO.run_WPSOSAT parsed np mi max_flip w0 c1 c2 w) = Raise IndexError
  /\ heap (snd (PSO.init parsed np mi w0 c1 c2 w)) = heap w
  /\ cursor (snd (PSO.init parsed np mi w0 c1 c2 w)) = cursor w
  /\ PSO.swarm (self (snd (PSO.init parsed np mi w0 c1 c2 w))) = [].
Proof.
  intros Hnp. destruct parsed as [[cs nl] nc].
  unfold PSO.run_WPSOSAT, PSO.init, PSO.init_particles, range.
  replace (Z.to_nat np) with O by lia.
  repeat split.
Qed.

Lemma init_without_particles_witness :
  0 <= 0
  /\ fst (PSO.init (PSO.w_clauses [[1]], 1, 1) 0 10 1%Q (17 # 10)%Q (21 # 10)%Q
            (mkWorld [] example_tape 0 pso_blank)) = Raise IndexError.
Proof.
  split; [lia|].
  apply (init_without_particles (PSO.w_clauses [[1]], 1, 1) 0 10 5 1%Q (17 # 10)%Q
           (21 # 10)%Q (mkWorld [] example_tape 0 pso_blank)).
  lia.
Defined.

Lemma pso_two_variables_ok : swarm_ok 2 pso_two_variables.
Proof.
  split; [repeat constructor|].
  split; [repeat constructor; unfold literal_in_range; simpl; lia|].
  split; [reflexivity|].
  split; [|simpl; lia].
  repeat constructor; simpl; lia.
Defined.

Lemma swarm_iteration_total_witness :
  swarm_ok 2 pso_two_variables
  /\ exists n w',
       PSO.iteration 5 pso_two_variables = (Ok n, w')
       /\ advances 2 pso_two_variables w'
       /\ 0 <= n <= Z.of_nat (length (PSO.clauses (self w')))
       /\ PSO.num_satisfied_clauses (PSO.global_best (self w')) w' = (Ok n, w').
Proof.
  split; [exact pso_two_variables_ok|].
  apply (swarm_iteration_total 2 pso_two_variables 5). exact pso_two_variables_ok.
Defined.

(** The formula [[1], [2], [-1, -2]] over two variables, as parsed. *)
Definition two_variables_parsed : list PSO.wclause * Z * Z :=
  (PSO.w_clauses [[1]; [2]; [-1; -2]], Z.of_nat 2, 3).

Lemma two_variables_well_formed :
  Forall (well_formed 2) (map fst (PSO.w_clauses [[1]; [2]; [-1; -2]])).
Proof. repeat constructor; unfold literal_in_range; simpl; lia. Defined.

Lemma init_builds_swarm_witness :
  exists w',
    PSO.init two_variables_parsed 2 10 1%Q (17 # 10)%Q (21 # 10)%Q
      (mkWorld [] example_tape 0 pso_blank) = (Ok tt, w')
    /\ swarm_ok 2 w'
    /\ map Particle.position (PSO.swarm (self w')) = [O; 1%nat]
    /\ PSO.global_best (self w') = O.
Proof.
  destruct (init_builds_swarm 2 (PSO.w_clauses [[1]; [2]; [-1; -2]]) 3 2 10
              1%Q (17 # 10)%Q (21 # 10)%Q (mkWorld [] example_tape 0 pso_blank))
    as (w' & Hrun & Hok & _ & _ & _ & _ & _ & Hpos & _ & Hg & _).
  - constructor.
  - exact two_variables_well_formed.
  - lia.
  - exists w'. split; [exact Hrun|]. split; [exact Hok|].
    split; [exact Hpos | exact Hg].
Defined.

Lemma run_WPSOSAT_total_witness :
  exists ns it w',
    PSO.run_WPSOSAT two_variables_parsed 2 10 5 1%Q (17 # 10)%Q (21 # 10)%Q
      (mkWorld [] example_tape 0 pso_blank) = (Ok (ns, it), w')
    /\ 0 <= it <= 10
    /\ (ns = 3 \/ 10 <= it)
    /\ 0 <= ns <= 3.
Proof.
  destruct (run_WPSOSAT_total 2 (PSO.w_clauses [[1]; [2]; [-1; -2]]) 3 2 10 5
              1%Q (17 # 10)%Q (21 # 10)%Q (mkWorld [] example_tape 0 pso_blank))
    as (ns & it & w' & Hrun & _ & Hit & Hexit & Hns & _).
  - constructor.
  - exact two_variables_well_formed.
  - lia.
  - exists ns, it, w'. split; [exact Hrun|]. split; [exact Hit|].
    split; [exact Hexit | exact Hns].
Defined.

Lemma personal_best_is_position_witness :
  let w' := snd (PSO.run_loop 10 5 0 0 pso_two_variables) in
  map Particle.position (PSO.swarm (self w')) = [O]
  /\ Forall (fun p => Particle.best p = Particle.position p) (PSO.swarm (self w'))
  /\ PSO.global_best (self w') ∈ map Particle.position (PSO.swarm (self w')).
Proof.
  apply (personal_best_is_position pso_two_variables 10 5 0 0).
  - repeat constructor.
  - simpl. constructor.
Defined.

Lemma weighted_fitness_bounds_witness :
  exists f n,
    PSO.fitness O pso_two_variables = (Ok f, pso_two_variables)
    /\ PSO.num_satisfied_clauses O pso_two_variables = (Ok n, pso_two_variables)
    /\ 0 <= n <= f
    /\ f <= 3
    /\ f = n.
Proof.
  destruct (weighted_fitness_bounds pso_two_variables O [0; 0])
    as (f & n & Hf & Hn & Hrange & Htotal & _ & Hunit).
  - reflexivity.
  - exact two_variables_well_formed.
  - repeat constructor; simpl; lia.
  - exists f, n. split; [exact Hf|]. split; [exact Hn|]. split; [exact Hrange|].
    split; [exact Htotal|]. apply Hunit. repeat constructor.
Defined.

Lemma update_personal_best_never_fires_witness :
  PSO.iteration 5 pso_two_variables
    = iteration_without_personal_best 5 pso_two_variables
  /\ poised 2 (snd (PSO.iteration 5 pso_two_variables)).
Proof.
  apply (update_personal_best_never_fires 2 pso_two_variables 5).
  - exact pso_two_variables_ok.
  - repeat constructor.
  - apply NoDup_singleton.
Defined.

Lemma run_WPSOSAT_wrong_header_witness :
  exists ns w',
    PSO.run_WPSOSAT (PSO.w_clauses [[1]; [2]; [-1; -2]], Z.of_nat 2, 4) 2 10 5
      1%Q (17 # 10)%Q (21 # 10)%Q (mkWorld [] example_tape 0 pso_blank)
    = (Ok (ns, 10), w').
Proof.
  apply (run_WPSOSAT_wrong_header 2 (PSO.w_clauses [[1]; [2]; [-1; -2]]) 4 2 10 5
           1%Q (17 # 10)%Q (21 # 10)%Q (mkWorld [] example_tape 0 pso_blank)).
  - constructor.
  - exact two_variables_well_formed.
  - lia.
  - right. simpl. lia.
Defined.

(** With [max_flip <= 0] the loop of [local_search] is not entered: nothing
    is read and nothing changes, whatever the clauses and the lists. *)
Theorem local_search_without_budget {F} `{PyFloat F} (w : World (PSO.t F))
    (k : nat) (max_flip : Z) (p : Particle.t F) :
  PSO.swarm (self w) !! k = Some p ->
  max_flip <= 0 ->
  PSO.local_search k max_flip w = (Ok tt, w).
Proof.
  intros Hp Hflip. unfold PSO.local_search, PSO.particle.
  unfold bind at 1 2, get_self. rewrite Hp. unfold ret.
  destruct (Z.to_nat max_flip); cbn [PSO.local_search_loop];
    destruct (Z.ltb_spec 0 max_flip); try lia; reflexivity.
Qed.

Lemma local_search_without_budget_witness :
  PSO.local_search O 0 pso_two_variables = (Ok tt, pso_two_variables).
Proof.
  apply (local_search_without_budget pso_two_variables O 0
           (Particle.mk 2 O O [0%Q; 0%Q] Particle.NegInf)).
  - reflexivity.
  - lia.
Defined.
